(** * Prime searcher: range partition (Scheme A) and divisor splitting (Scheme B)

    A shallow embedding of [src/main.cpp] and the proofs of its specification.

    Conventions of the embedding.
    - A C++ [long] is a [Z]; the 64-bit range is [Long.in_range].  Where an
      operation of the source can leave that range, divide by zero, index a
      vector out of bounds or throw, the embedding returns a [Fault]; the other
      additions of the source are bounded by [N] or by a square root and are
      written with the plain operations of [Z].
    - [std::sqrt] on [long double] is the correctly rounded square root of a
      format with a 64-bit significand (x87 extended precision), written out
      in integer arithmetic in [LongDouble].
    - Threads are workers of a pool that a scheduler interleaves one atomic
      step at a time; every theorem about a run quantifies over the
      scheduler.  Memory and thread exhaustion are not modelled; the size
      check of [std::vector::reserve] is ([reserve], [max_size]). *)

From Stdlib Require Import String Ascii.
From Stdlib Require Import ZArith List Bool Lia.
From Stdlib Require Import Permutation Sorted Mergesort Orders.
From Equations Require Import Equations.
Import ListNotations.
Open Scope Z_scope.

(** ** Machine integers and faults *)

Module Long.

Definition LONG_MAX : Z := 2 ^ 63 - 1.
Definition LONG_MIN : Z := - 2 ^ 63.

Definition in_range (z : Z) : Prop := LONG_MIN <= z <= LONG_MAX.

Definition in_rangeb (z : Z) : bool := (LONG_MIN <=? z) && (z <=? LONG_MAX).

End Long.

(** What a call can end with instead of a value: undefined behaviour of the
    arithmetic or of [operator[]], or an exception of the library. *)
Inductive fault : Type :=
| DivideByZero
| SignedOverflow
| IndexOutOfRange
| LengthError
| InvalidArgument
| OutOfRange.

Inductive outcome (A : Type) : Type :=
| Ret (a : A)
| Fault (f : fault).

Arguments Ret {A} a.
Arguments Fault {A} f.

Definition bind {A B : Type} (c : outcome A) (k : A -> outcome B) : outcome B :=
  match c with
  | Ret a => k a
  | Fault f => Fault f
  end.

Notation "x <- c ;; k" := (bind c (fun x => k))
  (at level 61, c at next level, right associativity).

(** [a + b] on [long]. *)
Definition ladd (a b : Z) : outcome Z :=
  if Long.in_rangeb (a + b) then Ret (a + b) else Fault SignedOverflow.

(** [a / b] on [long]: truncating division. *)
Definition ldiv (a b : Z) : outcome Z :=
  if b =? 0 then Fault DivideByZero
  else if Long.in_rangeb (Z.quot a b) then Ret (Z.quot a b)
  else Fault SignedOverflow.

(** ** Extended-precision square root *)

Module LongDouble.

(** Width of the significand ([LDBL_MANT_DIG]). *)
Definition mant_dig : Z := 64.

(** The finite non-negative value [mant * 2 ^ (- scale)]. *)
Record t : Type := mk { mant : Z; scale : Z }.

(** The integer nearest to the real square root of [M]; a tie cannot occur,
    [M] being an integer. *)
Definition nearest_sqrt (M : Z) : Z :=
  let r := Z.sqrt M in
  if r <? M - r * r then r + 1 else r.

(** [std::sqrt(static_cast<long double>(n))].  The conversion is exact, a
    [long] having at most [mant_dig] significant bits.  The root lies in
    [[2^e, 2^(e+1))] for [e = log2 n / 2], so its significand of [mant_dig]
    bits is the root scaled by [2 ^ (mant_dig - 1 - e)], rounded to nearest. *)
Definition sqrt_of_long (n : Z) : t :=
  let e := Z.log2 n / 2 in
  let s := mant_dig - 1 - e in
  {| mant := nearest_sqrt (n * 2 ^ (2 * s)); scale := s |}.

(** [static_cast<long>(x)]: truncation toward zero. *)
Definition to_long (x : t) : Z := Z.quot (mant x) (2 ^ scale x).

End LongDouble.

(** [static_cast<long>(std::sqrt(static_cast<long double>(n)))] *)
Definition sqrt_limit (n : Z) : Z :=
  LongDouble.to_long (LongDouble.sqrt_of_long n).

(** ** Scheme A: the standalone oracle *)

(** [for (long d = ...; d <= limit; d += 2) if (n % d == 0) return false;
    return true;] *)
Equations? trial_loop (n limit d : Z) : bool by wf (Z.to_nat (limit + 1 - d)) lt :=
  trial_loop n limit d with Z_le_dec d limit := {
    | left _ => if Z.rem n d =? 0 then false else trial_loop n limit (d + 2)
    | right _ => true }.
Proof. lia. Qed.

Definition isPrimeSingleThread (n : Z) : bool :=
  if n <? 2 then false
  else if n =? 2 then true
  else if Z.rem n 2 =? 0 then false
  else trial_loop n (sqrt_limit n) 3.

(** ** The independent reference: trial division by every [d] in [[2, n-1]] *)

Definition Zseq (lo : Z) (len : nat) : list Z :=
  map (fun i => lo + Z.of_nat i) (seq 0 len).

(** The integers of [[lo, hi]], ascending. *)
Definition Zrange (lo hi : Z) : list Z := Zseq lo (Z.to_nat (hi + 1 - lo)).

Definition prime_ref (n : Z) : bool :=
  (2 <=? n) && forallb (fun d => negb (n mod d =? 0)) (Zrange 2 (n - 1)).

Definition primes_ref (N : Z) : list Z := filter prime_ref (Zrange 1 N).

(** ** Pools of worker threads under a scheduler

    A pool is a shared state [St] and a list of workers [Wk].  One step of the
    pool is one atomic step of one worker that has not returned.  The
    scheduler [sched] picks, at time [t], among the workers still running.
    [run] is [for (auto &th : threads) th.join()]: it steps the pool until
    every worker has returned. *)

(** Case analysis on a value that keeps the equation, for the termination
    proofs of the loops below. *)
Definition inspect {A : Type} (x : A) : {y : A | x = y} := exist _ x eq_refl.

Fixpoint set_nth {A : Type} (i : nat) (x : A) (l : list A) : list A :=
  match l, i with
  | [], _ => []
  | _ :: l', O => x :: l'
  | y :: l', S i' => y :: set_nth i' x l'
  end.

Section Pool.

Context {St Wk : Type}.
Variable enabled : Wk -> bool.
Variable step : St -> Wk -> outcome (St * Wk).
Variable size : Wk -> nat.
Hypothesis step_decreases : forall s w s' w',
  enabled w = true -> step s w = Ret (s', w') -> (size w' < size w)%nat.

Definition indexed (ws : list Wk) : list (nat * Wk) :=
  combine (seq 0 (length ws)) ws.

Definition runnable (ws : list Wk) : list (nat * Wk) :=
  filter (fun iw => enabled (snd iw)) (indexed ws).

Definition total_size (ws : list Wk) : nat := list_sum (map size ws).

Definition choose {A : Type} (k : nat) (x : A) (l : list A) : A :=
  nth (k mod S (length l)) (x :: l) x.

Lemma indexed_from (ws : list Wk) (b i : nat) (w : Wk) :
  In (i, w) (combine (seq b (length ws)) ws) <->
  (b <= i)%nat /\ nth_error ws (i - b) = Some w.
Proof.
  revert b. induction ws as [|x ws IH]; intros b; cbn [length seq combine In].
  - split; [tauto|]. intros [_ H]. destruct (i - b)%nat; discriminate.
  - rewrite IH. split.
    + intros [E | [Hb Hn]].
      * inversion E; subst. split; [lia|]. now rewrite Nat.sub_diag.
      * split; [lia|]. replace (i - b)%nat with (S (i - S b)) by lia. exact Hn.
    + intros [Hb Hn]. destruct (Nat.eq_dec b i) as [->|Hne].
      * left. rewrite Nat.sub_diag in Hn. cbn in Hn. congruence.
      * right. split; [lia|].
        replace (i - b)%nat with (S (i - S b)) in Hn by lia. exact Hn.
Qed.

Lemma indexed_lookup (ws : list Wk) (i : nat) (w : Wk) :
  In (i, w) (indexed ws) <-> nth_error ws i = Some w.
Proof.
  unfold indexed. rewrite indexed_from, Nat.sub_0_r. intuition lia.
Qed.

Lemma runnable_lookup (ws : list Wk) (i : nat) (w : Wk) :
  In (i, w) (runnable ws) <-> nth_error ws i = Some w /\ enabled w = true.
Proof.
  unfold runnable. rewrite filter_In, indexed_lookup. reflexivity.
Qed.

Lemma choose_In {A : Type} (k : nat) (x : A) (l : list A) :
  In (choose k x l) (x :: l).
Proof.
  unfold choose. apply nth_In. cbn [length].
  apply Nat.mod_upper_bound. lia.
Qed.

Lemma total_size_set_nth (ws : list Wk) (i : nat) (w w' : Wk) :
  nth_error ws i = Some w ->
  (total_size (set_nth i w' ws) + size w = total_size ws + size w')%nat.
Proof.
  unfold total_size. revert i.
  induction ws as [|x ws IH]; intros [|i] H; cbn [nth_error] in H;
    try discriminate; cbn [set_nth map list_sum fold_right].
  - inversion H; subst. lia.
  - specialize (IH _ H). unfold list_sum in IH. lia.
Qed.

Equations? run (sched : nat -> nat) (t : nat) (s : St) (ws : list Wk) :
  outcome (St * list Wk) by wf (total_size ws) lt :=
  run sched t s ws with inspect (runnable ws) := {
    | exist _ [] _ => Ret (s, ws)
    | exist _ (iw :: rest) Hrun with inspect (step s (snd (choose (sched t) iw rest))) := {
        | exist _ (Fault f) _ => Fault f
        | exist _ (Ret (s', w')) Hstep =>
            run sched (S t) s' (set_nth (fst (choose (sched t) iw rest)) w' ws) } }.
Proof.
  match goal with
  | H : runnable ws = ?x :: ?l |- _ =>
      pose proof (choose_In (sched t) x l) as Hin; rewrite <- H in Hin;
      destruct (choose (sched t) x l) as [i v]
  end.
  cbn [fst snd] in *.
  apply runnable_lookup in Hin as [Hn He].
  pose proof (total_size_set_nth ws i v w' Hn).
  pose proof (step_decreases _ _ _ _ He Hstep). lia.
Qed.

(** One step of the pool, by any worker that has not returned, and the
    executions made of such steps. *)
Inductive pool_step : St * list Wk -> St * list Wk -> Prop :=
| pool_step_at (s : St) (ws : list Wk) (i : nat) (w : Wk) (s' : St) (w' : Wk) :
    nth_error ws i = Some w -> enabled w = true -> step s w = Ret (s', w') ->
    pool_step (s, ws) (s', set_nth i w' ws).

Inductive pool_steps : St * list Wk -> St * list Wk -> Prop :=
| pool_steps_refl (p : St * list Wk) : pool_steps p p
| pool_steps_cons (p q r : St * list Wk) :
    pool_step p q -> pool_steps q r -> pool_steps p r.

(** Every thread has returned: the joins are over. *)
Definition all_returned (ws : list Wk) : Prop :=
  Forall (fun w => enabled w = false) ws.

End Pool.

(** ** Scheme B: divisor splitting *)

(** Where a thread running [workerCheckDivRange] stands: at the loop test
    [d <= endDiv], at the locked read of [compositeFound], at the test
    [n % d == 0], at the locked write [compositeFound = true], or returned. *)
Inductive div_pc : Type := AtLoop | AtCheck | AtTest | AtSet | AtReturn.

Record div_worker : Type :=
  mk_div_worker { dw_d : Z; dw_end : Z; dw_pc : div_pc }.

Definition div_enabled (w : div_worker) : bool :=
  match dw_pc w with
  | AtReturn => false
  | _ => true
  end.

(** One atomic step of [workerCheckDivRange(n, startDiv, endDiv,
    compositeFound, flagMutex)]; the two accesses to [compositeFound] are
    atomic because both hold [flagMutex]. *)
Definition workerCheckDivRange (n : Z) (compositeFound : bool) (w : div_worker)
  : outcome (bool * div_worker) :=
  let goto pc := {| dw_d := dw_d w; dw_end := dw_end w; dw_pc := pc |} in
  match dw_pc w with
  | AtLoop =>
      Ret (compositeFound, goto (if dw_d w <=? dw_end w then AtCheck else AtReturn))
  | AtCheck =>
      Ret (compositeFound, goto (if compositeFound then AtReturn else AtTest))
  | AtTest =>
      if Z.rem n (dw_d w) =? 0 then Ret (compositeFound, goto AtSet)
      else Ret (compositeFound,
                {| dw_d := dw_d w + 1; dw_end := dw_end w; dw_pc := AtLoop |})
  | AtSet => Ret (true, goto AtReturn)
  | AtReturn => Ret (compositeFound, w)
  end.

(** A bound on the steps a worker still takes. *)
Definition div_size (w : div_worker) : nat :=
  let k := Z.to_nat (dw_end w + 1 - dw_d w) in
  match dw_pc w with
  | AtLoop => 4 * k + 1
  | AtCheck => 4 * Nat.max k 1 - 1
  | AtTest => 4 * Nat.max k 1 - 2
  | AtSet => 1
  | AtReturn => 0
  end.

Lemma div_step_decreases (n : Z) (s : bool) (w : div_worker) (s' : bool) (w' : div_worker) :
  div_enabled w = true -> workerCheckDivRange n s w = Ret (s', w') ->
  (div_size w' < div_size w)%nat.
Proof.
  destruct w as [d e pc]. unfold div_enabled, workerCheckDivRange, div_size.
  cbn [dw_d dw_end dw_pc].
  destruct pc; intros He H; try discriminate.
  - destruct (Z.leb_spec d e); inversion H; subst; cbn [dw_d dw_end dw_pc]; lia.
  - destruct s; inversion H; subst; cbn [dw_d dw_end dw_pc]; lia.
  - destruct (Z.rem n d =? 0); inversion H; subst; cbn [dw_d dw_end dw_pc]; lia.
  - inversion H; subst; cbn [dw_d dw_end dw_pc]; lia.
Qed.

(** The threads of one call, from their spawn to the end of the joins;
    the result is the final [compositeFound]. *)
Definition join_div_workers (sched : nat -> nat) (n : Z) (ws : list div_worker)
  : outcome (bool * list div_worker) :=
  run div_enabled (workerCheckDivRange n) div_size (div_step_decreases n) sched 0%nat false ws.

(** [for (long d = 3; d <= limit; d += 2) divisors.push_back(d);] *)
Equations? build_divisors (limit d : Z) : list Z by wf (Z.to_nat (limit + 1 - d)) lt :=
  build_divisors limit d with Z_le_dec d limit := {
    | left _ => d :: build_divisors limit (d + 2)
    | right _ => [] }.
Proof. lia. Qed.

(** [v[i]] *)
Definition vec_at (v : list Z) (i : Z) : outcome Z :=
  if (0 <=? i) && (i <? Z.of_nat (length v))
  then Ret (nth (Z.to_nat i) v 0)
  else Fault IndexOutOfRange.

(** [std::vector<std::thread>::max_size()]: the largest number of elements
    the vector of threads may hold, [PTRDIFF_MAX / sizeof(std::thread)] with
    an 8-byte [std::thread] (libstdc++ on a 64-bit target). *)
Definition max_size : Z := 2 ^ 60 - 1.

(** [threads.reserve(n)]: throws [std::length_error] when [n] exceeds
    [max_size()].  The argument becomes a [size_t], so a negative one, which
    wraps to a value above [max_size()], is refused as well. *)
Definition reserve (n : Z) : outcome unit :=
  if (n <? 0) || (n >? max_size) then Fault LengthError else Ret tt.

(** What one iteration of the chunk loop hands to [threads.emplace_back]. *)
Record chunk : Type :=
  mk_chunk { startIndex : Z; endIndex : Z; startDiv : Z; endDiv : Z }.

(** The chunk loop of [isPrimeByDivisorThreads], from iteration [t] with the
    current [startIndex]: the chunks of the threads it spawns, in order. *)
Equations? spawn_loop (divisors : list Z) (totalDivs chunkSize numThreads t start : Z)
  : outcome (list chunk) by wf (Z.to_nat (numThreads - t)) lt :=
  spawn_loop divisors totalDivs chunkSize numThreads t start with Z_lt_dec t numThreads := {
    | left _ =>
        let stop := if t =? numThreads - 1 then totalDivs - 1
                    else start + chunkSize - 1 in
        if start >? totalDivs - 1 then Ret []
        else
          sd <- vec_at divisors start ;;
          ed <- vec_at divisors stop ;;
          rest <- spawn_loop divisors totalDivs chunkSize numThreads (t + 1) (stop + 1) ;;
          Ret ({| startIndex := start; endIndex := stop; startDiv := sd; endDiv := ed |}
               :: rest)
    | right _ => Ret [] }.
Proof. lia. Qed.

Definition spawn_div_worker (c : chunk) : div_worker :=
  {| dw_d := startDiv c; dw_end := endDiv c; dw_pc := AtLoop |}.

(** The chunks [isPrimeByDivisorThreads] spawns once the divisor list is
    known not to be empty. *)
Definition partition_divisors (divisors : list Z) (numThreads : Z)
  : outcome (list chunk) :=
  let totalDivs := Z.of_nat (length divisors) in
  chunkSize <- ldiv totalDivs numThreads ;;
  let collapse := chunkSize =? 0 in
  let chunkSize := if collapse then totalDivs else chunkSize in
  let numThreads := if collapse then 1 else numThreads in
  _ <- reserve numThreads ;;
  spawn_loop divisors totalDivs chunkSize numThreads 0 0.

Definition isPrimeByDivisorThreads (sched : nat -> nat) (n numThreads : Z)
  : outcome bool :=
  if n <? 2 then Ret false
  else if n =? 2 then Ret true
  else if Z.rem n 2 =? 0 then Ret false
  else
    let limit := sqrt_limit n in
    if limit <=? 2 then Ret true
    else
      let divisors := build_divisors limit 3 in
      match divisors with
      | [] => Ret true
      | _ :: _ =>
          chunks <- partition_divisors divisors numThreads ;;
          joined <- join_div_workers sched n (map spawn_div_worker chunks) ;;
          Ret (negb (fst joined))
      end.

(** ** Output and the result sink *)

(** The lines of the standard output; time stamps are left out. *)
Inductive out_line : Type :=
| ConfigSays (threads maxNumber : Z)
| Menu
| RunStarted
| FoundByThread (threadId n : Z)
| FoundByB (n : Z)
| PrimesFound (ps : list Z)
| RunEnded
| Elapsed.

(** What the threads share: the output stream under [g_printMutex], the
    vector [g_collectedPrimes] under [g_collectMutex], and a count of the
    threads created so far (kept for the proofs; the program has no such
    counter). *)
Record sink : Type :=
  mk_sink { stdout : list out_line; g_collectedPrimes : list Z; spawned : nat }.

Definition print (l : out_line) (s : sink) : sink :=
  {| stdout := stdout s ++ [l];
     g_collectedPrimes := g_collectedPrimes s;
     spawned := spawned s |}.

Definition push_back (n : Z) (s : sink) : sink :=
  {| stdout := stdout s;
     g_collectedPrimes := g_collectedPrimes s ++ [n];
     spawned := spawned s |}.

Definition count_spawned (k : nat) (s : sink) : sink :=
  {| stdout := stdout s;
     g_collectedPrimes := g_collectedPrimes s;
     spawned := (spawned s + k)%nat |}.

(** ** Scheme A: range partition *)

(** A thread running [workerRangeSchemeA(threadId, startNum, endNum, _)],
    with [rw_n] the loop variable [n]. *)
Record range_worker : Type :=
  mk_range_worker { rw_id : Z; rw_n : Z; rw_end : Z }.

Definition range_enabled (w : range_worker) : bool := rw_n w <=? rw_end w.

(** One iteration of the loop of [workerRangeSchemeA]: atomic, since it
    touches shared state once, under a lock. *)
Definition workerRangeSchemeA (printImmediately : bool) (s : sink) (w : range_worker)
  : outcome (sink * range_worker) :=
  let n := rw_n w in
  let s' :=
    if isPrimeSingleThread n then
      if printImmediately then print (FoundByThread (rw_id w) n) s
      else push_back n s
    else s in
  n' <- ladd n 1 ;;
  Ret (s', {| rw_id := rw_id w; rw_n := n'; rw_end := rw_end w |}).

Definition range_size (w : range_worker) : nat := Z.to_nat (rw_end w + 1 - rw_n w).

Lemma range_step_decreases (p : bool) (s : sink) (w : range_worker) (s' : sink)
  (w' : range_worker) :
  range_enabled w = true -> workerRangeSchemeA p s w = Ret (s', w') ->
  (range_size w' < range_size w)%nat.
Proof.
  unfold range_enabled, workerRangeSchemeA, range_size, ladd, bind.
  intros He H. apply Z.leb_le in He.
  destruct (Long.in_rangeb (rw_n w + 1)); inversion H; subst.
  cbn [rw_n rw_end]. lia.
Qed.

(** The threads of Scheme A, from their spawn to the end of the joins. *)
Definition join_range_workers (sched : nat -> nat) (printImmediately : bool)
  (s : sink) (ws : list range_worker) : outcome (sink * list range_worker) :=
  run range_enabled (workerRangeSchemeA printImmediately) range_size
      (range_step_decreases printImmediately) sched 0%nat s ws.

(** The loop of [main] that assigns the ranges, from iteration [i] with the
    current [start]: the threads it spawns, in order. *)
Equations? assign_ranges (maxNumber numThreads rangeSize i start : Z)
  : outcome (list range_worker) by wf (Z.to_nat (numThreads - i)) lt :=
  assign_ranges maxNumber numThreads rangeSize i start with Z_lt_dec i numThreads := {
    | left _ =>
        let stop := if i =? numThreads - 1 then maxNumber
                    else start + rangeSize - 1 in
        next <- ladd stop 1 ;;
        rest <- assign_ranges maxNumber numThreads rangeSize (i + 1) next ;;
        Ret ({| rw_id := i; rw_n := start; rw_end := stop |} :: rest)
    | right _ => Ret [] }.
Proof. lia. Qed.

(** The ranges the Scheme A branch of [main] assigns: [rangeSize] is
    [maxNumber / numThreads], the first range starts at 1. *)
Definition assignments (maxNumber numThreads : Z) : outcome (list range_worker) :=
  rangeSize <- ldiv maxNumber numThreads ;;
  assign_ranges maxNumber numThreads rangeSize 0 1.

(** The Scheme A branch of [main], up to the joins. *)
Definition runSchemeA (sched : nat -> nat) (maxNumber numThreads : Z)
  (printImmediately : bool) (s : sink) : outcome sink :=
  threadsA <- assignments maxNumber numThreads ;;
  joined <- join_range_workers sched printImmediately
              (count_spawned (length threadsA) s) threadsA ;;
  Ret (fst joined).

(** ** Scheme B: the outer loop *)

(** The number of threads one call of [isPrimeByDivisorThreads] creates. *)
Definition div_threads (n numThreads : Z) : nat :=
  if (n <? 2) || (n =? 2) || (Z.rem n 2 =? 0) || (sqrt_limit n <=? 2) then 0%nat
  else
    match build_divisors (sqrt_limit n) 3 with
    | [] => 0%nat
    | divisors =>
        match partition_divisors divisors numThreads with
        | Ret chunks => length chunks
        | Fault _ => 0%nat
        end
    end.

(** The loop of [runSchemeB] from candidate [n]; [sched n] schedules the
    threads of candidate [n]. *)
Equations? runSchemeB_from (sched : Z -> nat -> nat) (maxNumber numThreads : Z)
  (printImmediately : bool) (n : Z) (s : sink)
  : outcome sink by wf (Z.to_nat (maxNumber + 1 - n)) lt :=
  runSchemeB_from sched maxNumber numThreads printImmediately n s
    with Z_le_dec n maxNumber := {
    | left _ =>
        prime <- isPrimeByDivisorThreads (sched n) n numThreads ;;
        let s1 := count_spawned (div_threads n numThreads) s in
        let s2 :=
          if prime : bool then
            if printImmediately then print (FoundByB n) s1 else push_back n s1
          else s1 in
        if Long.in_rangeb (n + 1)
        then runSchemeB_from sched maxNumber numThreads printImmediately (n + 1) s2
        else Fault SignedOverflow
    | right _ => Ret s }.
Proof. lia. Qed.

Definition runSchemeB (sched : Z -> nat -> nat) (maxNumber numThreads : Z)
  (printImmediately : bool) (s : sink) : outcome sink :=
  runSchemeB_from sched maxNumber numThreads printImmediately 2 s.

(** ** [std::sort] on [long] *)

Module ZLeb <: TotalLeBool.
Definition t := Z.
Definition leb := Z.leb.
Lemma leb_total (x y : t) : leb x y = true \/ leb y x = true.
Proof. unfold leb. destruct (Z.leb_spec x y); [now left | right; apply Z.leb_le; lia]. Qed.
End ZLeb.

Module ZSort := Sort ZLeb.

Definition std_sort (v : list Z) : list Z := ZSort.sort v.

(** ** Reading the configuration *)

Definition newline : ascii := ascii_of_nat 10.

(** The lines [std::getline] yields on a stream holding [s]. *)
Fixpoint getlines (s : string) : list string :=
  match s with
  | EmptyString => []
  | String c rest =>
      if Ascii.eqb c newline then EmptyString :: getlines rest
      else
        match getlines rest with
        | [] => [String c EmptyString]
        | l :: ls => String c l :: ls
        end
  end.

(** [std::isspace] in the C locale. *)
Definition is_space (c : ascii) : bool :=
  let k := nat_of_ascii c in
  (k =? 32)%nat || ((9 <=? k)%nat && (k <=? 13)%nat).

Definition digit_of (c : ascii) : option Z :=
  let k := Z.of_nat (nat_of_ascii c) in
  if (48 <=? k) && (k <=? 57) then Some (k - 48) else None.

Fixpoint skip_spaces (s : string) : string :=
  match s with
  | String c rest => if is_space c then skip_spaces rest else s
  | EmptyString => s
  end.

(** The value of the longest run of decimal digits that starts [s], after
    the digits already read ([acc]); [None] when there is no digit at all. *)
Fixpoint read_digits (s : string) (acc : option Z) : option Z :=
  match s with
  | String c rest =>
      match digit_of c with
      | Some d => read_digits rest (Some (10 * match acc with Some a => a | None => 0 end + d))
      | None => acc
      end
  | EmptyString => acc
  end.

(** [std::stol(s)]: white space, an optional sign, then digits; what follows
    the digits is ignored.  Throws [std::invalid_argument] when there is no
    digit and [std::out_of_range] when the value is not a [long]. *)
Definition stol (s : string) : outcome Z :=
  let body := skip_spaces s in
  let (negative, digits) :=
    match body with
    | String "-" rest => (true, rest)
    | String "+" rest => (false, rest)
    | _ => (false, body)
    end in
  match read_digits digits None with
  | None => Fault InvalidArgument
  | Some v =>
      let v := if negative then - v else v in
      if Long.in_rangeb v then Ret v else Fault OutOfRange
  end.

(** [line.substr(k)] for [k] within the line. *)
Definition substr (k : nat) (line : string) : string :=
  String.substring k (String.length line - k) line.

(** How [readConfig] ends: it returns with both values set, or calls
    [std::exit] after a message on the standard error. *)
Inductive config_result : Type :=
| Configured (threads maxNumber : Z)
| ConfigExit (status : Z) (diagnostic : string).

(** The [while (std::getline(inFile, line))] loop of [readConfig] and the
    test that follows it. *)
Fixpoint read_lines (lines : list string) (threads maxNumber : Z)
  (threadsSet maxNumberSet : bool) : config_result :=
  match lines with
  | [] =>
      if negb threadsSet || negb maxNumberSet
      then ConfigExit 1 "Config file is missing 'threads=' or 'maxNumber=' entries."
      else Configured threads maxNumber
  | line :: rest =>
      if String.prefix "threads=" line then
        let value := substr 8 line in
        match v <- stol value ;; (if v <=? 0 then Fault InvalidArgument else Ret v) with
        | Ret v => read_lines rest v maxNumber true maxNumberSet
        | Fault _ =>
            ConfigExit 1 (String.append "Invalid thread count in config: " value)
        end
      else if String.prefix "maxNumber=" line then
        let value := substr 10 line in
        match v <- stol value ;; (if v <=? 1 then Fault InvalidArgument else Ret v) with
        | Ret v => read_lines rest threads v threadsSet true
        | Fault _ =>
            ConfigExit 1 (String.append "Invalid max number in config: " value)
        end
      else read_lines rest threads maxNumber threadsSet maxNumberSet
  end.

(** [readConfig(filename, threads, maxNumber)]; [file] is the content of the
    file, [None] when it cannot be opened. *)
Definition readConfig (filename : string) (file : option string)
  (threads maxNumber : Z) : config_result :=
  match file with
  | None => ConfigExit 1 (String.append "Could not open config file: " filename)
  | Some content => read_lines (getlines content) threads maxNumber false false
  end.

(** ** The orchestrator *)

(** How the process ends: with an exit status, or in the prompt loop, which
    does not end when the input holds no valid choice. *)
Inductive process : Type :=
| Exited (status : Z) (out : list out_line) (err : list string) (threads : nat)
| Prompting (out : list out_line) (err : list string).

(** The [do ... while] loop that reads the choice: the lines it prints and
    the choice, if the integers typed ([input]) hold one in [1..4]. *)
Fixpoint read_choice (input : list Z) (out : list out_line) (err : list string)
  : list out_line * list string * option Z :=
  match input with
  | [] => (out ++ [Menu], err, None)
  | choice :: rest =>
      if (choice <? 1) || (choice >? 4)
      then read_choice rest (out ++ [Menu])
             (err ++ ["Invalid choice. Please enter a number between 1 and 4."%string])
      else (out ++ [Menu], err, Some choice)
  end.

(** The schedulers of a run: one for the threads of Scheme A, one per
    candidate for those of Scheme B. *)
Record schedulers : Type :=
  mk_schedulers { schedA : nat -> nat; schedB : Z -> nat -> nat }.

(** Steps 6 and 7 of [main]: the sorted list in deferred mode, then the end
    of the run. *)
Definition finish (printImmediately : bool) (err : list string) (s : sink) : process :=
  let s := if printImmediately then s
           else print (PrimesFound (std_sort (g_collectedPrimes s))) s in
  Exited 0 (stdout s ++ [RunEnded; Elapsed]) err (spawned s).

(** Steps 2 to 7 of [main], once [readConfig] has set [numThreads] and
    [maxNumber]. *)
Definition orchestrate (numThreads maxNumber : Z) (input : list Z) (sc : schedulers)
  : outcome process :=
  let out := [ConfigSays numThreads maxNumber] in
  match read_choice input out [] with
  | (out, err, None) => Ret (Prompting out err)
  | (out, err, Some choice) =>
      let printImmediately := (choice =? 1) || (choice =? 3) in
      let s := {| stdout := out ++ [RunStarted];
                  g_collectedPrimes := [];
                  spawned := 0 |} in
      _ <- reserve numThreads ;;
      if (choice =? 1) || (choice =? 2) then
        s <- runSchemeA (schedA sc) maxNumber numThreads printImmediately s ;;
        Ret (finish printImmediately err s)
      else if (choice =? 3) || (choice =? 4) then
        s <- runSchemeB (schedB sc) maxNumber numThreads printImmediately s ;;
        Ret (finish printImmediately err s)
      else Ret (Exited 1 (stdout s) (err ++ ["Invalid choice."%string]) 0)
  end.

Definition main (file : option string) (input : list Z) (sc : schedulers)
  : outcome process :=
  match readConfig "config.txt" file 0 0 with
  | ConfigExit status diagnostic => Ret (Exited status [] [diagnostic] 0)
  | Configured numThreads maxNumber => orchestrate numThreads maxNumber input sc
  end.

(** The primes a run reports: those of the [Found prime] lines and of the
    final list. *)
Definition primes_of_line (l : out_line) : list Z :=
  match l with
  | FoundByThread _ n => [n]
  | FoundByB n => [n]
  | PrimesFound ps => ps
  | _ => []
  end.

Definition reported (p : process) : list Z :=
  match p with
  | Exited _ out _ _ => flat_map primes_of_line out
  | Prompting out _ => flat_map primes_of_line out
  end.


(** ** Notions used in the statements and the proofs *)

(** The [k] odd numbers from [d] on. *)
Definition odds (d : Z) (k : nat) : list Z :=
  map (fun i => d + 2 * Z.of_nat i) (seq 0 k).

(** The number of odd divisors to try for the limit [l]. *)
Definition total_divs (limit : Z) : Z := (limit - 1) / 2.

(** The chunk iteration [t] of the chunk loop spawns, over [divisors =
    3, 5, ...]. *)
Definition chunk_at (T cs W t : Z) : chunk :=
  let start := t * cs in
  let stop := if t =? W - 1 then T - 1 else start + cs - 1 in
  {| startIndex := start; endIndex := stop;
     startDiv := 3 + 2 * start; endDiv := 3 + 2 * stop |}.

(** The chunks tile the indices [lo .. hi]: each starts where the previous
    one stopped, none is empty, the last stops at [hi]. *)
Fixpoint tiles (cs : list chunk) (lo hi : Z) : Prop :=
  match cs with
  | [] => lo = hi + 1
  | c :: rest =>
      startIndex c = lo /\ lo <= endIndex c <= hi /\ tiles rest (endIndex c + 1) hi
  end.

(** The chunk size and thread count after the collapse test. *)
Definition effective (T W : Z) : Z * Z :=
  if T / W =? 0 then (T, 1) else (T / W, W).

(** What holds of the worker of chunk [c] while [n] is tested: it has found
    no divisor below its current one, and it has returned only on a set
    flag or at the end of its chunk. *)
Definition div_ok (n : Z) (flag : bool) (c : chunk) (w : div_worker) : Prop :=
  dw_end w = endDiv c /\ startDiv c <= dw_d w /\
  (forall d, startDiv c <= d < dw_d w -> Z.rem n d <> 0) /\
  match dw_pc w with
  | AtLoop => True
  | AtCheck | AtTest => dw_d w <= dw_end w
  | AtSet => dw_d w <= dw_end w /\ Z.rem n (dw_d w) = 0
  | AtReturn => flag = true \/ dw_end w < dw_d w
  end.

(** The invariant of the pool of one call: every worker is as [div_ok]
    says, and a set flag comes with a divisor of [n] in [[3, limit]]. *)
Definition div_inv (n limit : Z) (chunks : list chunk) (p : bool * list div_worker)
  : Prop :=
  Forall2 (div_ok n (fst p)) chunks (snd p) /\
  (fst p = true -> exists d, 3 <= d <= limit /\ Z.rem n d = 0).

(** The value that follows [key] on a line that starts with it. *)
Definition value_of (key line : string) : option string :=
  if String.prefix key line then Some (substr (String.length key) line) else None.

(** A value [readConfig] refuses: [std::stol] throws on it, or the integer
    read is not above [floor]. *)
Definition refused (floor : Z) (value : string) : Prop :=
  match stol value with
  | Ret v => v <= floor
  | Fault _ => True
  end.

(** A line on which [readConfig] exits: a key followed by a value it
    refuses. *)
Definition bad_line (line : string) : Prop :=
  (exists value, value_of "threads=" line = Some value /\ refused 0 value) \/
  (exists value, value_of "maxNumber=" line = Some value /\ refused 1 value).

(** Some line starts with [key]. *)
Definition has_key (key : string) (lines : list string) : Prop :=
  Exists (fun line => String.prefix key line = true) lines.

(** Every character of [s] is a decimal digit. *)
Fixpoint all_digits (s : string) : bool :=
  match s with
  | EmptyString => true
  | String c rest =>
      match digit_of c with
      | Some _ => all_digits rest
      | None => false
      end
  end.

(** The values the specification calls numeric: an optional sign, then one
    or more decimal digits, and nothing else. *)
Definition numeric (s : string) : bool :=
  let digits :=
    match s with
    | String "-" rest => rest
    | String "+" rest => rest
    | _ => s
    end in
  negb (String.eqb digits "") && all_digits digits.

(** A scheduler for the examples: the running threads take turns. *)
Definition round_robin : schedulers :=
  {| schedA := fun t => t; schedB := fun _ t => t |}.

(** The text of a file made of the given lines. *)
Fixpoint unlines (lines : list string) : string :=
  match lines with
  | [] => EmptyString
  | line :: rest => String.append line (String newline (unlines rest))
  end.

(** A configuration whose worker count is followed by a letter. *)
Definition config_with_trailing_text : string :=
  unlines ["threads=4x"; "maxNumber=30"]%string.

(** A configuration whose worker count is one above [max_size]. *)
Definition config_with_too_many_threads : string :=
  unlines ["threads=1152921504606846976"; "maxNumber=30"]%string.

(** The range iteration [i] of the assignment loop hands out. *)
Definition range_at (N W rs i : Z) : range_worker :=
  {| rw_id := i; rw_n := 1 + i * rs;
     rw_end := if i =? W - 1 then N else (i + 1) * rs |}.

(** The numbers a worker is given. *)
Definition span (w : range_worker) : list Z := Zrange (rw_n w) (rw_end w).

(** The primes the sink has received, in the order of their arrival. *)
Definition sink_primes (printImmediately : bool) (s : sink) : list Z :=
  if printImmediately then flat_map primes_of_line (stdout s)
  else g_collectedPrimes s.

(** What the other half of the sink and the thread count keep. *)
Definition sink_frame (printImmediately : bool) (s0 s : sink) : Prop :=
  (if printImmediately then g_collectedPrimes s = g_collectedPrimes s0
   else stdout s = stdout s0) /\
  spawned s = spawned s0.

(** The primes a worker has still to report. *)
Definition pending (w : range_worker) : list Z :=
  filter isPrimeSingleThread (span w).

(** What one iteration of [workerRangeSchemeA] on [n] does to the sink. *)
Definition emit (printImmediately : bool) (threadId n : Z) (s : sink) : sink :=
  if isPrimeSingleThread n then
    if printImmediately then print (FoundByThread threadId n) s else push_back n s
  else s.

(** The invariant of the pool of Scheme A: the primes received and those
    still to come make up [target]; no loop variable can overflow; the
    other half of the sink is untouched. *)
Definition range_inv (p : bool) (target : list Z) (s0 : sink)
  (st : sink * list range_worker) : Prop :=
  Permutation (sink_primes p (fst st) ++ flat_map pending (snd st)) target /\
  Forall (fun w => 1 <= rw_n w /\ rw_end w < Long.LONG_MAX) (snd st) /\
  sink_frame p s0 (fst st).

(** The choice the prompt loop ends with: the first integer typed that lies
    in [1..4]. *)
Definition selected (input : list Z) : option Z :=
  find (fun choice => negb ((choice <? 1) || (choice >? 4))) input.

(** ** Notions used in the further properties *)

(** The message of [readConfig] for a line it refuses. *)
Definition diagnostic_of (line : string) : string :=
  if String.prefix "threads=" line
  then String.append "Invalid thread count in config: " (substr 8 line)
  else String.append "Invalid max number in config: " (substr 10 line).

(** [line] is the last line of [lines] that starts with [key]. *)
Definition last_with_key (key : string) (lines : list string) (line : string) : Prop :=
  exists pre post,
    lines = pre ++ line :: post /\ String.prefix key line = true /\
    ~ has_key key post.

(** A line that starts with one of the two keys. *)
Definition is_setting (line : string) : bool :=
  String.prefix "threads=" line || String.prefix "maxNumber=" line.

(** The character of the decimal digit [d]. *)
Definition digit_char (d : nat) : ascii := ascii_of_nat (48 + d).

(** The decimal numeral with the digits [ds], most significant first, and
    its value. *)
Fixpoint numeral (ds : list nat) : string :=
  match ds with
  | [] => EmptyString
  | d :: rest => String (digit_char d) (numeral rest)
  end.

Definition numeral_value (ds : list nat) : Z :=
  fold_left (fun a d => 10 * a + Z.of_nat d) ds 0.

(** [s] holds no line feed. *)
Fixpoint one_line (s : string) : bool :=
  match s with
  | EmptyString => true
  | String c rest => negb (Ascii.eqb c newline) && one_line rest
  end.

(** [s] does not start with a decimal digit. *)
Definition no_leading_digit (s : string) : bool :=
  match s with
  | EmptyString => true
  | String c _ => match digit_of c with Some _ => false | None => true end
  end.

(** The message of the prompt loop for a choice outside [1..4]. *)
Definition invalid_choice : string :=
  "Invalid choice. Please enter a number between 1 and 4.".

(** The numbers of the [Found prime] lines of thread [threadId], in the
    order of the output. *)
Definition found_by (threadId : Z) (out : list out_line) : list Z :=
  flat_map (fun l => match l with
                     | FoundByThread i n => if i =? threadId then [n] else []
                     | _ => []
                     end) out.

(** The divisions a worker of [workerCheckDivRange] may still start once it
    is at its current divisor: one when it stands at the division, none
    elsewhere. *)
Definition in_flight (w : div_worker) : Z :=
  match dw_pc w with
  | AtTest => 1
  | _ => 0
  end.

(** The worker of chunk [c] is inside its chunk: its [endDiv] is that of
    the chunk, its divisor lies between the first of the chunk and one past
    the last, and it stands past the loop test only on a divisor of the
    chunk. *)
Definition within_chunk (c : chunk) (w : div_worker) : Prop :=
  dw_end w = endDiv c /\ startDiv c <= dw_d w <= endDiv c + 1 /\
  match dw_pc w with
  | AtCheck | AtTest | AtSet => dw_d w <= endDiv c
  | AtLoop | AtReturn => True
  end.

(** The invariant of the pool of Scheme A in immediate mode, for the
    threads [ws0] started on the sink [s0]: no loop variable can overflow,
    no thread is created, and the lines added to the output are
    [Found prime] lines of these threads; those of thread [i], read in
    order and followed by the primes it has still to report, are the primes
    of its range. *)
Definition attributed (ws0 : list range_worker) (s0 : sink)
  (st : sink * list range_worker) : Prop :=
  Forall (fun w => 1 <= rw_n w /\ rw_end w < Long.LONG_MAX) (snd st) /\
  spawned (fst st) = spawned s0 /\
  length (snd st) = length ws0 /\
  exists added,
    stdout (fst st) = stdout s0 ++ added /\
    Forall (fun l => exists i n,
                l = FoundByThread (Z.of_nat i) n /\ (i < length ws0)%nat) added /\
    forall i w0 w, nth_error ws0 i = Some w0 -> nth_error (snd st) i = Some w ->
      rw_id w = Z.of_nat i /\ rw_end w = rw_end w0 /\
      found_by (Z.of_nat i) added ++ pending w = pending w0.

(** An execution of the threads of one call, cut after the steps the
    schedule lists: each entry picks the worker that moves. *)
Fixpoint div_trace (n : Z) (schedule : list nat) (p : bool * list div_worker)
  : bool * list div_worker :=
  match schedule with
  | [] => p
  | i :: rest =>
      match nth_error (snd p) i with
      | Some w =>
          if div_enabled w then
            match workerCheckDivRange n (fst p) w with
            | Ret (flag, w') => div_trace n rest (flag, set_nth i w' (snd p))
            | Fault _ => p
            end
          else div_trace n rest p
      | None => div_trace n rest p
      end
  end.

(** * Properties *)

(** ** The embedding on small inputs *)

Example oracle_small :
  map isPrimeSingleThread [0; 1; 2; 3; 4; 9; 15; 17; 25; 49; 97]
  = [false; false; true; true; false; false; false; true; false; false; true].
Proof. vm_compute. reflexivity. Qed.

Example divisor_threads_small :
  map (fun n => isPrimeByDivisorThreads (fun t => (2 * t + 1)%nat) n 3)
      [1; 2; 4; 9; 15; 17; 25; 49; 97; 121; 127]
  = [Ret false; Ret true; Ret false; Ret false; Ret false; Ret true; Ret false;
     Ret false; Ret true; Ret false; Ret true].
Proof. vm_compute. reflexivity. Qed.

Example sqrt_limit_small_values :
  map sqrt_limit [1; 2; 3; 4; 8; 9; 15; 16; 24; 25; 2 ^ 62 - 1; 2 ^ 62; Long.LONG_MAX]
  = [1; 1; 1; 2; 2; 3; 3; 4; 4; 5; 2147483647; 2147483648; 3037000499].
Proof. vm_compute. reflexivity. Qed.

Example assignments_30_4 :
  assignments 30 4
  = Ret [mk_range_worker 0 1 7; mk_range_worker 1 8 14;
         mk_range_worker 2 15 21; mk_range_worker 3 22 30].
Proof. vm_compute. reflexivity. Qed.

(** With more workers than numbers the chunk size is 0: every worker but
    the last gets the empty range [[1, 0]], the last gets [[1, N]]. *)
Example assignments_3_5 :
  assignments 3 5
  = Ret [mk_range_worker 0 1 0; mk_range_worker 1 1 0; mk_range_worker 2 1 0;
         mk_range_worker 3 1 0; mk_range_worker 4 1 3].
Proof. vm_compute. reflexivity. Qed.

Example chunks_11_2 :
  partition_divisors (build_divisors 11 3) 2
  = Ret [mk_chunk 0 1 3 5; mk_chunk 2 4 7 11].
Proof. vm_compute. reflexivity. Qed.

Example chunks_11_7 :
  partition_divisors (build_divisors 11 3) 7 = Ret [mk_chunk 0 4 3 11].
Proof. vm_compute. reflexivity. Qed.

Example stol_small :
  map stol ["30"; "4x"; " -12"; "+7 "; "x"; ""; "- 3"; "99999999999999999999"]%string
  = [Ret 30; Ret 4; Ret (-12); Ret 7; Fault InvalidArgument; Fault InvalidArgument;
     Fault InvalidArgument; Fault OutOfRange].
Proof. vm_compute. reflexivity. Qed.

(** The scenario of the specification: 4 threads, bound 30. *)
Example scenario_30_scheme_A_deferred :
  main (Some (unlines ["threads=4"; "maxNumber=30"]%string)) [2] round_robin
  = Ret (Exited 0
           [ConfigSays 4 30; Menu; RunStarted;
            PrimesFound [2; 3; 5; 7; 11; 13; 17; 19; 23; 29]; RunEnded; Elapsed]
           [] 4).
Proof. vm_compute. reflexivity. Qed.

Example scenario_30_scheme_B_deferred :
  main (Some (unlines ["threads=4"; "maxNumber=30"]%string)) [4] round_robin
  = Ret (Exited 0
           [ConfigSays 4 30; Menu; RunStarted;
            PrimesFound [2; 3; 5; 7; 11; 13; 17; 19; 23; 29]; RunEnded; Elapsed]
           [] 11).
Proof. vm_compute. reflexivity. Qed.

Example scenario_30_scheme_A_immediate :
  main (Some (unlines ["threads=4"; "maxNumber=30"]%string)) [0; 1] round_robin
  = Ret (Exited 0
           [ConfigSays 4 30; Menu; Menu; RunStarted;
            FoundByThread 0 2; FoundByThread 3 23; FoundByThread 0 3;
            FoundByThread 2 17; FoundByThread 1 11; FoundByThread 0 5;
            FoundByThread 2 19; FoundByThread 1 13; FoundByThread 0 7;
            FoundByThread 3 29; RunEnded; Elapsed]
           ["Invalid choice. Please enter a number between 1 and 4."%string] 4).
Proof. vm_compute. reflexivity. Qed.

Example missing_key_exits :
  main (Some (unlines ["threads=4"]%string)) [1] round_robin
  = Ret (Exited 1 []
           ["Config file is missing 'threads=' or 'maxNumber=' entries."%string] 0).
Proof. vm_compute. reflexivity. Qed.

(** ** The square root *)

Lemma sqrt_lt_pow (n : Z) : 1 <= n -> Z.sqrt n < 2 ^ (Z.log2 n / 2 + 1).
Proof.
  intros Hn.
  pose proof (Z.log2_spec n ltac:(lia)) as [_ Hup].
  pose proof (Z.log2_nonneg n) as Hl.
  set (e := Z.log2 n / 2).
  assert (He : Z.log2 n + 1 <= 2 * (e + 1)).
  { unfold e. pose proof (Z.div_mod (Z.log2 n) 2 ltac:(lia)).
    pose proof (Z.mod_pos_bound (Z.log2 n) 2 ltac:(lia)). lia. }
  assert (0 <= e) by (unfold e; apply Z.div_pos; lia).
  assert (Hp : 2 ^ (Z.succ (Z.log2 n)) <= 2 ^ (2 * (e + 1))).
  { apply Z.pow_le_mono_r; lia. }
  replace (2 * (e + 1)) with ((e + 1) + (e + 1)) in Hp by lia.
  rewrite Z.pow_add_r in Hp by lia.
  pose proof (Z.sqrt_spec n ltac:(lia)) as [Hlo _].
  pose proof (Z.sqrt_nonneg n).
  assert (0 < 2 ^ (e + 1)) by (apply Z.pow_pos_nonneg; lia).
  nia.
Qed.

(** Rounding to nearest stays within half a unit of the real root. *)
Lemma nearest_sqrt_spec (M : Z) : 1 <= M ->
  let m := LongDouble.nearest_sqrt M in
  (2 * m - 1) * (2 * m - 1) <= 4 * M <= (2 * m + 1) * (2 * m + 1).
Proof.
  intros HM. unfold LongDouble.nearest_sqrt. cbv zeta.
  pose proof (Z.sqrt_spec M ltac:(lia)) as [Hlo Hhi].
  assert (0 < Z.sqrt M) by (apply Z.sqrt_pos; lia).
  unfold Z.succ in Hhi.
  destruct (Z.ltb_spec (Z.sqrt M) (M - Z.sqrt M * Z.sqrt M)); nia.
Qed.

(** The model is that of a binary format: on a positive [long] the
    significand of the root has exactly [mant_dig] bits (or is the next
    power of two), and it is the scaled root rounded to nearest. *)
Lemma sqrt_of_long_normal (n : Z) : 1 <= n <= Long.LONG_MAX ->
  let x := LongDouble.sqrt_of_long n in
  let m := LongDouble.mant x in
  let M := n * 2 ^ (2 * LongDouble.scale x) in
  0 <= LongDouble.scale x /\
  2 ^ (LongDouble.mant_dig - 1) <= m <= 2 ^ LongDouble.mant_dig /\
  (2 * m - 1) * (2 * m - 1) <= 4 * M <= (2 * m + 1) * (2 * m + 1).
Proof.
  intros [Hn Hmax]. cbv zeta.
  unfold LongDouble.sqrt_of_long, LongDouble.mant_dig.
  cbn [LongDouble.mant LongDouble.scale].
  pose proof (Z.log2_spec n ltac:(lia)) as [Hlo Hhi].
  pose proof (Z.log2_nonneg n) as Hl0.
  assert (Hl : Z.log2 n < 63).
  { apply Z.log2_lt_pow2; [lia|]. unfold Long.LONG_MAX in Hmax. lia. }
  pose proof (Z.div_mod (Z.log2 n) 2 ltac:(lia)) as Hdm.
  pose proof (Z.mod_pos_bound (Z.log2 n) 2 ltac:(lia)) as Hmod.
  set (e := Z.log2 n / 2) in *.
  assert (He : 0 <= e <= 31) by lia.
  set (s := 64 - 1 - e).
  assert (Hs : 32 <= s <= 63) by (unfold s; lia).
  assert (H1 : 2 ^ (2 * e) <= n).
  { etransitivity; [|exact Hlo]. apply Z.pow_le_mono_r; lia. }
  assert (H2 : n < 2 ^ (2 * e + 2)).
  { eapply Z.lt_le_trans; [exact Hhi|]. apply Z.pow_le_mono_r; lia. }
  set (M := n * 2 ^ (2 * s)).
  assert (Hp : 0 < 2 ^ (2 * s)) by (apply Z.pow_pos_nonneg; lia).
  assert (HM1 : 2 ^ 63 * 2 ^ 63 <= M).
  { unfold M. rewrite <- Z.pow_add_r by lia.
    replace (63 + 63) with (2 * e + 2 * s) by (unfold s; lia).
    rewrite Z.pow_add_r by lia. nia. }
  assert (HM2 : M < 2 ^ 64 * 2 ^ 64).
  { unfold M. rewrite <- Z.pow_add_r by lia.
    replace (64 + 64) with (2 * e + 2 + 2 * s) by (unfold s; lia).
    rewrite Z.pow_add_r by lia. nia. }
  split; [lia|].
  split; [|apply nearest_sqrt_spec; lia].
  unfold LongDouble.nearest_sqrt.
  assert (Hr1 : 2 ^ 63 <= Z.sqrt M) by (apply Z.sqrt_le_square; lia).
  assert (Hr2 : Z.sqrt M < 2 ^ 64) by (apply Z.sqrt_lt_square; lia).
  change (64 - 1) with 63.
  destruct (Z.sqrt M <? M - Z.sqrt M * Z.sqrt M); lia.
Qed.

(** Truncating the extended-precision root of a positive [long] gives the
    integer square root: the rounding never reaches the next integer. *)
Lemma sqrt_limit_floor (n : Z) : 1 <= n <= Long.LONG_MAX -> sqrt_limit n = Z.sqrt n.
Proof.
  intros [Hn Hmax].
  unfold sqrt_limit, LongDouble.to_long, LongDouble.sqrt_of_long,
    LongDouble.nearest_sqrt, LongDouble.mant_dig; cbn [LongDouble.mant LongDouble.scale].
  pose proof (sqrt_lt_pow n Hn) as Hk.
  set (e := Z.log2 n / 2) in *.
  assert (He : 0 <= e <= 31).
  { unfold e. assert (Z.log2 n < 63).
    { apply Z.log2_lt_pow2; [lia|]. unfold Long.LONG_MAX in Hmax. lia. }
    pose proof (Z.log2_nonneg n).
    split; [apply Z.div_pos; lia|].
    apply Z.lt_succ_r. apply Z.div_lt_upper_bound; lia. }
  set (s := 64 - 1 - e).
  assert (Hs : e + 1 <= s) by (unfold s; lia).
  replace (2 * s) with (s + s) by lia.
  rewrite Z.pow_add_r by lia.
  set (T := 2 ^ s).
  assert (HT : 2 ^ (e + 1) <= T) by (apply Z.pow_le_mono_r; lia).
  assert (0 < 2 ^ (e + 1)) by (apply Z.pow_pos_nonneg; lia).
  set (k := Z.sqrt n) in *.
  pose proof (Z.sqrt_spec n ltac:(lia)) as [Hlo Hhi]. fold k in Hlo, Hhi.
  pose proof (Z.sqrt_nonneg n) as Hk0. fold k in Hk0.
  set (M := n * (T * T)).
  assert (HM : 0 <= M) by (unfold M; nia).
  pose proof (Z.sqrt_spec M HM) as [Hrlo Hrhi].
  pose proof (Z.sqrt_nonneg M) as Hr0.
  set (r := Z.sqrt M) in *.
  unfold Z.succ in *.
  assert (Hr1 : k * T <= r).
  { apply Z.sqrt_le_square; [lia | nia |]. unfold M. nia. }
  assert (Hr2 : r < (k + 1) * T).
  { apply Z.sqrt_lt_square; [lia | nia |]. unfold M. nia. }
  assert (Hm : k * T <= (if r <? M - r * r then r + 1 else r) < (k + 1) * T).
  { destruct (Z.ltb_spec r (M - r * r)); [|lia].
    split; [lia|].
    destruct (Z.eq_dec (r + 1) ((k + 1) * T)) as [E|]; [|lia].
    exfalso. assert (Er : r = (k + 1) * T - 1) by lia.
    assert (M <= ((k + 1) * (k + 1) - 1) * (T * T)) by (unfold M; nia).
    rewrite Er in *. nia. }
  rewrite Z.quot_div_nonneg by lia.
  symmetry.
  apply Z.div_unique with (r := (if r <? M - r * r then r + 1 else r) - k * T); lia.
Qed.

Lemma sqrt_limit_bounds (n : Z) : 1 <= n <= Long.LONG_MAX ->
  0 <= sqrt_limit n /\ sqrt_limit n * sqrt_limit n <= n
  /\ n < (sqrt_limit n + 1) * (sqrt_limit n + 1).
Proof.
  intros H. rewrite (sqrt_limit_floor n H).
  pose proof (Z.sqrt_spec n ltac:(lia)). pose proof (Z.sqrt_nonneg n).
  unfold Z.succ in *. lia.
Qed.

(** ** Lists of integers *)

Lemma Zseq_length (lo : Z) (len : nat) : length (Zseq lo len) = len.
Proof. unfold Zseq. now rewrite length_map, length_seq. Qed.

Lemma In_Zseq (lo : Z) (len : nat) (x : Z) :
  In x (Zseq lo len) <-> lo <= x < lo + Z.of_nat len.
Proof.
  unfold Zseq. rewrite in_map_iff. split.
  - intros (i & <- & Hi). apply in_seq in Hi. lia.
  - intros H. exists (Z.to_nat (x - lo)). split; [lia|]. apply in_seq. lia.
Qed.

Lemma In_Zrange (lo hi x : Z) : In x (Zrange lo hi) <-> lo <= x <= hi.
Proof. unfold Zrange. rewrite In_Zseq. lia. Qed.

Lemma Zseq_succ (lo : Z) (len : nat) : Zseq lo (S len) = lo :: Zseq (lo + 1) len.
Proof.
  unfold Zseq. cbn [seq map]. f_equal; [lia|].
  rewrite <- seq_shift, map_map. apply map_ext. intros i. lia.
Qed.

Lemma Zseq_app (lo : Z) (a b : nat) :
  Zseq lo (a + b) = Zseq lo a ++ Zseq (lo + Z.of_nat a) b.
Proof.
  revert lo. induction a as [|a IH]; intros lo.
  - cbn [Nat.add]. unfold Zseq at 2. cbn. f_equal. lia.
  - cbn [Nat.add]. rewrite !Zseq_succ, IH. cbn [app]. do 3 f_equal. lia.
Qed.

Lemma Zrange_empty (lo hi : Z) : hi < lo -> Zrange lo hi = [].
Proof. intros H. unfold Zrange. replace (Z.to_nat (hi + 1 - lo)) with 0%nat by lia. reflexivity. Qed.

Lemma Zrange_cons (lo hi : Z) : lo <= hi -> Zrange lo hi = lo :: Zrange (lo + 1) hi.
Proof.
  intros H. unfold Zrange.
  replace (Z.to_nat (hi + 1 - lo)) with (S (Z.to_nat (hi + 1 - (lo + 1)))) by lia.
  apply Zseq_succ.
Qed.

Lemma Zrange_split (lo mid hi : Z) : lo <= mid + 1 -> mid <= hi ->
  Zrange lo hi = Zrange lo mid ++ Zrange (mid + 1) hi.
Proof.
  intros H1 H2. unfold Zrange.
  replace (Z.to_nat (hi + 1 - lo))
    with (Z.to_nat (mid + 1 - lo) + Z.to_nat (hi + 1 - (mid + 1)))%nat by lia.
  rewrite Zseq_app. do 2 f_equal. lia.
Qed.

Lemma Zseq_sorted (lo : Z) (len : nat) : StronglySorted Z.lt (Zseq lo len).
Proof.
  revert lo. induction len as [|len IH]; intros lo.
  - constructor.
  - rewrite Zseq_succ. constructor; [apply IH|].
    apply Forall_forall. intros x Hx. apply In_Zseq in Hx. lia.
Qed.

Lemma Zseq_NoDup (lo : Z) (len : nat) : NoDup (Zseq lo len).
Proof.
  unfold Zseq. apply Finite.Injective_map_NoDup; [|apply seq_NoDup].
  intros a b. lia.
Qed.

(** ** Trial division decides primality *)

Lemma prime_no_divisor (n : Z) :
  Z.prime n <-> 1 < n /\ forall d, 1 < d < n -> ~ (d | n).
Proof. reflexivity. Qed.

Lemma rem_zero_divide (n d : Z) : 0 <= n -> 0 < d -> (Z.rem n d = 0 <-> (d | n)).
Proof.
  intros Hn Hd. rewrite Z.rem_mod_nonneg by lia.
  apply Z.mod_divide. lia.
Qed.

Lemma trial_loop_spec (n limit d : Z) :
  trial_loop n limit d = true <->
  forall k, 0 <= k -> d + 2 * k <= limit -> Z.rem n (d + 2 * k) <> 0.
Proof.
  funelim (trial_loop n limit d).
  - match goal with IH : _ <-> _ |- _ => rename IH into IHloop end.
    destruct (Z.eqb_spec (Z.rem n d) 0) as [E|E].
    + split; [discriminate|]. intros Hall. exfalso.
      apply (Hall 0); [lia | lia |]. now rewrite Z.add_0_r.
    + rewrite IHloop. split.
      * intros Hall k Hk Hle. destruct (Z.eq_dec k 0) as [->|Hne].
        -- now rewrite Z.add_0_r.
        -- replace (d + 2 * k) with (d + 2 + 2 * (k - 1)) by lia.
           apply Hall; lia.
      * intros Hall k Hk Hle.
        replace (d + 2 + 2 * k) with (d + 2 * (k + 1)) by lia. apply Hall; lia.
  - split; [|reflexivity]. intros _ k Hk Hle. lia.
Qed.

(** A composite has a divisor no larger than its square root. *)
Lemma small_divisor (n x : Z) : 1 < x < n -> (x | n) ->
  exists a, 1 < a /\ a * a <= n /\ (a | n).
Proof.
  intros Hx [q Hq].
  assert (1 < q) by nia.
  destruct (Z.le_gt_cases x q).
  - exists x. repeat split; [lia | nia | now exists q].
  - exists q. repeat split; [lia | nia | exists x; lia].
Qed.

Lemma odd_divisor (n a : Z) : Z.rem n 2 <> 0 -> 0 <= n -> 1 < a -> (a | n) ->
  exists k, 0 <= k /\ a = 3 + 2 * k.
Proof.
  intros Hodd Hn Ha [q Hq].
  rewrite Z.rem_mod_nonneg in Hodd by lia.
  assert (a mod 2 <> 0).
  { intros E. apply Hodd. subst n.
    rewrite Z.mul_mod, E, Z.mul_0_r by lia. reflexivity. }
  pose proof (Z.div_mod a 2 ltac:(lia)).
  pose proof (Z.mod_pos_bound a 2 ltac:(lia)).
  exists (a / 2 - 1). lia.
Qed.

Lemma isPrimeSingleThread_odd (n : Z) : 3 <= n <= Long.LONG_MAX -> Z.rem n 2 <> 0 ->
  (trial_loop n (Z.sqrt n) 3 = true <-> Z.prime n).
Proof.
  intros Hn Hodd. rewrite trial_loop_spec, prime_no_divisor.
  pose proof (Z.sqrt_spec n ltac:(lia)) as [Hlo Hhi]. unfold Z.succ in Hhi.
  pose proof (Z.sqrt_nonneg n) as Hs0.
  split.
  - intros Hall. split; [lia|]. intros x Hx Hdiv.
    destruct (small_divisor n x Hx Hdiv) as (a & Ha & Hsq & Hda).
    destruct (odd_divisor n a Hodd ltac:(lia) Ha Hda) as (k & Hk & ->).
    apply (Hall k Hk).
    + apply Z.sqrt_le_square; lia.
    + apply rem_zero_divide; [lia | lia | exact Hda].
  - intros [_ Hall] k Hk Hle E.
    apply rem_zero_divide in E; [|lia|lia].
    apply (Hall (3 + 2 * k)); [nia | exact E].
Qed.

Lemma isPrimeSingleThread_prime (n : Z) : n <= Long.LONG_MAX ->
  (isPrimeSingleThread n = true <-> Z.prime n).
Proof.
  intros Hmax. unfold isPrimeSingleThread.
  destruct (Z.ltb_spec n 2) as [Hlt|Hge].
  { split; [discriminate|]. intros Hp. apply Z.prime_ge_2 in Hp. lia. }
  destruct (Z.eqb_spec n 2) as [->|Hne].
  { split; [intros _; apply Z.prime_2 | reflexivity]. }
  destruct (Z.eqb_spec (Z.rem n 2) 0) as [He|Hodd].
  { split; [discriminate|]. intros Hp.
    apply prime_no_divisor in Hp as [_ Hp]. exfalso.
    apply (Hp 2); [lia|]. apply rem_zero_divide; [lia | lia | exact He]. }
  rewrite sqrt_limit_floor by lia.
  apply isPrimeSingleThread_odd; [lia | exact Hodd].
Qed.

Lemma prime_ref_prime (n : Z) : prime_ref n = true <-> Z.prime n.
Proof.
  unfold prime_ref. rewrite andb_true_iff, forallb_forall, prime_no_divisor, Z.leb_le.
  split.
  - intros [H2 H]. split; [lia|]. intros d Hd Hdiv.
    specialize (H d). rewrite In_Zrange in H. specialize (H ltac:(lia)).
    apply negb_true_iff, Z.eqb_neq in H. apply H.
    apply Z.mod_divide; [lia | exact Hdiv].
  - intros [H1 H]. split; [lia|]. intros d Hd. apply In_Zrange in Hd.
    apply negb_true_iff, Z.eqb_neq. intros E.
    apply (H d); [lia|]. apply Z.mod_divide; [lia | exact E].
Qed.

Lemma isPrimeSingleThread_ref (n : Z) : n <= Long.LONG_MAX ->
  isPrimeSingleThread n = prime_ref n.
Proof.
  intros H. apply eq_true_iff_eq.
  now rewrite isPrimeSingleThread_prime, prime_ref_prime.
Qed.

(** ** Executions of a pool *)

Section PoolFacts.

Context {St Wk : Type}.
Variable enabled : Wk -> bool.
Variable step : St -> Wk -> outcome (St * Wk).
Variable size : Wk -> nat.
Hypothesis step_decreases : forall s w s' w',
  enabled w = true -> step s w = Ret (s', w') -> (size w' < size w)%nat.

Lemma runnable_nil (ws : list Wk) :
  runnable enabled ws = [] -> all_returned enabled ws.
Proof.
  intros Hnil. apply Forall_forall. intros w Hw.
  apply In_nth_error in Hw as [i Hi].
  destruct (enabled w) eqn:He; [|reflexivity].
  assert (Hin : In (i, w) (runnable enabled ws)) by (apply runnable_lookup; auto).
  rewrite Hnil in Hin. destruct Hin.
Qed.

(** The worker the scheduler picked is in the pool and has not returned. *)
Ltac chosen_worker i v Hn He :=
  match goal with
  | Hr : runnable _ ?ws = ?x :: ?l |- _ =>
      let Hin := fresh "Hin" in
      pose proof (choose_In (A := nat * Wk)) as Hin;
      match goal with
      | _ : context [choose ?k x l] |- _ =>
          specialize (Hin k x l); rewrite <- Hr in Hin;
          destruct (choose k x l) as [i v]; cbn [fst snd] in *;
          apply runnable_lookup in Hin as [Hn He]
      end
  end.

(** A property of the pool that every step keeps holds along the executions. *)
Lemma pool_steps_invariant (I : St * list Wk -> Prop) :
  (forall p q, I p -> pool_step enabled step p q -> I q) ->
  forall p q, pool_steps enabled step p q -> I p -> I q.
Proof.
  intros Hstep p q Hpq. induction Hpq as [|a b c Hab Hbc IH]; intros Ha; [exact Ha|].
  apply IH. eapply Hstep; eauto.
Qed.

(** What [run] returns is the end of an execution in which every thread has
    returned; a fault is the fault of a step of some execution. *)
Lemma run_sound (sched : nat -> nat) (t : nat) (s : St) (ws : list Wk) :
  match run enabled step size step_decreases sched t s ws with
  | Ret (s', ws') =>
      pool_steps enabled step (s, ws) (s', ws') /\ all_returned enabled ws'
  | Fault f =>
      exists s1 ws1 i w, pool_steps enabled step (s, ws) (s1, ws1) /\
        nth_error ws1 i = Some w /\ enabled w = true /\ step s1 w = Fault f
  end.
Proof.
  funelim (run enabled step size step_decreases sched t s ws).
  - split; [constructor | now apply runnable_nil].
  - chosen_worker i v Hn He.
    assert (Hone : pool_step enabled step (s, ws) (s', set_nth i w' ws))
      by (econstructor; eauto).
    destruct (run enabled step size step_decreases sched (S t) s' (set_nth i w' ws))
      as [[s2 ws2]|f].
    + match goal with IH : _ /\ _ |- _ => destruct IH as [Hsteps Hall] end.
      split; [eapply pool_steps_cons; eauto | exact Hall].
    + match goal with IH : exists _, _ |- _ =>
        destruct IH as (s1 & ws1 & j & u & Hsteps & Hj & Hu & Hf) end.
      exists s1, ws1, j, u. repeat split; auto.
      eapply pool_steps_cons; eauto.
  - chosen_worker i v Hn He.
    exists s, ws, i, v. repeat split; auto. constructor.
Qed.

(** [run] returns: when no step of any execution from the initial pool
    faults, the joins complete, whatever the scheduler does. *)
Lemma run_returns (I : St * list Wk -> Prop) :
  (forall p q, I p -> pool_step enabled step p q -> I q) ->
  (forall s ws i w, I (s, ws) -> nth_error ws i = Some w -> enabled w = true ->
     exists r, step s w = Ret r) ->
  forall sched t s ws, I (s, ws) ->
  exists s' ws',
    run enabled step size step_decreases sched t s ws = Ret (s', ws') /\
    pool_steps enabled step (s, ws) (s', ws') /\ all_returned enabled ws' /\
    I (s', ws').
Proof.
  intros Hkeep Hsafe sched t s ws HI.
  pose proof (run_sound sched t s ws) as Hrun.
  destruct (run enabled step size step_decreases sched t s ws) as [[s' ws']|f].
  - destruct Hrun as [Hsteps Hall]. exists s', ws'. repeat split; auto.
    eapply pool_steps_invariant; eauto.
  - destruct Hrun as (s1 & ws1 & i & w & Hsteps & Hi & He & Hf).
    assert (H1 : I (s1, ws1)) by (eapply pool_steps_invariant; eauto).
    destruct (Hsafe _ _ _ _ H1 Hi He) as [r Hr]. congruence.
Qed.

End PoolFacts.

(** ** One iteration of each loop *)

(** Unfold one iteration of a loop on the left of an equation. *)
Tactic Notation "unfold_loop" ident(f) :=
  match goal with
  | |- _ = ?r => let rhs := fresh "rhs" in remember r as rhs; simp f; subst rhs
  end.

Lemma spawn_loop_eq (divisors : list Z) (T cs W t start : Z) :
  spawn_loop divisors T cs W t start =
  if t <? W then
    let stop := if t =? W - 1 then T - 1 else start + cs - 1 in
    if start >? T - 1 then Ret []
    else
      sd <- vec_at divisors start ;;
      ed <- vec_at divisors stop ;;
      rest <- spawn_loop divisors T cs W (t + 1) (stop + 1) ;;
      Ret ({| startIndex := start; endIndex := stop; startDiv := sd; endDiv := ed |}
           :: rest)
  else Ret [].
Proof.
  unfold_loop spawn_loop.
  destruct (Z_lt_dec t W), (Z.ltb_spec t W); try lia; reflexivity.
Qed.

Lemma build_divisors_eq (limit d : Z) :
  build_divisors limit d = if d <=? limit then d :: build_divisors limit (d + 2) else [].
Proof.
  unfold_loop build_divisors.
  destruct (Z_le_dec d limit), (Z.leb_spec d limit); try lia; reflexivity.
Qed.

Lemma runSchemeB_from_eq (sched : Z -> nat -> nat) (maxNumber numThreads : Z)
  (printImmediately : bool) (n : Z) (s : sink) :
  runSchemeB_from sched maxNumber numThreads printImmediately n s =
  if n <=? maxNumber then
    prime <- isPrimeByDivisorThreads (sched n) n numThreads ;;
    let s1 := count_spawned (div_threads n numThreads) s in
    let s2 :=
      if prime : bool then
        if printImmediately then print (FoundByB n) s1 else push_back n s1
      else s1 in
    if Long.in_rangeb (n + 1)
    then runSchemeB_from sched maxNumber numThreads printImmediately (n + 1) s2
    else Fault SignedOverflow
  else Ret s.
Proof.
  unfold_loop runSchemeB_from.
  destruct (Z_le_dec n maxNumber), (Z.leb_spec n maxNumber); try lia; reflexivity.
Qed.

Lemma assign_ranges_eq (maxNumber numThreads rangeSize i start : Z) :
  assign_ranges maxNumber numThreads rangeSize i start =
  if i <? numThreads then
    let stop := if i =? numThreads - 1 then maxNumber else start + rangeSize - 1 in
    next <- ladd stop 1 ;;
    rest <- assign_ranges maxNumber numThreads rangeSize (i + 1) next ;;
    Ret ({| rw_id := i; rw_n := start; rw_end := stop |} :: rest)
  else Ret [].
Proof.
  unfold_loop assign_ranges.
  destruct (Z_lt_dec i numThreads), (Z.ltb_spec i numThreads); try lia; reflexivity.
Qed.

Lemma trial_loop_eq (n limit d : Z) :
  trial_loop n limit d =
  if d <=? limit then (if Z.rem n d =? 0 then false else trial_loop n limit (d + 2))
  else true.
Proof.
  unfold_loop trial_loop.
  destruct (Z_le_dec d limit), (Z.leb_spec d limit); try lia; reflexivity.
Qed.

(** ** The divisor list and its chunks *)

Lemma odds_succ (d : Z) (k : nat) : odds d (S k) = d :: odds (d + 2) k.
Proof.
  unfold odds. cbn [seq map]. f_equal; [lia|].
  rewrite <- seq_shift, map_map. apply map_ext. intros i. lia.
Qed.

Lemma odds_length (d : Z) (k : nat) : length (odds d k) = k.
Proof. unfold odds. now rewrite length_map, length_seq. Qed.

Lemma odds_nth (d : Z) (k i : nat) : (i < k)%nat ->
  nth i (odds d k) 0 = d + 2 * Z.of_nat i.
Proof.
  revert d i. induction k as [|k IH]; intros d i Hi; [lia|].
  rewrite odds_succ. destruct i as [|i]; cbn [nth]; [lia|].
  rewrite IH by lia. lia.
Qed.

Lemma build_divisors_odds (limit d : Z) :
  build_divisors limit d = odds d (Z.to_nat ((limit + 2 - d) / 2)).
Proof.
  remember (Z.to_nat (limit + 1 - d)) as m eqn:Hm.
  revert d Hm. induction m as [m IH] using lt_wf_ind. intros d Hm.
  rewrite build_divisors_eq.
  destruct (Z.leb_spec d limit) as [Hle|Hgt].
  - assert (Hq : (limit + 2 - d) / 2 = (limit + 2 - (d + 2)) / 2 + 1).
    { replace (limit + 2 - d) with ((limit + 2 - (d + 2)) + 1 * 2) by lia.
      apply Z.div_add. lia. }
    assert (0 <= (limit + 2 - (d + 2)) / 2) by (apply Z.div_pos; lia).
    rewrite Hq, Z2Nat.inj_add, Nat.add_1_r, odds_succ by lia.
    f_equal. apply (IH (Z.to_nat (limit + 1 - (d + 2)))); lia.
  - assert ((limit + 2 - d) / 2 <= 0).
    { apply Z.lt_succ_r. apply Z.div_lt_upper_bound; lia. }
    replace (Z.to_nat ((limit + 2 - d) / 2)) with 0%nat by lia. reflexivity.
Qed.

Lemma build_divisors_length (limit : Z) : 3 <= limit ->
  Z.of_nat (length (build_divisors limit 3)) = total_divs limit /\ 1 <= total_divs limit.
Proof.
  intros H. rewrite build_divisors_odds, odds_length. unfold total_divs.
  replace (limit + 2 - 3) with (limit - 1) by lia.
  assert (1 <= (limit - 1) / 2) by (apply Z.div_le_lower_bound; lia).
  lia.
Qed.

Lemma build_divisors_at (limit i : Z) : 0 <= i < total_divs limit ->
  vec_at (build_divisors limit 3) i = Ret (3 + 2 * i).
Proof.
  intros Hi. unfold vec_at, total_divs in *.
  rewrite build_divisors_odds, odds_length.
  replace (limit + 2 - 3) with (limit - 1) by lia.
  destruct (Z.leb_spec 0 i); [|lia].
  destruct (Z.ltb_spec i (Z.of_nat (Z.to_nat ((limit - 1) / 2)))); [|lia].
  cbn [andb]. rewrite odds_nth by lia. f_equal. lia.
Qed.

Lemma spawn_loop_chunks (limit cs W : Z) :
  1 <= cs -> 1 <= W -> W * cs <= total_divs limit ->
  forall t start, 0 <= t <= W -> (t < W -> start = t * cs) ->
  spawn_loop (build_divisors limit 3) (total_divs limit) cs W t start
  = Ret (map (chunk_at (total_divs limit) cs W) (Zrange t (W - 1))).
Proof.
  intros Hcs HW Hfit t.
  remember (Z.to_nat (W - t)) as m eqn:Hm.
  revert t Hm. induction m as [|m IH]; intros t Hm start Ht Hstart.
  - rewrite spawn_loop_eq. destruct (Z.ltb_spec t W); [lia|].
    now rewrite Zrange_empty by lia.
  - rewrite spawn_loop_eq. destruct (Z.ltb_spec t W) as [Hlt|]; [|lia].
    specialize (Hstart Hlt). subst start. cbv zeta.
    assert (Hs : 0 <= t * cs <= total_divs limit - cs) by nia.
    destruct (Z.gtb_spec (t * cs) (total_divs limit - 1)) as [Hbad|_]; [lia|].
    set (stop := if t =? W - 1 then total_divs limit - 1 else t * cs + cs - 1).
    assert (Hstop : t * cs <= stop < total_divs limit
                    /\ (t + 1 < W -> stop + 1 = (t + 1) * cs)).
    { unfold stop. destruct (Z.eqb_spec t (W - 1)); [lia | nia]. }
    rewrite !build_divisors_at by lia. cbn [bind].
    rewrite (IH (t + 1)) by lia. cbn [bind].
    rewrite (Zrange_cons t (W - 1)) by lia. cbn [map]. reflexivity.
Qed.

Lemma chunk_at_tiles (T cs W : Z) : 1 <= cs -> 1 <= W -> W * cs <= T ->
  forall (k : nat) (t : Z), 0 <= t -> t + Z.of_nat k = W ->
  tiles (map (chunk_at T cs W) (Zseq t k)) (if t =? W then T else t * cs) (T - 1).
Proof.
  intros Hcs HW Hfit. induction k as [|k IH]; intros t Ht Hk.
  - cbn. destruct (Z.eqb_spec t W); lia.
  - rewrite Zseq_succ. cbn [map tiles].
    destruct (Z.eqb_spec t W) as [|_]; [lia|].
    specialize (IH (t + 1) ltac:(lia) ltac:(lia)).
    replace (startIndex (chunk_at T cs W t)) with (t * cs) by reflexivity.
    replace (endIndex (chunk_at T cs W t))
      with (if t =? W - 1 then T - 1 else t * cs + cs - 1) by reflexivity.
    destruct (Z.eqb_spec t (W - 1)) as [E|E].
    + destruct (Z.eqb_spec (t + 1) W); [|lia].
      replace (T - 1 + 1) with T by lia.
      repeat split; [nia | lia | exact IH].
    + destruct (Z.eqb_spec (t + 1) W); [lia|].
      replace (t * cs + cs - 1 + 1) with ((t + 1) * cs) by lia.
      repeat split; [lia | nia | exact IH].
Qed.

(** In a tiling every index lies in exactly one chunk. *)
Lemma tiles_cover (cs : list chunk) (lo hi i : Z) : tiles cs lo hi -> lo <= i <= hi ->
  exists k c, nth_error cs k = Some c /\ startIndex c <= i <= endIndex c.
Proof.
  revert lo. induction cs as [|c cs IH]; intros lo Ht Hi; cbn [tiles] in Ht.
  - lia.
  - destruct Ht as (Hs & He & Hrest).
    destruct (Z.le_gt_cases i (endIndex c)).
    + exists 0%nat, c. split; [reflexivity | lia].
    + destruct (IH _ Hrest ltac:(lia)) as (k & c' & Hk & Hc').
      exists (S k), c'. split; [exact Hk | exact Hc'].
Qed.

Lemma tiles_bounds (cs : list chunk) (lo hi : Z) (k : nat) (c : chunk) :
  tiles cs lo hi -> nth_error cs k = Some c ->
  lo <= startIndex c /\ startIndex c <= endIndex c <= hi.
Proof.
  revert lo k. induction cs as [|c0 cs IH]; intros lo k Ht Hk.
  - destruct k; discriminate.
  - cbn [tiles] in Ht. destruct Ht as (Hs & He & Hrest). destruct k as [|k].
    + inversion Hk; subst. lia.
    + cbn [nth_error] in Hk. specialize (IH _ _ Hrest Hk). lia.
Qed.

Lemma tiles_disjoint (cs : list chunk) (lo hi : Z) (j k : nat) (a b : chunk) :
  tiles cs lo hi -> nth_error cs j = Some a -> nth_error cs k = Some b ->
  (j < k)%nat -> endIndex a < startIndex b.
Proof.
  revert lo j k. induction cs as [|c0 cs IH]; intros lo j k Ht Hj Hk Hjk.
  - destruct j; discriminate.
  - cbn [tiles] in Ht. destruct Ht as (Hs & He & Hrest).
    destruct k as [|k]; [lia|]. cbn [nth_error] in Hk.
    destruct j as [|j].
    + inversion Hj; subst.
      pose proof (tiles_bounds _ _ _ _ _ Hrest Hk). lia.
    + cbn [nth_error] in Hj. apply (IH _ j k Hrest Hj Hk). lia.
Qed.

Lemma tiles_unique (cs : list chunk) (lo hi i : Z) (j k : nat) (a b : chunk) :
  tiles cs lo hi -> nth_error cs j = Some a -> nth_error cs k = Some b ->
  startIndex a <= i <= endIndex a -> startIndex b <= i <= endIndex b -> j = k.
Proof.
  intros Ht Hj Hk Ha Hb.
  destruct (Nat.lt_trichotomy j k) as [Hlt | [E | Hgt]]; [|exact E|].
  - pose proof (tiles_disjoint _ _ _ _ _ _ _ Ht Hj Hk Hlt). lia.
  - pose proof (tiles_disjoint _ _ _ _ _ _ _ Ht Hk Hj Hgt). lia.
Qed.

Lemma chunk_at_divs (T cs W t : Z) :
  startDiv (chunk_at T cs W t) = 3 + 2 * startIndex (chunk_at T cs W t) /\
  endDiv (chunk_at T cs W t) = 3 + 2 * endIndex (chunk_at T cs W t).
Proof. split; reflexivity. Qed.

Lemma effective_fits (T W : Z) : 1 <= T -> 1 <= W ->
  1 <= fst (effective T W) /\ 1 <= snd (effective T W) /\
  snd (effective T W) * fst (effective T W) <= T.
Proof.
  intros HT HW. unfold effective.
  pose proof (Z.div_pos T W ltac:(lia) ltac:(lia)).
  pose proof (Z.mul_div_le T W ltac:(lia)).
  destruct (Z.eqb_spec (T / W) 0); cbn [fst snd]; lia.
Qed.

(** [reserve] accepts exactly the sizes [0 .. max_size]. *)
Lemma reserve_accepts (n : Z) : 0 <= n <= max_size -> reserve n = Ret tt.
Proof.
  intros H. unfold reserve. destruct (Z.ltb_spec n 0); [lia|].
  destruct (Z.gtb_spec n max_size); [lia | reflexivity].
Qed.

Lemma reserve_refuses (n : Z) : n < 0 \/ max_size < n -> reserve n = Fault LengthError.
Proof.
  intros H. unfold reserve. destruct (Z.ltb_spec n 0); [reflexivity|].
  destruct (Z.gtb_spec n max_size); [reflexivity | lia].
Qed.

Lemma max_size_bounds : 2 ^ 32 <= max_size /\ 2 * max_size < Long.LONG_MAX.
Proof. vm_compute. split; [discriminate | reflexivity]. Qed.

(** The square roots [isPrimeByDivisorThreads] computes are far below
    [max_size]. *)
Lemma sqrt_limit_below_max_size (n : Z) : 1 <= n <= Long.LONG_MAX ->
  sqrt_limit n < 2 ^ 32.
Proof.
  intros H. pose proof (sqrt_limit_bounds n H) as (H0 & Hsq & _).
  assert (Hmax : Long.LONG_MAX < 2 ^ 32 * 2 ^ 32) by (vm_compute; reflexivity).
  assert (Hp : 0 < 2 ^ 32) by (vm_compute; reflexivity).
  destruct (Z.lt_ge_cases (sqrt_limit n) (2 ^ 32)) as [|Hge]; [assumption|].
  exfalso. generalize dependent (2 ^ 32). intros b Hmax Hp Hge. nia.
Qed.

(** A thread count that survives the collapse test is at most the number of
    divisors; so [threads.reserve] accepts it whenever that number is at
    most [max_size]. *)
Lemma budget_fits (T W : Z) : 0 <= T <= max_size -> 1 <= W ->
  T / W = 0 \/ W <= max_size.
Proof.
  intros HT HW. destruct (Z.lt_ge_cases T W) as [Hlt|Hge].
  - left. apply Z.div_small. lia.
  - right. lia.
Qed.

Lemma sqrt_budget_fits (n W : Z) : 1 <= n <= Long.LONG_MAX -> 3 <= sqrt_limit n ->
  1 <= W -> total_divs (sqrt_limit n) / W = 0 \/ W <= max_size.
Proof.
  intros Hn Hl HW. apply budget_fits; [|exact HW].
  pose proof (sqrt_limit_below_max_size n Hn). pose proof max_size_bounds.
  unfold total_divs. split; [apply Z.div_pos; lia|].
  assert ((sqrt_limit n - 1) / 2 <= sqrt_limit n - 1)
    by (apply Z.div_le_upper_bound; lia).
  lia.
Qed.

Lemma partition_divisors_chunks (limit W : Z) :
  3 <= limit <= Long.LONG_MAX -> 1 <= W ->
  total_divs limit / W = 0 \/ W <= max_size ->
  partition_divisors (build_divisors limit 3) W =
  Ret (map (chunk_at (total_divs limit) (fst (effective (total_divs limit) W))
                     (snd (effective (total_divs limit) W)))
           (Zrange 0 (snd (effective (total_divs limit) W) - 1))).
Proof.
  intros Hl HW Hfits. unfold partition_divisors.
  destruct (build_divisors_length limit ltac:(lia)) as [-> HT].
  assert (HTmax : total_divs limit <= Long.LONG_MAX).
  { unfold total_divs. apply Z.lt_succ_r. apply Z.div_lt_upper_bound; lia. }
  pose proof (Z.div_pos (total_divs limit) W ltac:(lia) ltac:(lia)) as Hq0.
  assert (Hq1 : total_divs limit / W <= total_divs limit).
  { apply Z.div_le_upper_bound; nia. }
  unfold ldiv. destruct (Z.eqb_spec W 0); [lia|].
  rewrite Z.quot_div_nonneg by lia.
  unfold Long.in_rangeb.
  destruct (Z.leb_spec Long.LONG_MIN (total_divs limit / W));
    [|unfold Long.LONG_MIN in *; lia].
  destruct (Z.leb_spec (total_divs limit / W) Long.LONG_MAX); [|lia].
  cbn [andb bind].
  pose proof (effective_fits (total_divs limit) W HT HW) as (H1 & H2 & H3).
  pose proof max_size_bounds as [Hbig _].
  assert (Hone : 1 <= max_size) by (assert (1 <= 2 ^ 32) by (vm_compute; discriminate); lia).
  unfold effective in *.
  destruct (Z.eqb_spec (total_divs limit / W) 0); cbn [fst snd] in *;
    (rewrite reserve_accepts by (destruct Hfits; lia));
    cbn [bind];
    apply spawn_loop_chunks; lia.
Qed.

(** ** Executions of the divisor workers *)

Lemma Forall2_lookup_r {A B : Type} (R : A -> B -> Prop) (l1 : list A) (l2 : list B)
  (i : nat) (b : B) :
  Forall2 R l1 l2 -> nth_error l2 i = Some b ->
  exists a, nth_error l1 i = Some a /\ R a b.
Proof.
  intros H. revert i. induction H as [|x y l1 l2 Hxy H IH]; intros [|i] Hi;
    cbn [nth_error] in *; try discriminate.
  - inversion Hi; subst. eauto.
  - apply IH, Hi.
Qed.

Lemma Forall2_set_nth {A B : Type} (R : A -> B -> Prop) (l1 : list A) (l2 : list B)
  (i : nat) (a : A) (b : B) :
  Forall2 R l1 l2 -> nth_error l1 i = Some a -> R a b ->
  Forall2 R l1 (set_nth i b l2).
Proof.
  intros H. revert i. induction H as [|x y l1 l2 Hxy H IH]; intros [|i] Hi Hab;
    cbn [nth_error set_nth] in *; try discriminate.
  - inversion Hi; subst. now constructor.
  - constructor; [exact Hxy | now apply IH].
Qed.

Lemma div_ok_mono (n : Z) (flag : bool) (c : chunk) (w : div_worker) :
  div_ok n flag c w -> div_ok n true c w.
Proof.
  unfold div_ok. intros (He & Hs & Hno & Hpc). repeat split; auto.
  destruct (dw_pc w); auto.
Qed.

Lemma div_inv_init (n limit : Z) (chunks : list chunk) :
  div_inv n limit chunks (false, map spawn_div_worker chunks).
Proof.
  split; cbn [fst snd]; [|discriminate].
  induction chunks as [|c cs IH]; cbn [map]; constructor; [|exact IH].
  unfold div_ok, spawn_div_worker; cbn [dw_d dw_end dw_pc].
  repeat split; [lia | intros d Hd; lia].
Qed.

Lemma div_inv_step (n limit : Z) (chunks : list chunk) :
  (forall c, In c chunks -> 3 <= startDiv c /\ endDiv c <= limit) ->
  forall p q, div_inv n limit chunks p ->
  pool_step div_enabled (workerCheckDivRange n) p q -> div_inv n limit chunks q.
Proof.
  intros Hb p q [Hall Hflag] Hstep.
  destruct Hstep as [s ws i w s' w' Hi He Hs]. cbn [fst snd] in *.
  destruct (Forall2_lookup_r _ _ _ _ _ Hall Hi) as (c & Hc & Hok).
  pose proof (Hb c (nth_error_In _ _ Hc)) as [Hc3 Hcl].
  destruct w as [d e pc]. unfold workerCheckDivRange in Hs.
  destruct Hok as (Hend & Hstart & Hno & Hpc); cbn [dw_d dw_end dw_pc] in *.
  destruct pc; try discriminate.
  - (* the loop test *)
    inversion Hs; subst s' w'; clear Hs. split; cbn [fst snd]; [|exact Hflag].
    eapply Forall2_set_nth; eauto.
    unfold div_ok; cbn [dw_d dw_end dw_pc].
    destruct (Z.leb_spec d e); repeat split; auto.
  - (* the read of the flag *)
    inversion Hs; subst s' w'; clear Hs. split; cbn [fst snd]; [|exact Hflag].
    eapply Forall2_set_nth; eauto.
    unfold div_ok; cbn [dw_d dw_end dw_pc].
    destruct s; repeat split; auto.
  - (* the division *)
    destruct (Z.eqb_spec (Z.rem n d) 0) as [E|E];
      inversion Hs; subst s' w'; clear Hs; (split; cbn [fst snd]; [|exact Hflag]);
      eapply Forall2_set_nth; eauto;
      unfold div_ok; cbn [dw_d dw_end dw_pc]; repeat split; auto; try lia.
    intros d' Hd'. destruct (Z.eq_dec d' d) as [->|]; [exact E | apply Hno; lia].
  - (* the write of the flag *)
    inversion Hs; subst s' w'; clear Hs. split; cbn [fst snd].
    + eapply Forall2_set_nth; eauto.
      * clear - Hall. induction Hall; constructor; eauto using div_ok_mono.
      * unfold div_ok; cbn [dw_d dw_end dw_pc]. repeat split; auto.
    + intros _. exists d. destruct Hpc. split; [lia | assumption].
Qed.

Lemma div_step_safe (n : Z) (s : bool) (w : div_worker) :
  exists r, workerCheckDivRange n s w = Ret r.
Proof.
  unfold workerCheckDivRange. destruct (dw_pc w); eauto.
  destruct (Z.rem n (dw_d w) =? 0); eauto.
Qed.

(** Once the threads are joined, the flag tells whether some worker met a
    divisor, and an unset flag means every chunk was scanned to its end. *)
Lemma div_inv_final (n limit : Z) (chunks : list chunk) (flag : bool)
  (ws : list div_worker) :
  div_inv n limit chunks (flag, ws) -> all_returned div_enabled ws ->
  (flag = true -> exists d, 3 <= d <= limit /\ Z.rem n d = 0) /\
  (flag = false -> forall c d, In c chunks -> startDiv c <= d <= endDiv c ->
     Z.rem n d <> 0).
Proof.
  intros [Hall Hflag] Hret. cbn [fst snd] in *. split; [exact Hflag|].
  intros Hf c d Hc Hd.
  apply In_nth_error in Hc as [i Hi].
  assert (Hw : exists w, nth_error ws i = Some w /\ div_ok n flag c w).
  { clear - Hall Hi. revert i Hi.
    induction Hall as [|x y l1 l2 Hxy H IH]; intros [|i] Hi;
      cbn [nth_error] in *; try discriminate.
    - inversion Hi; subst. eauto.
    - apply IH, Hi. }
  destruct Hw as (w & Hw & (Hend & Hstart & Hno & Hpc)).
  pose proof (proj1 (Forall_forall _ _) Hret w (nth_error_In _ _ Hw)) as Hdone.
  unfold div_enabled in Hdone. destruct (dw_pc w); try discriminate.
  destruct Hpc as [Ht|Hlt]; [congruence|]. apply Hno. lia.
Qed.

(** What the chunk loop yields for a divisor list that is not empty. *)
Lemma partition_facts (limit W : Z) : 3 <= limit <= Long.LONG_MAX -> 1 <= W ->
  total_divs limit / W = 0 \/ W <= max_size ->
  exists chunks,
    partition_divisors (build_divisors limit 3) W = Ret chunks /\
    Z.of_nat (length chunks) = snd (effective (total_divs limit) W) /\
    tiles chunks 0 (total_divs limit - 1) /\
    (forall c, In c chunks ->
       startDiv c = 3 + 2 * startIndex c /\ endDiv c = 3 + 2 * endIndex c).
Proof.
  intros Hl HW Hfits. eexists. split; [apply partition_divisors_chunks; assumption|].
  destruct (build_divisors_length limit ltac:(lia)) as [_ HT].
  pose proof (effective_fits (total_divs limit) W HT HW) as (H1 & H2 & H3).
  set (cs := fst (effective (total_divs limit) W)) in *.
  set (W' := snd (effective (total_divs limit) W)) in *.
  split; [|split].
  - rewrite length_map. unfold Zrange. rewrite Zseq_length. lia.
  - pose proof (chunk_at_tiles (total_divs limit) cs W' H1 H2 H3
                  (Z.to_nat W') 0 ltac:(lia) ltac:(lia)) as Ht.
    destruct (Z.eqb_spec 0 W'); [lia|].
    unfold Zrange. replace (W' - 1 + 1 - 0) with W' by lia. exact Ht.
  - intros c Hc. apply in_map_iff in Hc as (t & <- & _). apply chunk_at_divs.
Qed.

Lemma chunk_bounds (limit : Z) (chunks : list chunk) :
  tiles chunks 0 (total_divs limit - 1) ->
  (forall c, In c chunks ->
     startDiv c = 3 + 2 * startIndex c /\ endDiv c = 3 + 2 * endIndex c) ->
  forall c, In c chunks -> 3 <= startDiv c /\ endDiv c <= limit.
Proof.
  intros Ht Hdiv c Hc. destruct (Hdiv c Hc) as [-> ->].
  apply In_nth_error in Hc as [k Hk].
  pose proof (tiles_bounds _ _ _ _ _ Ht Hk) as Hb.
  assert (2 * total_divs limit <= limit - 1).
  { unfold total_divs. apply Z.mul_div_le. lia. }
  lia.
Qed.

(** Whatever the interleaving, the joined threads leave the flag set exactly
    when the trial division by the odd numbers up to [limit] finds a
    divisor. *)
Lemma div_workers_verdict (n limit : Z) (chunks : list chunk) :
  0 <= n -> Z.rem n 2 <> 0 ->
  tiles chunks 0 (total_divs limit - 1) ->
  (forall c, In c chunks ->
     startDiv c = 3 + 2 * startIndex c /\ endDiv c = 3 + 2 * endIndex c) ->
  forall flag ws,
    pool_steps div_enabled (workerCheckDivRange n)
      (false, map spawn_div_worker chunks) (flag, ws) ->
    all_returned div_enabled ws ->
    negb flag = trial_loop n limit 3.
Proof.
  intros Hn Hodd Ht Hdiv flag ws Hsteps Hret.
  pose proof (chunk_bounds limit chunks Ht Hdiv) as Hb.
  assert (Hinv : div_inv n limit chunks (flag, ws)).
  { eapply (pool_steps_invariant div_enabled (workerCheckDivRange n)
              (div_inv n limit chunks)); eauto.
    - intros p q. apply div_inv_step. exact Hb.
    - apply div_inv_init. }
  destruct (div_inv_final _ _ _ _ _ Hinv Hret) as [Hset Hclear].
  destruct flag; cbn [negb].
  - destruct (Hset eq_refl) as (d & Hd & Hrem).
    symmetry. apply not_true_is_false. intros Hloop.
    rewrite trial_loop_spec in Hloop.
    assert (Hdn : (d | n)) by (apply rem_zero_divide; [lia | lia | exact Hrem]).
    destruct (odd_divisor n d Hodd Hn ltac:(lia) Hdn) as (k & Hk & ->).
    apply (Hloop k Hk); [lia | exact Hrem].
  - symmetry. apply trial_loop_spec. intros k Hk Hle.
    assert (Hi : 0 <= k <= total_divs limit - 1).
    { split; [lia|]. unfold total_divs.
      assert (k + 1 <= (limit - 1) / 2) by (apply Z.div_le_lower_bound; lia). lia. }
    destruct (tiles_cover _ _ _ k Ht Hi) as (j & c & Hj & Hc).
    pose proof (nth_error_In _ _ Hj) as Hin.
    destruct (Hdiv c Hin) as [Hs He].
    apply (Hclear eq_refl c); [exact Hin | lia].
Qed.

(** The joins return, under every scheduler. *)
Lemma join_div_workers_returns (sched : nat -> nat) (n : Z) (ws : list div_worker) :
  exists flag ws',
    join_div_workers sched n ws = Ret (flag, ws') /\
    pool_steps div_enabled (workerCheckDivRange n) (false, ws) (flag, ws') /\
    all_returned div_enabled ws'.
Proof.
  unfold join_div_workers.
  destruct (run_returns div_enabled (workerCheckDivRange n) div_size
              (div_step_decreases n) (fun _ => True)) with (sched := sched)
    (t := 0%nat) (s := false) (ws := ws) as (flag & ws' & Hrun & Hsteps & Hret & _);
    auto.
  - intros s ws0 i w _ _ _. apply div_step_safe.
  - exists flag, ws'. auto.
Qed.

Lemma sqrt_limit_small (n : Z) : 3 <= n <= Long.LONG_MAX ->
  0 <= sqrt_limit n <= Long.LONG_MAX.
Proof.
  intros H. pose proof (sqrt_limit_bounds n ltac:(lia)) as (H0 & Hsq & _).
  split; [exact H0 | nia].
Qed.

Lemma isPrimeByDivisorThreads_oracle (sched : nat -> nat) (n W : Z) :
  n <= Long.LONG_MAX -> 1 <= W ->
  isPrimeByDivisorThreads sched n W = Ret (isPrimeSingleThread n).
Proof.
  intros Hmax HW. unfold isPrimeByDivisorThreads, isPrimeSingleThread.
  destruct (Z.ltb_spec n 2); [reflexivity|].
  destruct (Z.eqb_spec n 2); [reflexivity|].
  destruct (Z.eqb_spec (Z.rem n 2) 0) as [|Hodd]; [reflexivity|].
  pose proof (sqrt_limit_small n ltac:(lia)) as Hlim.
  set (limit := sqrt_limit n) in *.
  destruct (Z.leb_spec limit 2) as [Hle|Hgt].
  { rewrite trial_loop_eq. destruct (Z.leb_spec 3 limit); [lia | reflexivity]. }
  assert (Hfits : total_divs limit / W = 0 \/ W <= max_size)
    by (apply sqrt_budget_fits; [lia | unfold limit in *; lia | lia]).
  destruct (partition_facts limit W ltac:(lia) HW Hfits)
    as (chunks & Hpart & _ & Ht & Hdiv).
  destruct (build_divisors limit 3) as [|d0 ds] eqn:Hds.
  { pose proof (build_divisors_length limit ltac:(lia)) as [Hlen Hpos].
    rewrite Hds in Hlen. cbn [length Z.of_nat] in Hlen. lia. }
  rewrite Hpart. cbn [bind].
  destruct (join_div_workers_returns sched n (map spawn_div_worker chunks))
    as (flag & ws' & -> & Hsteps & Hret).
  cbn [bind fst]. f_equal.
  eapply div_workers_verdict; eauto. lia.
Qed.

(** ** The oracle and the divisor partitioner *)

Lemma odd_from_three (d : Z) : 3 <= d -> Z.odd d = true ->
  exists k, 0 <= k /\ d = 3 + 2 * k.
Proof.
  intros Hd Hodd. rewrite Z.odd_spec in Hodd. destruct Hodd as [m Hm].
  exists (m - 1). lia.
Qed.

(** C3.  For every integer [n] that a [long] can hold,
    [isPrimeSingleThread n] is true exactly when [n] is prime, and it
    follows the steps of the specification: [n < 2] gives false, [n = 2]
    gives true, an even [n] gives false, and any other [n] is divided by
    every odd integer from 3 up to [floor (sqrt n)] inclusive, an exact
    divisor giving false and the exhausted range true.  The function is a
    total function of [n] alone. *)
Theorem isPrimeSingleThread_correct (n : Z) : n <= Long.LONG_MAX ->
  (isPrimeSingleThread n = true <-> Z.prime n) /\
  (n < 2 -> isPrimeSingleThread n = false) /\
  (n = 2 -> isPrimeSingleThread n = true) /\
  (2 < n -> Z.rem n 2 = 0 -> isPrimeSingleThread n = false) /\
  (2 < n -> Z.rem n 2 <> 0 ->
     (isPrimeSingleThread n = false <->
      exists d, 3 <= d <= Z.sqrt n /\ Z.odd d = true /\ Z.rem n d = 0) /\
     (isPrimeSingleThread n = true <->
      forall d, 3 <= d <= Z.sqrt n -> Z.odd d = true -> Z.rem n d <> 0)).
Proof.
  intros Hmax. split; [apply isPrimeSingleThread_prime, Hmax|].
  unfold isPrimeSingleThread.
  split; [|split; [|split]].
  - intros H. destruct (Z.ltb_spec n 2); [reflexivity | lia].
  - intros ->. reflexivity.
  - intros H He. destruct (Z.ltb_spec n 2); [lia|].
    destruct (Z.eqb_spec n 2); [lia|]. rewrite He. reflexivity.
  - intros H Ho. destruct (Z.ltb_spec n 2); [lia|].
    destruct (Z.eqb_spec n 2); [lia|].
    destruct (Z.eqb_spec (Z.rem n 2) 0); [contradiction|].
    rewrite sqrt_limit_floor by lia.
    assert (Htrue : trial_loop n (Z.sqrt n) 3 = true <->
              forall d, 3 <= d <= Z.sqrt n -> Z.odd d = true -> Z.rem n d <> 0).
    { rewrite trial_loop_spec. split.
      - intros Hall d Hd Hodd.
        destruct (odd_from_three d ltac:(lia) Hodd) as (k & Hk & ->).
        apply Hall; lia.
      - intros Hall k Hk Hle. apply Hall; [lia|].
        rewrite Z.odd_add_mul_2. reflexivity. }
    split; [|exact Htrue].
    rewrite <- not_true_iff_false, Htrue. split.
    + intros Hnot.
      destruct (existsb (fun d => Z.odd d && (Z.rem n d =? 0)) (Zrange 3 (Z.sqrt n)))
        eqn:Hex.
      * apply existsb_exists in Hex as (d & Hd & Hp).
        apply In_Zrange in Hd. apply andb_true_iff in Hp as [Hodd Hrem].
        apply Z.eqb_eq in Hrem. exists d. auto.
      * exfalso. apply Hnot. intros d Hd Hodd Hrem.
        assert (Hin : In d (Zrange 3 (Z.sqrt n))) by (apply In_Zrange; lia).
        assert (existsb (fun d => Z.odd d && (Z.rem n d =? 0)) (Zrange 3 (Z.sqrt n))
                = true).
        { apply existsb_exists. exists d. split; [exact Hin|].
          rewrite Hodd. apply Z.eqb_eq. exact Hrem. }
        congruence.
    + intros (d & Hd & Hodd & Hrem) Hall. exact (Hall d Hd Hodd Hrem).
Qed.

Lemma isPrimeSingleThread_correct_witness :
  9 <= Long.LONG_MAX /\ (isPrimeSingleThread 9 = true <-> Z.prime 9).
Proof.
  assert (H : 9 <= Long.LONG_MAX) by (vm_compute; discriminate).
  split; [exact H | exact (proj1 (isPrimeSingleThread_correct 9 H))].
Defined.

(** C2.  For every candidate [n] and every worker budget [W >= 1], so in
    particular for [W] from 1 up to [floor (sqrt n)], and whatever the
    interleaving of the worker threads, [isPrimeByDivisorThreads n W]
    returns the verdict of the standalone oracle [isPrimeSingleThread n]:
    under every scheduler the call returns that verdict, and every
    execution of the threads it spawns ends, once all have returned, with
    the flag unset exactly when the oracle says prime. *)
Theorem isPrimeByDivisorThreads_matches_oracle (sched : nat -> nat) (n W : Z) :
  n <= Long.LONG_MAX -> 1 <= W ->
  isPrimeByDivisorThreads sched n W = Ret (isPrimeSingleThread n) /\
  (forall chunks flag ws,
     2 < n -> Z.rem n 2 <> 0 -> 2 < sqrt_limit n ->
     partition_divisors (build_divisors (sqrt_limit n) 3) W = Ret chunks ->
     pool_steps div_enabled (workerCheckDivRange n)
       (false, map spawn_div_worker chunks) (flag, ws) ->
     all_returned div_enabled ws ->
     negb flag = isPrimeSingleThread n).
Proof.
  intros Hmax HW. split; [apply isPrimeByDivisorThreads_oracle; assumption|].
  intros chunks flag ws Hn Hodd Hlim Hpart Hsteps Hret.
  pose proof (sqrt_limit_small n ltac:(lia)) as Hl.
  destruct (partition_facts (sqrt_limit n) W ltac:(lia) HW
              ltac:(apply sqrt_budget_fits; lia))
    as (chunks' & Hpart' & _ & Ht & Hdiv).
  rewrite Hpart in Hpart'. inversion Hpart'; subst chunks'.
  unfold isPrimeSingleThread.
  destruct (Z.ltb_spec n 2); [lia|].
  destruct (Z.eqb_spec n 2); [lia|].
  destruct (Z.eqb_spec (Z.rem n 2) 0); [contradiction|].
  eapply div_workers_verdict; eauto. lia.
Qed.

Lemma isPrimeByDivisorThreads_matches_oracle_witness :
  (25 <= Long.LONG_MAX /\ 1 <= 2 <= Z.sqrt 25) /\
  isPrimeByDivisorThreads (fun t => (2 * t + 1)%nat) 25 2
  = Ret (isPrimeSingleThread 25).
Proof.
  assert (H : 25 <= Long.LONG_MAX) by (vm_compute; discriminate).
  split; [split; [exact H | vm_compute; split; discriminate]|].
  apply (isPrimeByDivisorThreads_matches_oracle _ 25 2 H); lia.
Defined.

(** C9.  For every candidate [n] of the range of [long], the limit obtained
    by truncating the extended-precision square root is not below
    [floor (sqrt n)] (it is equal to it); hence the square of a prime is
    found composite by both oracles, [n = 9] included, and [n = 4], whose
    limit 2 would take the [limit <= 2] exit, is rejected before it by the
    even test, for every worker count. *)
Theorem sqrt_limit_never_undercounts (n : Z) : 1 <= n <= Long.LONG_MAX ->
  Z.sqrt n <= sqrt_limit n /\ sqrt_limit n = Z.sqrt n /\
  (forall p, Z.prime p -> n = p * p ->
     isPrimeSingleThread n = false /\
     forall sched W, 1 <= W -> isPrimeByDivisorThreads sched n W = Ret false) /\
  (n = 9 ->
     sqrt_limit n = 3 /\ isPrimeSingleThread n = false /\
     forall sched W, 1 <= W -> isPrimeByDivisorThreads sched n W = Ret false) /\
  (n = 4 ->
     sqrt_limit n = 2 /\ (Z.rem n 2 =? 0) = true /\
     forall sched W, isPrimeByDivisorThreads sched n W = Ret false).
Proof.
  intros Hn. pose proof (sqrt_limit_floor n Hn) as Hfloor.
  assert (Hsq : forall p, 1 < p -> n = p * p -> isPrimeSingleThread n = false).
  { intros p Hp ->. apply not_true_iff_false.
    rewrite isPrimeSingleThread_prime by lia. intros [_ Hprime].
    apply (Hprime p); [nia | exists p; reflexivity]. }
  split; [lia|]. split; [exact Hfloor|]. split; [|split].
  - intros p [Hp _] Hnp. split; [eapply Hsq; eauto|].
    intros sched W HW. rewrite isPrimeByDivisorThreads_oracle by lia.
    f_equal. eapply Hsq; eauto.
  - intros ->. split; [reflexivity|]. split; [reflexivity|].
    intros sched W HW. rewrite isPrimeByDivisorThreads_oracle by lia. reflexivity.
  - intros ->. repeat split.
Qed.

Lemma sqrt_limit_never_undercounts_witness :
  1 <= 9 <= Long.LONG_MAX /\ Z.sqrt 9 <= sqrt_limit 9.
Proof.
  assert (H : 1 <= 9 <= Long.LONG_MAX) by (vm_compute; split; discriminate).
  split; [exact H | exact (proj1 (sqrt_limit_never_undercounts 9 H))].
Defined.

Lemma exists_unique_chunk (chunks : list chunk) (lo hi : Z) (P : chunk -> Prop)
  (i : Z) :
  tiles chunks lo hi -> lo <= i <= hi ->
  (forall c, In c chunks -> (P c <-> startIndex c <= i <= endIndex c)) ->
  exists! k, exists c, nth_error chunks k = Some c /\ P c.
Proof.
  intros Ht Hi HP.
  destruct (tiles_cover _ _ _ i Ht Hi) as (k & c & Hk & Hc).
  exists k. split.
  - exists c. split; [exact Hk|]. apply HP; [eapply nth_error_In; eauto | exact Hc].
  - intros k' (c' & Hk' & Hc').
    apply HP in Hc'; [|eapply nth_error_In; eauto].
    eapply tiles_unique; eauto.
Qed.

Lemma partition_divisors_too_many (limit W : Z) :
  3 <= limit <= Long.LONG_MAX -> total_divs limit / W <> 0 -> max_size < W ->
  partition_divisors (build_divisors limit 3) W = Fault LengthError.
Proof.
  intros Hl Hnz HW. pose proof max_size_bounds as [Hbig _].
  assert (Hp : 0 < 2 ^ 32) by (vm_compute; reflexivity).
  unfold partition_divisors.
  destruct (build_divisors_length limit ltac:(lia)) as [-> HT].
  assert (HTmax : total_divs limit <= Long.LONG_MAX).
  { unfold total_divs. apply Z.lt_succ_r. apply Z.div_lt_upper_bound; lia. }
  pose proof (Z.div_pos (total_divs limit) W ltac:(lia) ltac:(lia)) as Hq0.
  assert (Hq1 : total_divs limit / W <= total_divs limit).
  { apply Z.div_le_upper_bound; nia. }
  unfold ldiv. destruct (Z.eqb_spec W 0); [lia|].
  rewrite Z.quot_div_nonneg by lia.
  unfold Long.in_rangeb.
  destruct (Z.leb_spec Long.LONG_MIN (total_divs limit / W));
    [|unfold Long.LONG_MIN in *; lia].
  destruct (Z.leb_spec (total_divs limit / W) Long.LONG_MAX); [|lia].
  cbn [andb bind].
  destruct (Z.eqb_spec (total_divs limit / W) 0); [contradiction|].
  rewrite reserve_refuses by lia. reflexivity.
Qed.

(** C10.  In [isPrimeByDivisorThreads] with [W >= 1] and a divisor list
    that is not empty: when [floor (totalDivs / W)] is zero the loop spawns
    exactly one worker, which covers the whole list; otherwise it spawns
    exactly [W] workers (the guard [startIndex > totalDivs - 1] never
    fires).  In both cases the index chunks are contiguous, not empty and
    pairwise disjoint, every index of the divisor list lies in exactly one
    of them, and so every odd divisor of [[3, limit]] is handed to exactly
    one worker.  The chunk loop is reached when [threads.reserve] accepts
    the thread count left by the collapse test, that is when the division
    is zero or [W <= max_size]; this is so for every limit that
    [isPrimeByDivisorThreads] computes, a square root of a [long].  For a
    limit given from outside, a count above [max_size] that survives the
    collapse test ends the call in [threads.reserve]. *)
Theorem divisor_chunks_partition (limit W : Z) :
  build_divisors limit 3 <> [] -> limit <= Long.LONG_MAX -> 1 <= W ->
  let divisors := build_divisors limit 3 in
  let totalDivs := Z.of_nat (length divisors) in
  (totalDivs / W = 0 \/ W <= max_size ->
   exists chunks,
    partition_divisors divisors W = Ret chunks /\
    (totalDivs / W = 0 ->
       chunks = [{| startIndex := 0; endIndex := totalDivs - 1;
                    startDiv := 3; endDiv := 3 + 2 * (totalDivs - 1) |}]) /\
    (totalDivs / W <> 0 -> Z.of_nat (length chunks) = W) /\
    tiles chunks 0 (totalDivs - 1) /\
    (forall c, In c chunks ->
       vec_at divisors (startIndex c) = Ret (startDiv c) /\
       vec_at divisors (endIndex c) = Ret (endDiv c)) /\
    (forall j k a b, nth_error chunks j = Some a -> nth_error chunks k = Some b ->
       j <> k -> forall i, ~ (startIndex a <= i <= endIndex a /\
                              startIndex b <= i <= endIndex b)) /\
    (forall i, 0 <= i < totalDivs ->
       exists! k, exists c, nth_error chunks k = Some c /\
                            startIndex c <= i <= endIndex c) /\
    (forall d, 3 <= d <= limit -> Z.odd d = true ->
       exists! k, exists c, nth_error chunks k = Some c /\
                            startDiv c <= d <= endDiv c)) /\
  (forall n, 1 <= n <= Long.LONG_MAX -> limit = sqrt_limit n ->
     totalDivs / W = 0 \/ W <= max_size) /\
  (totalDivs / W <> 0 -> max_size < W ->
     partition_divisors divisors W = Fault LengthError).
Proof.
  intros Hne Hmax HW. cbv zeta.
  assert (Hl : 3 <= limit).
  { destruct (Z.le_gt_cases 3 limit); [assumption|]. exfalso. apply Hne.
    rewrite build_divisors_eq. destruct (Z.leb_spec 3 limit); [lia | reflexivity]. }
  destruct (build_divisors_length limit Hl) as [HT Hpos]. rewrite HT.
  split; [|split];
    [|intros n Hn ->; apply sqrt_budget_fits; assumption
     |intros Hnz Hbig; apply partition_divisors_too_many; [lia | assumption | assumption]].
  intros Hfits.
  destruct (partition_facts limit W ltac:(lia) HW Hfits)
    as (chunks & Hpart & Hlen & Ht & Hdiv).
  exists chunks. split; [exact Hpart|].
  split; [|split; [|split; [exact Ht|split; [|split; [|split]]]]].
  - intros Hz. rewrite partition_divisors_chunks in Hpart by (assumption || lia).
    inversion Hpart as [Hc]. unfold effective. rewrite Hz.
    change (0 =? 0) with true. cbn [fst snd].
    change (Zrange 0 (1 - 1)) with [0]. cbn [map].
    unfold chunk_at. change (0 =? 1 - 1) with true. cbv zeta.
    repeat f_equal; lia.
  - intros Hnz. rewrite Hlen. unfold effective.
    destruct (Z.eqb_spec (total_divs limit / W) 0); [contradiction | reflexivity].
  - intros c Hc. destruct (Hdiv c Hc) as [-> ->].
    apply In_nth_error in Hc as [k Hk].
    pose proof (tiles_bounds _ _ _ _ _ Ht Hk).
    split; apply build_divisors_at; lia.
  - intros j k a b Hj Hk Hjk i [Ha Hb]. apply Hjk.
    eapply tiles_unique; eauto.
  - intros i Hi.
    apply (exists_unique_chunk chunks 0 (total_divs limit - 1)
             (fun c => startIndex c <= i <= endIndex c) i Ht); [lia|].
    intros c _. reflexivity.
  - intros d Hd Hodd.
    destruct (odd_from_three d ltac:(lia) Hodd) as (i & Hi & ->).
    assert (i + 1 <= total_divs limit).
    { unfold total_divs. apply Z.div_le_lower_bound; lia. }
    apply (exists_unique_chunk chunks 0 (total_divs limit - 1)
             (fun c => startDiv c <= 3 + 2 * i <= endDiv c) i Ht); [lia|].
    intros c Hc. destruct (Hdiv c Hc) as [-> ->]. lia.
Qed.

Lemma divisor_chunks_partition_witness :
  exists chunks,
    partition_divisors (build_divisors 11 3) 2 = Ret chunks /\
    Z.of_nat (length chunks) = 2.
Proof.
  assert (H1 : build_divisors 11 3 <> []) by (vm_compute; discriminate).
  assert (H2 : 11 <= Long.LONG_MAX) by (vm_compute; discriminate).
  assert (H3 : 1 <= 2) by lia.
  assert (H4 : Z.of_nat (length (build_divisors 11 3)) / 2 = 0 \/ 2 <= max_size)
    by (right; vm_compute; discriminate).
  destruct (proj1 (divisor_chunks_partition 11 2 H1 H2 H3) H4)
    as (chunks & Hp & _ & Hlen & _).
  exists chunks. split; [exact Hp|]. apply Hlen. vm_compute. discriminate.
Defined.

Lemma div_step_flag (n : Z) (flag : bool) (w : div_worker) (flag' : bool)
  (w' : div_worker) :
  workerCheckDivRange n flag w = Ret (flag', w') ->
  (flag = true -> flag' = true) /\
  (flag' <> flag -> dw_pc w = AtSet /\ flag' = true) /\
  (dw_pc w' = AtTest -> dw_pc w = AtCheck /\ flag = false /\ dw_d w' = dw_d w) /\
  (dw_pc w = AtCheck -> flag = true -> w' = mk_div_worker (dw_d w) (dw_end w) AtReturn).
Proof.
  destruct w as [d e pc]. unfold workerCheckDivRange. cbn [dw_d dw_end dw_pc].
  destruct pc.
  - destruct (d <=? e); intros H; inversion H; subst; cbn [dw_pc dw_d];
      repeat split; try congruence; try discriminate.
  - destruct flag; intros H; inversion H; subst; cbn [dw_pc dw_d];
      repeat split; try congruence; try discriminate.
  - destruct (Z.rem n d =? 0); intros H; inversion H; subst; cbn [dw_pc dw_d];
      repeat split; try congruence; try discriminate.
  - intros H; inversion H; subst; cbn [dw_pc dw_d];
      repeat split; try congruence; try discriminate.
  - intros H; inversion H; subst; cbn [dw_pc dw_d];
      repeat split; try congruence; try discriminate.
Qed.

Lemma set_nth_lookup {A : Type} (l : list A) (i j : nat) (x : A) :
  nth_error (set_nth i x l) j =
  if Nat.eqb i j then (match nth_error l j with Some _ => Some x | None => None end)
  else nth_error l j.
Proof.
  revert i j. induction l as [|y l IH]; intros [|i] [|j]; cbn [set_nth nth_error Nat.eqb];
    try reflexivity.
  - destruct (Nat.eqb i j); reflexivity.
  - apply IH.
Qed.

(** C7.  Within one call of [isPrimeByDivisorThreads] the flag
    [compositeFound] only goes from false to true: along every execution of
    the worker threads a set flag stays set, and the only step that changes
    it is the locked write after an exact division.  A worker divides by a
    candidate only in the step that follows its locked read of the flag,
    and only when that read saw the flag unset; a worker that reads the flag
    set returns at once, leaving its current divisor and those after it
    untested, and a worker that has returned takes no further step.  The
    threads of a call, under any scheduler, follow such an execution until
    all of them have returned. *)
Theorem composite_flag_monotone (n : Z) :
  (forall p q, pool_steps div_enabled (workerCheckDivRange n) p q ->
     fst p = true -> fst q = true) /\
  (forall flag w flag' w', workerCheckDivRange n flag w = Ret (flag', w') ->
     (flag = true -> flag' = true) /\
     (flag' <> flag -> dw_pc w = AtSet /\ flag' = true) /\
     (dw_pc w' = AtTest -> dw_pc w = AtCheck /\ flag = false /\ dw_d w' = dw_d w) /\
     (dw_pc w = AtCheck -> flag = true ->
        w' = mk_div_worker (dw_d w) (dw_end w) AtReturn)) /\
  (forall p q i w, pool_steps div_enabled (workerCheckDivRange n) p q ->
     nth_error (snd p) i = Some w -> dw_pc w = AtReturn ->
     nth_error (snd q) i = Some w) /\
  (forall sched ws, exists flag ws',
     join_div_workers sched n ws = Ret (flag, ws') /\
     pool_steps div_enabled (workerCheckDivRange n) (false, ws) (flag, ws') /\
     all_returned div_enabled ws').
Proof.
  split; [|split; [|split]]; [| | |intros sched ws; apply join_div_workers_returns].
  - intros p q Hsteps.
    refine (pool_steps_invariant div_enabled (workerCheckDivRange n)
              (fun r => fst p = true -> fst r = true) _ p q Hsteps (fun H => H)).
    intros a b Ha Hstep Hp. destruct Hstep as [s ws i w s' w' Hi He Hs].
    cbn [fst] in *.
    exact (proj1 (div_step_flag _ _ _ _ _ Hs) (Ha Hp)).
  - intros flag w flag' w'. apply div_step_flag.
  - intros p q i w Hsteps Hi Hret.
    refine (pool_steps_invariant div_enabled (workerCheckDivRange n)
              (fun r => nth_error (snd r) i = Some w) _ p q Hsteps Hi).
    intros a b Ha Hstep. destruct Hstep as [s ws j v s' v' Hj He Hs].
    cbn [snd] in *. rewrite set_nth_lookup.
    destruct (Nat.eqb_spec j i) as [->|]; [|exact Ha].
    exfalso. rewrite Hj in Ha. inversion Ha; subst v.
    unfold div_enabled in He. rewrite Hret in He. discriminate.
Qed.

(** ** Faults of the divisor partitioner *)

Lemma spawn_loop_fault (divisors : list Z) (T cs W : Z) (f : fault) :
  forall t start, spawn_loop divisors T cs W t start = Fault f -> f = IndexOutOfRange.
Proof.
  intros t. remember (Z.to_nat (W - t)) as m eqn:Hm.
  revert t Hm. induction m as [|m IH]; intros t Hm start; rewrite spawn_loop_eq.
  - destruct (Z.ltb_spec t W); [lia | discriminate].
  - destruct (Z.ltb_spec t W); [|discriminate]. cbv zeta.
    destruct (start >? T - 1); [discriminate|].
    unfold vec_at at 1.
    destruct ((0 <=? start) && (start <? Z.of_nat (length divisors))); cbn [bind];
      [|congruence].
    match goal with |- context [vec_at divisors ?i] =>
      unfold vec_at at 1;
      destruct ((0 <=? i) && (i <? Z.of_nat (length divisors))); cbn [bind];
      [|congruence]
    end.
    match goal with |- context [spawn_loop divisors T cs W ?t' ?s'] =>
      destruct (spawn_loop divisors T cs W t' s') eqn:Hrec; cbn [bind];
      [discriminate|]
    end.
    intros Hf. inversion Hf; subst. eapply (IH (t + 1)); [lia | exact Hrec].
Qed.

(** The kinds of fault a call can end with: none of them is a rejection of
    the arguments. *)
Lemma isPrimeByDivisorThreads_faults (sched : nat -> nat) (n W : Z) (f : fault) :
  isPrimeByDivisorThreads sched n W = Fault f ->
  f = DivideByZero \/ f = SignedOverflow \/ f = LengthError \/ f = IndexOutOfRange.
Proof.
  unfold isPrimeByDivisorThreads.
  destruct (n <? 2); [discriminate|].
  destruct (n =? 2); [discriminate|].
  destruct (Z.rem n 2 =? 0); [discriminate|].
  destruct (sqrt_limit n <=? 2); [discriminate|].
  destruct (build_divisors (sqrt_limit n) 3) as [|d0 ds]; [discriminate|].
  unfold partition_divisors, ldiv.
  set (T := Z.of_nat (length (d0 :: ds))).
  destruct (W =? 0); cbn [bind]; [intros H; inversion H; auto|].
  destruct (Long.in_rangeb (Z.quot T W)); cbn [bind]; [|intros H; inversion H; auto].
  match goal with |- context [reserve ?w] => destruct (reserve w) as [[]|f0] eqn:Hres end;
    cbn [bind];
    [|unfold reserve in Hres;
      match type of Hres with context [if ?b then _ else _] => destruct b end;
      [|discriminate]; inversion Hres; subst; intros H; inversion H; auto].
  match goal with |- context [spawn_loop ?a ?b ?c ?d ?e ?g] =>
    destruct (spawn_loop a b c d e g) as [chunks|f0] eqn:Hsp end; cbn [bind].
  - destruct (join_div_workers_returns sched n (map spawn_div_worker chunks))
      as (flag & ws' & -> & _). cbn [bind]. discriminate.
  - intros H; inversion H; subst. apply spawn_loop_fault in Hsp. auto.
Qed.

(** ** The configuration *)

Lemma stol_in_range (s : string) (v : Z) : stol s = Ret v -> Long.in_range v.
Proof.
  unfold stol.
  destruct (match skip_spaces s with
            | String "-" rest => (true, rest)
            | String "+" rest => (false, rest)
            | _ => (false, skip_spaces s)
            end) as [negative digits].
  destruct (read_digits digits None) as [v0|]; [|discriminate].
  destruct (Long.in_rangeb (if negative then - v0 else v0)) eqn:Hr; [|discriminate].
  intros H; inversion H; subst.
  unfold Long.in_rangeb in Hr. apply andb_true_iff in Hr as [H1 H2].
  apply Z.leb_le in H1, H2. split; assumption.
Qed.

Lemma keys_exclusive (line : string) :
  String.prefix "threads=" line = true -> String.prefix "maxNumber=" line = false.
Proof.
  destruct line as [|c line]; [discriminate|].
  cbn [String.prefix].
  destruct (ascii_dec "t" c) as [<-|]; [|discriminate].
  intros _. reflexivity.
Qed.

Lemma bad_line_threads (line : string) :
  String.prefix "threads=" line = true ->
  (bad_line line <-> refused 0 (substr 8 line)).
Proof.
  intros Pt. unfold bad_line, value_of. rewrite Pt, (keys_exclusive line Pt).
  split.
  - intros [(value & Hval & H) | (value & Hval & _)]; [|discriminate].
    inversion Hval; subst value. exact H.
  - intros H. left. eexists. split; [reflexivity | exact H].
Qed.

Lemma bad_line_maxNumber (line : string) :
  String.prefix "threads=" line = false -> String.prefix "maxNumber=" line = true ->
  (bad_line line <-> refused 1 (substr 10 line)).
Proof.
  intros Pt Pm. unfold bad_line, value_of. rewrite Pt, Pm. split.
  - intros [(value & Hval & _) | (value & Hval & H)]; [discriminate|].
    inversion Hval; subst value. exact H.
  - intros H. right. eexists. split; [reflexivity | exact H].
Qed.

Lemma bad_line_other (line : string) :
  String.prefix "threads=" line = false -> String.prefix "maxNumber=" line = false ->
  ~ bad_line line.
Proof.
  intros Pt Pm. unfold bad_line, value_of. rewrite Pt, Pm.
  intros [(value & Hval & _) | (value & Hval & _)]; discriminate.
Qed.

Lemma Exists_tail {A : Type} (P : A -> Prop) (x : A) (l : list A) :
  Exists P (x :: l) -> ~ P x -> Exists P l.
Proof. intros H Hx. inversion H; subst; [contradiction | assumption]. Qed.

Lemma read_lines_exits (lines : list string) :
  forall threads maxNumber threadsSet maxNumberSet,
  Exists bad_line lines \/
  (threadsSet = false /\ ~ has_key "threads=" lines) \/
  (maxNumberSet = false /\ ~ has_key "maxNumber=" lines) ->
  exists diagnostic,
    read_lines lines threads maxNumber threadsSet maxNumberSet
    = ConfigExit 1 diagnostic.
Proof.
  induction lines as [|line rest IH]; intros t m ts ms H; cbn [read_lines].
  - destruct H as [H | [[-> _] | [-> _]]].
    + inversion H.
    + cbn [negb orb]. eauto.
    + rewrite orb_true_r. eauto.
  - unfold has_key in *.
    destruct (String.prefix "threads=" line) eqn:Pt.
    + pose proof (bad_line_threads line Pt) as Hbad. unfold refused in Hbad.
      destruct (stol (substr 8 line)) as [v|f]; cbn [bind]; [|eauto].
      destruct (Z.leb_spec v 0) as [Hle|Hgt]; [eauto|].
      apply IH. destruct H as [H | [[_ H] | [Hms H]]].
      * left. apply (Exists_tail _ _ _ H). rewrite Hbad. lia.
      * exfalso. apply H. constructor. exact Pt.
      * right. right. split; [exact Hms|]. intros Hk. apply H.
        apply Exists_cons_tl. exact Hk.
    + destruct (String.prefix "maxNumber=" line) eqn:Pm.
      * pose proof (bad_line_maxNumber line Pt Pm) as Hbad. unfold refused in Hbad.
        destruct (stol (substr 10 line)) as [v|f]; cbn [bind]; [|eauto].
        destruct (Z.leb_spec v 1) as [Hle|Hgt]; [eauto|].
        apply IH. destruct H as [H | [[Hts H] | [_ H]]].
        -- left. apply (Exists_tail _ _ _ H). rewrite Hbad. lia.
        -- right. left. split; [exact Hts|]. intros Hk. apply H.
           apply Exists_cons_tl. exact Hk.
        -- exfalso. apply H. constructor. exact Pm.
      * apply IH. destruct H as [H | [[Hts H] | [Hms H]]].
        -- left. apply (Exists_tail _ _ _ H). apply bad_line_other; assumption.
        -- right. left. split; [exact Hts|]. intros Hk. apply H.
           apply Exists_cons_tl. exact Hk.
        -- right. right. split; [exact Hms|]. intros Hk. apply H.
           apply Exists_cons_tl. exact Hk.
Qed.

(** What [readConfig] hands to [main] when it returns: a positive worker
    count and a bound above 1, both in the range of [long]. *)
Lemma read_lines_configured (lines : list string) :
  forall threads maxNumber threadsSet maxNumberSet W N,
  (threadsSet = true -> 1 <= threads <= Long.LONG_MAX) ->
  (maxNumberSet = true -> 2 <= maxNumber <= Long.LONG_MAX) ->
  read_lines lines threads maxNumber threadsSet maxNumberSet = Configured W N ->
  1 <= W <= Long.LONG_MAX /\ 2 <= N <= Long.LONG_MAX.
Proof.
  induction lines as [|line rest IH]; intros t m ts ms W N Ht Hm; cbn [read_lines].
  - destruct ts, ms; cbn [negb orb]; try discriminate.
    intros H; inversion H; subst. auto.
  - destruct (String.prefix "threads=" line).
    + destruct (stol (substr 8 line)) as [v|f] eqn:Hv; cbn [bind]; [|discriminate].
      destruct (Z.leb_spec v 0); [discriminate|].
      apply IH; [|exact Hm]. intros _. apply stol_in_range in Hv as [_ Hv]. lia.
    + destruct (String.prefix "maxNumber=" line).
      * destruct (stol (substr 10 line)) as [v|f] eqn:Hv; cbn [bind]; [|discriminate].
        destruct (Z.leb_spec v 1); [discriminate|].
        apply IH; [exact Ht|]. intros _. apply stol_in_range in Hv as [_ Hv]. lia.
      * apply IH; assumption.
Qed.

Lemma readConfig_configured (file : option string) (W N : Z) :
  readConfig "config.txt" file 0 0 = Configured W N ->
  1 <= W <= Long.LONG_MAX /\ 2 <= N <= Long.LONG_MAX.
Proof.
  destruct file as [content|]; cbn [readConfig]; [|discriminate].
  apply read_lines_configured; discriminate.
Qed.

(** C8, as stated, fails: the value [4x] is not numeric, yet [readConfig]
    takes it for 4 and the run goes on to report the primes up to 30. *)
Lemma config_trailing_text_accepted :
  In "threads=4x"%string (getlines config_with_trailing_text) /\
  value_of "threads=" "threads=4x" = Some "4x"%string /\
  numeric "4x" = false /\
  readConfig "config.txt" (Some config_with_trailing_text) 0 0 = Configured 4 30 /\
  main (Some config_with_trailing_text) [2] round_robin
  = Ret (Exited 0
           [ConfigSays 4 30; Menu; RunStarted;
            PrimesFound [2; 3; 5; 7; 11; 13; 17; 19; 23; 29]; RunEnded; Elapsed]
           [] 4).
Proof.
  split; [left; reflexivity|]. repeat split; vm_compute; reflexivity.
Qed.

(** C8, amended.  If the configuration file cannot be opened, or has no line
    that starts with [threads=] or none that starts with [maxNumber=], or on
    some such line [std::stol] finds no integer of the range of [long] at
    the start of the value, or the integer read is [<= 0] for [threads] or
    [<= 1] for [maxNumber], then the process prints one diagnostic on the
    standard error and exits with status 1, having printed nothing else and
    spawned no worker. *)
Theorem config_errors_exit (file : option string) (input : list Z) (sc : schedulers) :
  (file = None \/
   exists content, file = Some content /\
     (Exists bad_line (getlines content) \/
      ~ has_key "threads=" (getlines content) \/
      ~ has_key "maxNumber=" (getlines content))) ->
  exists diagnostic,
    readConfig "config.txt" file 0 0 = ConfigExit 1 diagnostic /\
    main file input sc = Ret (Exited 1 [] [diagnostic] 0).
Proof.
  intros H.
  assert (Hexit : exists diagnostic,
             readConfig "config.txt" file 0 0 = ConfigExit 1 diagnostic).
  { destruct H as [-> | (content & -> & H)]; cbn [readConfig]; [eauto|].
    apply read_lines_exits. tauto. }
  destruct Hexit as [diagnostic Hd]. exists diagnostic. split; [exact Hd|].
  unfold main. rewrite Hd. reflexivity.
Qed.

Lemma config_errors_exit_witness :
  exists diagnostic,
    readConfig "config.txt" (Some (unlines ["threads=0"; "maxNumber=30"]%string)) 0 0
    = ConfigExit 1 diagnostic /\
    main (Some (unlines ["threads=0"; "maxNumber=30"]%string)) [1] round_robin
    = Ret (Exited 1 [] [diagnostic] 0).
Proof.
  apply config_errors_exit. right. eexists. split; [reflexivity|].
  left. apply Exists_cons_hd. left. exists "0"%string.
  split; [reflexivity | vm_compute; discriminate].
Defined.

(** C5, as stated, fails: with a worker budget of 0 and the candidate 9 the
    call divides by zero; it is not rejected. *)
Lemma zero_workers_divide_by_zero :
  isPrimeByDivisorThreads (fun _ => 0%nat) 9 0 = Fault DivideByZero /\
  isPrimeByDivisorThreads (fun _ => 0%nat) 9 0 <> Fault InvalidArgument.
Proof. split; [vm_compute; reflexivity | vm_compute; discriminate]. Qed.

(** C5, amended.  [isPrimeByDivisorThreads] does not validate its worker
    budget and never ends in an invalid-argument failure.  Called with
    [W <= 0] it returns the verdict of the oracle when [n < 9] or [n] is
    even, without using [W]; with [W = 0] and an odd [n >= 9] it divides by
    zero.  The worker count is validated before, by [readConfig], which
    only returns a count [>= 1]. *)
Theorem nonpositive_workers_not_rejected (sched : nat -> nat) (n W : Z) :
  W <= 0 -> n <= Long.LONG_MAX ->
  isPrimeByDivisorThreads sched n W <> Fault InvalidArgument /\
  (n < 9 \/ Z.rem n 2 = 0 ->
     isPrimeByDivisorThreads sched n W = Ret (isPrimeSingleThread n)) /\
  (9 <= n -> Z.rem n 2 <> 0 -> W = 0 ->
     isPrimeByDivisorThreads sched n W = Fault DivideByZero) /\
  (forall file W' N,
     readConfig "config.txt" file 0 0 = Configured W' N -> 1 <= W').
Proof.
  intros HW Hmax. split; [|split; [|split]].
  - intros Hf. apply isPrimeByDivisorThreads_faults in Hf.
    destruct Hf as [Hf | [Hf | [Hf | Hf]]]; discriminate.
  - intros Hn. unfold isPrimeByDivisorThreads, isPrimeSingleThread.
    destruct (Z.ltb_spec n 2); [reflexivity|].
    destruct (Z.eqb_spec n 2); [reflexivity|].
    destruct (Z.eqb_spec (Z.rem n 2) 0) as [|Hodd]; [reflexivity|].
    destruct Hn as [Hn|Hn]; [|contradiction].
    pose proof (sqrt_limit_bounds n ltac:(lia)) as (H0 & Hsq & _).
    assert (Hl : sqrt_limit n <= 2) by nia.
    destruct (Z.leb_spec (sqrt_limit n) 2); [|lia].
    rewrite trial_loop_eq. destruct (Z.leb_spec 3 (sqrt_limit n)); [lia | reflexivity].
  - intros Hn Hodd ->. unfold isPrimeByDivisorThreads.
    destruct (Z.ltb_spec n 2); [lia|].
    destruct (Z.eqb_spec n 2); [lia|].
    destruct (Z.eqb_spec (Z.rem n 2) 0); [contradiction|].
    pose proof (sqrt_limit_bounds n ltac:(lia)) as (H0 & _ & Hsq).
    assert (Hl : 3 <= sqrt_limit n) by nia.
    destruct (Z.leb_spec (sqrt_limit n) 2); [lia|].
    destruct (build_divisors (sqrt_limit n) 3) as [|d0 ds] eqn:Hds.
    { pose proof (build_divisors_length (sqrt_limit n) Hl) as [Hlen Hpos].
      rewrite Hds in Hlen. cbn [length Z.of_nat] in Hlen. lia. }
    reflexivity.
  - intros file W' N Hc. apply readConfig_configured in Hc. lia.
Qed.

Lemma nonpositive_workers_not_rejected_witness :
  isPrimeByDivisorThreads (fun _ => 0%nat) 15 0 = Fault DivideByZero.
Proof.
  assert (H1 : 0 <= 0) by lia.
  assert (H2 : 15 <= Long.LONG_MAX) by (vm_compute; discriminate).
  apply (nonpositive_workers_not_rejected (fun _ => 0%nat) 15 0 H1 H2);
    [lia | vm_compute; discriminate | reflexivity].
Defined.

(** ** The ranges of Scheme A *)

Lemma ladd_in_range (a b : Z) : Long.in_range (a + b) -> ladd a b = Ret (a + b).
Proof.
  intros [H1 H2]. unfold ladd, Long.in_rangeb.
  destruct (Z.leb_spec Long.LONG_MIN (a + b)); [|lia].
  destruct (Z.leb_spec (a + b) Long.LONG_MAX); [|lia]. reflexivity.
Qed.

Lemma long_bounds : Long.LONG_MIN < 0 /\ 0 < Long.LONG_MAX.
Proof. unfold Long.LONG_MIN, Long.LONG_MAX. lia. Qed.

Lemma assign_ranges_closed (N W rs : Z) :
  1 <= W -> 0 <= rs -> W * rs <= N -> N < Long.LONG_MAX ->
  forall i start, 0 <= i <= W -> (i < W -> start = 1 + i * rs) ->
  assign_ranges N W rs i start = Ret (map (range_at N W rs) (Zrange i (W - 1))).
Proof.
  intros HW Hrs Hfit HN i.
  remember (Z.to_nat (W - i)) as m eqn:Hm.
  revert i Hm. induction m as [|m IH]; intros i Hm start Hi Hstart;
    rewrite assign_ranges_eq.
  - destruct (Z.ltb_spec i W); [lia|]. now rewrite Zrange_empty by lia.
  - destruct (Z.ltb_spec i W) as [Hlt|]; [|lia].
    specialize (Hstart Hlt). subst start. cbv zeta.
    replace (1 + i * rs + rs - 1) with ((i + 1) * rs) by lia.
    set (stop := if i =? W - 1 then N else (i + 1) * rs).
    assert (Hstop : 0 <= stop <= N /\ (i + 1 < W -> stop + 1 = 1 + (i + 1) * rs)).
    { unfold stop. destruct (Z.eqb_spec i (W - 1)); nia. }
    pose proof long_bounds.
    rewrite ladd_in_range by (unfold Long.in_range; lia). cbn [bind].
    rewrite (IH (i + 1)) by lia. cbn [bind].
    rewrite (Zrange_cons i (W - 1)) by lia. cbn [map]. reflexivity.
Qed.

Lemma spans_of_ranges (N W rs : Z) : 1 <= W -> 0 <= rs -> W * rs <= N ->
  forall (k : nat) (i : Z), 0 <= i -> i + Z.of_nat k = W ->
  flat_map span (map (range_at N W rs) (Zseq i k)) =
  if i =? W then [] else Zrange (1 + i * rs) N.
Proof.
  intros HW Hrs Hfit. induction k as [|k IH]; intros i Hi Hk.
  - cbn. destruct (Z.eqb_spec i W); [reflexivity | lia].
  - rewrite Zseq_succ. cbn [map flat_map].
    destruct (Z.eqb_spec i W) as [|_]; [lia|].
    rewrite (IH (i + 1)) by lia.
    unfold span at 1, range_at at 1 2. cbn [rw_n rw_end].
    destruct (Z.eqb_spec i (W - 1)) as [E|E].
    + destruct (Z.eqb_spec (i + 1) W); [|lia]. now rewrite app_nil_r.
    + destruct (Z.eqb_spec (i + 1) W); [lia|].
      replace (1 + (i + 1) * rs) with ((i + 1) * rs + 1) by lia.
      symmetry. apply Zrange_split; nia.
Qed.

Lemma assignments_closed (N W : Z) : 1 <= W -> 0 <= N < Long.LONG_MAX ->
  assignments N W = Ret (map (range_at N W (N / W)) (Zrange 0 (W - 1))) /\
  0 <= N / W /\ W * (N / W) <= N.
Proof.
  intros HW HN. unfold assignments, ldiv.
  pose proof (Z.div_pos N W ltac:(lia) ltac:(lia)) as Hq0.
  pose proof (Z.mul_div_le N W ltac:(lia)) as Hq1.
  assert (Hq2 : N / W <= N) by (apply Z.div_le_upper_bound; nia).
  pose proof long_bounds.
  destruct (Z.eqb_spec W 0); [lia|].
  rewrite Z.quot_div_nonneg by lia.
  unfold Long.in_rangeb.
  destruct (Z.leb_spec Long.LONG_MIN (N / W)); [|lia].
  destruct (Z.leb_spec (N / W) Long.LONG_MAX); [|lia].
  cbn [andb bind]. split; [|lia].
  apply assign_ranges_closed; lia.
Qed.

Lemma NoDup_flat_map_disjoint {A B : Type} (f : A -> list B) (l : list A)
  (i j : nat) (a b : A) (x : B) :
  NoDup (flat_map f l) -> nth_error l i = Some a -> nth_error l j = Some b ->
  i <> j -> In x (f a) -> In x (f b) -> False.
Proof.
  assert (G : forall l i j a b, (i < j)%nat -> NoDup (flat_map f l) ->
              nth_error l i = Some a -> nth_error l j = Some b ->
              In x (f a) -> In x (f b) -> False).
  { clear. induction l as [|y l IH]; intros i j a b Hij Hnd Hi Hj Ha Hb.
    - destruct i; discriminate.
    - cbn [flat_map] in Hnd. destruct j as [|j]; [lia|]. cbn [nth_error] in Hj.
      destruct i as [|i].
      + inversion Hi; subst y.
        apply NoDup_app_remove_l in Hnd as Hnd'.
        assert (Hx : In x (flat_map f l)).
        { apply in_flat_map. exists b. split; [eapply nth_error_In; eauto | exact Hb]. }
        clear - Hnd Ha Hx. induction (f a) as [|z fa IHfa]; [destruct Ha|].
        cbn [app] in Hnd. inversion Hnd as [|? ? Hnotin Hrest]; subst.
        destruct Ha as [->|Ha].
        * apply Hnotin. apply in_or_app. right. exact Hx.
        * apply IHfa; assumption.
      + cbn [nth_error] in Hi. apply NoDup_app_remove_l in Hnd.
        eapply (IH i j); eauto. lia. }
  intros Hnd Hi Hj Hij Ha Hb.
  destruct (Nat.lt_trichotomy i j) as [H | [H | H]]; [|contradiction|].
  - eapply (G l i j a b); eauto.
  - eapply (G l j i b a); eauto.
Qed.

(** The ranges [main] assigns, and the numbers they hold, in order. *)
Lemma assignments_spans (N W : Z) : 1 <= W -> 1 < N < Long.LONG_MAX ->
  exists ws,
    assignments N W = Ret ws /\
    Z.of_nat (length ws) = W /\
    (forall i w, nth_error ws i = Some w ->
       rw_id w = Z.of_nat i /\ rw_n w = 1 + Z.of_nat i * (N / W) /\
       rw_end w = if Z.of_nat i =? W - 1 then N else (Z.of_nat i + 1) * (N / W)) /\
    flat_map span ws = Zrange 1 N.
Proof.
  intros HW HN.
  destruct (assignments_closed N W HW ltac:(lia)) as (Hws & Hrs & Hfit).
  set (rs := N / W) in *.
  exists (map (range_at N W rs) (Zrange 0 (W - 1))).
  split; [exact Hws|]. split; [|split].
  - rewrite length_map. unfold Zrange. rewrite Zseq_length. lia.
  - intros i w Hi. rewrite nth_error_map in Hi.
    destruct (nth_error (Zrange 0 (W - 1)) i) as [z|] eqn:Hz; [|discriminate].
    inversion Hi; subst w. clear Hi.
    assert (z = Z.of_nat i).
    { unfold Zrange, Zseq in Hz. rewrite nth_error_map in Hz.
      destruct (nth_error (seq 0 (Z.to_nat (W - 1 + 1 - 0))) i) as [k|] eqn:Hk;
        [|discriminate].
      apply nth_error_nth with (d := 0%nat) in Hk as Hk'.
      assert (i < length (seq 0 (Z.to_nat (W - 1 + 1 - 0))))%nat
        by (apply nth_error_Some; congruence).
      rewrite length_seq in *. rewrite seq_nth in Hk' by assumption.
      inversion Hz. lia. }
    subst z. unfold range_at. cbn [rw_id rw_n rw_end]. auto.
  - unfold Zrange at 1. replace (W - 1 + 1 - 0) with W by lia.
    rewrite (spans_of_ranges N W rs HW Hrs Hfit (Z.to_nat W) 0) by lia.
    destruct (Z.eqb_spec 0 W); [lia | reflexivity].
Qed.

(** At [N = LONG_MAX] the last [start = end + 1] of the assignment loop
    leaves the range of [long], and so would the [++n] of the worker of that
    range: the theorems on whole runs take [N] below [LONG_MAX]. *)
Example assignments_at_long_max :
  assignments Long.LONG_MAX 1 = Fault SignedOverflow.
Proof. vm_compute. reflexivity. Qed.

(** C4.  For every worker count [W >= 1] and bound [N > 1] (below
    [LONG_MAX], so that the loop's [start = end + 1] stays a [long]), the
    loop of [main] assigns [W] ranges: worker [i] gets the contiguous block
    that starts at [1 + i * (N / W)], of [N / W] numbers, the last worker's
    block ending at [N].  The blocks, in order, enumerate [[1, N]]: they are
    pairwise disjoint, their union is exactly [[1, N]], and when [W <= N]
    none of them is empty. *)
Theorem range_assignments_partition (N W : Z) :
  1 <= W -> 1 < N < Long.LONG_MAX ->
  exists ws,
    assignments N W = Ret ws /\
    Z.of_nat (length ws) = W /\
    (forall i w, nth_error ws i = Some w ->
       rw_id w = Z.of_nat i /\ rw_n w = 1 + Z.of_nat i * (N / W) /\
       rw_end w = if Z.of_nat i =? W - 1 then N else (Z.of_nat i + 1) * (N / W)) /\
    flat_map span ws = Zrange 1 N /\
    (forall x, (exists w, In w ws /\ rw_n w <= x <= rw_end w) <-> 1 <= x <= N) /\
    (forall i j a b, nth_error ws i = Some a -> nth_error ws j = Some b -> i <> j ->
       forall x, ~ (rw_n a <= x <= rw_end a /\ rw_n b <= x <= rw_end b)) /\
    (W <= N -> forall w, In w ws -> rw_n w <= rw_end w).
Proof.
  intros HW HN.
  destruct (assignments_spans N W HW HN) as (ws & Hws & Hlen & Hat & Hspan).
  exists ws. split; [exact Hws|]. split; [exact Hlen|]. split; [exact Hat|].
  split; [exact Hspan|]. split; [|split].
  - intros x. rewrite <- (In_Zrange 1 N x), <- Hspan, in_flat_map.
    unfold span. split; intros (w & Hw & Hx); exists w; (split; [exact Hw|]);
      apply In_Zrange; exact Hx.
  - intros i j a b Hi Hj Hij x [Ha Hb].
    apply (NoDup_flat_map_disjoint span _ i j a b x
             ltac:(rewrite Hspan; apply Zseq_NoDup) Hi Hj Hij);
      apply In_Zrange; assumption.
  - intros HWN w Hw. apply In_nth_error in Hw as [i Hi].
    destruct (Hat i w Hi) as (_ & -> & ->).
    assert (1 <= N / W) by (apply Z.div_le_lower_bound; lia).
    assert (Z.of_nat i < W).
    { assert (i < length ws)%nat by (apply nth_error_Some; congruence). lia. }
    pose proof (Z.mul_div_le N W ltac:(lia)).
    destruct (Z.eqb_spec (Z.of_nat i) (W - 1)); nia.
Qed.

Lemma range_assignments_partition_witness :
  exists ws, assignments 30 4 = Ret ws /\ flat_map span ws = Zrange 1 30.
Proof.
  assert (H1 : 1 <= 4) by lia.
  assert (H2 : 1 < 30 < Long.LONG_MAX) by (vm_compute; split; reflexivity).
  destruct (range_assignments_partition 30 4 H1 H2) as (ws & Hws & _ & _ & Hspan & _).
  exists ws. split; assumption.
Defined.

(** ** The runs of the two schemes *)

Lemma sink_primes_emit (p : bool) (id n : Z) (s : sink) :
  sink_primes p (emit p id n s) =
  sink_primes p s ++ (if isPrimeSingleThread n then [n] else []).
Proof.
  unfold emit, sink_primes. destruct (isPrimeSingleThread n).
  - destruct p; cbn [print push_back stdout g_collectedPrimes].
    + rewrite flat_map_app. reflexivity.
    + reflexivity.
  - now rewrite app_nil_r.
Qed.

Lemma sink_frame_emit (p : bool) (id n : Z) (s0 s : sink) :
  sink_frame p s0 s -> sink_frame p s0 (emit p id n s).
Proof.
  unfold sink_frame, emit. intros [H1 H2].
  destruct (isPrimeSingleThread n); [|auto].
  destruct p; cbn [print push_back stdout g_collectedPrimes spawned]; auto.
Qed.

Lemma flat_map_set_nth_perm {A B : Type} (f : A -> list B) (l : list A) (i : nat)
  (a a' : A) (x : list B) :
  nth_error l i = Some a -> f a = x ++ f a' ->
  Permutation (flat_map f l) (x ++ flat_map f (set_nth i a' l)).
Proof.
  revert i. induction l as [|y l IH]; intros [|i] Hi Hf; cbn [nth_error] in Hi;
    try discriminate; cbn [set_nth flat_map].
  - inversion Hi; subst y. rewrite Hf, app_assoc. reflexivity.
  - rewrite (IH i Hi Hf). rewrite !app_assoc.
    apply Permutation_app_tail. apply Permutation_app_comm.
Qed.

Lemma range_step_eq (p : bool) (s : sink) (w : range_worker) :
  1 <= rw_n w <= rw_end w -> rw_end w < Long.LONG_MAX ->
  workerRangeSchemeA p s w =
  Ret (emit p (rw_id w) (rw_n w) s,
       {| rw_id := rw_id w; rw_n := rw_n w + 1; rw_end := rw_end w |}).
Proof.
  intros Hn He. unfold workerRangeSchemeA. pose proof long_bounds.
  rewrite ladd_in_range by (unfold Long.in_range; lia). reflexivity.
Qed.

Lemma Forall_set_nth {A : Type} (P : A -> Prop) (l : list A) (i : nat) (x : A) :
  Forall P l -> P x -> Forall P (set_nth i x l).
Proof.
  intros H Hx. revert i. induction H as [|y l Hy H IH]; intros [|i];
    cbn [set_nth]; constructor; auto.
Qed.

Lemma range_inv_step (p : bool) (target : list Z) (s0 : sink) :
  forall a b, range_inv p target s0 a ->
  pool_step range_enabled (workerRangeSchemeA p) a b -> range_inv p target s0 b.
Proof.
  intros a b (Hperm & Hall & Hframe) Hstep.
  destruct Hstep as [s ws i w s' w' Hi He Hs]. cbn [fst snd] in *.
  pose proof (proj1 (Forall_forall _ _) Hall w (nth_error_In _ _ Hi)) as [Hn Hend].
  unfold range_enabled in He. apply Z.leb_le in He.
  rewrite range_step_eq in Hs by lia. inversion Hs; subst s' w'; clear Hs.
  split; [|split]; cbn [fst snd].
  - rewrite sink_primes_emit, <- app_assoc.
    rewrite <- Hperm. apply Permutation_app_head. symmetry.
    apply flat_map_set_nth_perm with (a := w); [exact Hi|].
    unfold pending, span. cbn [rw_n rw_end].
    rewrite (Zrange_cons (rw_n w)) by lia. cbn [filter].
    destruct (isPrimeSingleThread (rw_n w)); reflexivity.
  - apply Forall_set_nth; [exact Hall|]. cbn [rw_n rw_end]. lia.
  - apply sink_frame_emit. exact Hframe.
Qed.

Lemma range_inv_safe (p : bool) (target : list Z) (s0 : sink) :
  forall s ws i w, range_inv p target s0 (s, ws) -> nth_error ws i = Some w ->
  range_enabled w = true -> exists r, workerRangeSchemeA p s w = Ret r.
Proof.
  intros s ws i w (_ & Hall & _) Hi He. cbn [snd] in Hall.
  pose proof (proj1 (Forall_forall _ _) Hall w (nth_error_In _ _ Hi)) as [Hn Hend].
  unfold range_enabled in He. apply Z.leb_le in He.
  eexists. apply range_step_eq; lia.
Qed.

Lemma pending_returned (ws : list range_worker) :
  all_returned range_enabled ws -> flat_map pending ws = [].
Proof.
  induction 1 as [|w ws Hw Hws IH]; [reflexivity|].
  cbn [flat_map]. rewrite IH, app_nil_r.
  unfold range_enabled in Hw. apply Z.leb_gt in Hw.
  unfold pending, span. now rewrite Zrange_empty by lia.
Qed.

Lemma flat_map_filter {A B : Type} (f : B -> bool) (g : A -> list B) (l : list A) :
  flat_map (fun a => filter f (g a)) l = filter f (flat_map g l).
Proof.
  induction l as [|a l IH]; [reflexivity|].
  cbn [flat_map]. now rewrite filter_app, IH.
Qed.

(** Scheme A, whatever the interleaving of its threads: the joins complete
    and the sink has received the primes of [[1, N]], each once. *)
Lemma runSchemeA_primes (sched : nat -> nat) (N W : Z) (p : bool) (s : sink) :
  1 <= W -> 1 < N < Long.LONG_MAX ->
  exists s',
    runSchemeA sched N W p s = Ret s' /\
    Permutation (sink_primes p s')
                (sink_primes p s ++ filter isPrimeSingleThread (Zrange 1 N)) /\
    sink_frame p (count_spawned (Z.to_nat W) s) s'.
Proof.
  intros HW HN.
  destruct (assignments_spans N W HW HN) as (ws & Hws & Hlen & Hat & Hspan).
  unfold runSchemeA. rewrite Hws. cbn [bind].
  replace (length ws) with (Z.to_nat W) by lia.
  set (s1 := count_spawned (Z.to_nat W) s).
  set (target := sink_primes p s ++ filter isPrimeSingleThread (Zrange 1 N)).
  assert (Hinit : range_inv p target s1 (s1, ws)).
  { split; [|split]; cbn [fst snd].
    - unfold target, pending. rewrite flat_map_filter, Hspan.
      replace (sink_primes p s1) with (sink_primes p s); [reflexivity|].
      unfold sink_primes, s1. destruct p; reflexivity.
    - apply Forall_forall. intros w Hw. apply In_nth_error in Hw as [i Hi].
      destruct (Hat i w Hi) as (_ & -> & ->).
      assert (0 <= N / W) by (apply Z.div_pos; lia).
      pose proof (Z.mul_div_le N W ltac:(lia)).
      assert (Z.of_nat i < W).
      { assert (i < length ws)%nat by (apply nth_error_Some; congruence). lia. }
      destruct (Z.eqb_spec (Z.of_nat i) (W - 1)); nia.
    - unfold sink_frame. destruct p; auto. }
  unfold join_range_workers.
  destruct (run_returns range_enabled (workerRangeSchemeA p) range_size
              (range_step_decreases p) (range_inv p target s1)
              (range_inv_step p target s1) (range_inv_safe p target s1)
              sched 0%nat s1 ws Hinit)
    as (s' & ws' & -> & _ & Hret & (Hperm & _ & Hframe)).
  cbn [bind fst snd] in *. exists s'. split; [reflexivity|].
  rewrite (pending_returned ws' Hret), app_nil_r in Hperm.
  split; [exact Hperm | exact Hframe].
Qed.

(** Scheme B: the loop ends and the sink has received, in ascending order,
    the candidates of [[n, N]] that the oracle accepts. *)
Lemma runSchemeB_from_primes (sched : Z -> nat -> nat) (N W : Z) (p : bool) :
  1 <= W -> N < Long.LONG_MAX ->
  forall n s, Long.LONG_MIN <= n ->
  exists s',
    runSchemeB_from sched N W p n s = Ret s' /\
    sink_primes p s' = sink_primes p s ++ filter isPrimeSingleThread (Zrange n N) /\
    (if p then g_collectedPrimes s' = g_collectedPrimes s
     else stdout s' = stdout s).
Proof.
  intros HW HN n. remember (Z.to_nat (N + 1 - n)) as m eqn:Hm.
  revert n Hm. induction m as [|m IH]; intros n Hm s Hn; rewrite runSchemeB_from_eq.
  - destruct (Z.leb_spec n N); [lia|]. exists s. rewrite Zrange_empty by lia.
    rewrite app_nil_r. split; [reflexivity|]. split; [reflexivity|].
    destruct p; reflexivity.
  - destruct (Z.leb_spec n N) as [Hle|]; [|lia].
    rewrite isPrimeByDivisorThreads_oracle by lia. cbn [bind]. cbv zeta.
    unfold Long.in_rangeb.
    destruct (Z.leb_spec Long.LONG_MIN (n + 1)); [|lia].
    destruct (Z.leb_spec (n + 1) Long.LONG_MAX); [|lia]. cbn [andb].
    set (s1 := count_spawned (div_threads n W) s).
    match goal with |- context [runSchemeB_from _ _ _ _ _ ?x] => set (s2 := x) end.
    destruct (IH (n + 1) ltac:(lia) s2 ltac:(lia)) as (s' & -> & Hp & Hf).
    exists s'. split; [reflexivity|].
    assert (Hs2 : sink_primes p s2 =
                  sink_primes p s ++ (if isPrimeSingleThread n then [n] else [])
                  /\ (if p then g_collectedPrimes s2 = g_collectedPrimes s
                      else stdout s2 = stdout s)).
    { unfold s2, s1, sink_primes.
      destruct (isPrimeSingleThread n), p;
        cbn [print push_back count_spawned stdout g_collectedPrimes];
        rewrite ?flat_map_app, ?app_nil_r; auto. }
    destruct Hs2 as [Hs2 Hf2]. split.
    + rewrite Hp, Hs2, <- app_assoc. f_equal.
      rewrite (Zrange_cons n N) by lia. cbn [filter].
      destruct (isPrimeSingleThread n); reflexivity.
    + destruct p; congruence.
Qed.

(** ** The whole run *)

Lemma read_choice_selected (input : list Z) :
  forall out err, exists out' err',
    read_choice input out err = (out', err', selected input) /\
    flat_map primes_of_line out' = flat_map primes_of_line out.
Proof.
  induction input as [|c input IH]; intros out err; cbn [read_choice selected find].
  - exists (out ++ [Menu]), err. split; [reflexivity|].
    rewrite flat_map_app. cbn. now rewrite app_nil_r.
  - destruct ((c <? 1) || (c >? 4)); cbn [negb].
    + destruct (IH (out ++ [Menu])
                  (err ++ ["Invalid choice. Please enter a number between 1 and 4."%string]))
        as (out' & err' & Hr & Hp).
      exists out', err'. split; [exact Hr|].
      rewrite Hp, flat_map_app. cbn. now rewrite app_nil_r.
    + exists (out ++ [Menu]), err. split; [reflexivity|].
      rewrite flat_map_app. cbn. now rewrite app_nil_r.
Qed.

Lemma selected_valid (input : list Z) (c : Z) :
  selected input = Some c -> c = 1 \/ c = 2 \/ c = 3 \/ c = 4.
Proof.
  unfold selected. intros H. apply find_some in H as [_ H].
  apply negb_true_iff, orb_false_iff in H as [H1 H2].
  apply Z.ltb_ge in H1. rewrite Z.gtb_ltb in H2. apply Z.ltb_ge in H2. lia.
Qed.

Lemma oracle_filter_ref (N : Z) : N <= Long.LONG_MAX ->
  filter isPrimeSingleThread (Zrange 1 N) = primes_ref N.
Proof.
  intros HN. unfold primes_ref. apply filter_ext_in.
  intros x Hx. apply In_Zrange in Hx. apply isPrimeSingleThread_ref. lia.
Qed.

Lemma oracle_filter_from_two (N : Z) : 1 <= N ->
  filter isPrimeSingleThread (Zrange 2 N) = filter isPrimeSingleThread (Zrange 1 N).
Proof. intros HN. rewrite (Zrange_cons 1 N) by lia. reflexivity. Qed.

Lemma primes_ref_spec (N x : Z) : In x (primes_ref N) <-> 1 <= x <= N /\ Z.prime x.
Proof.
  unfold primes_ref. rewrite filter_In, In_Zrange, prime_ref_prime. reflexivity.
Qed.

Lemma primes_ref_sorted (N : Z) : StronglySorted Z.lt (primes_ref N).
Proof.
  unfold primes_ref, Zrange. generalize (Zseq_sorted 1 (Z.to_nat (N + 1 - 1))).
  generalize (Zseq 1 (Z.to_nat (N + 1 - 1))) as l.
  induction l as [|x l IH]; intros Hs; cbn [filter]; [constructor|].
  inversion Hs as [|? ? Hl Hx]; subst.
  destruct (prime_ref x); [|auto].
  constructor; [auto|].
  apply Forall_forall. intros y Hy. apply filter_In in Hy as [Hy _].
  exact (proj1 (Forall_forall _ _) Hx y Hy).
Qed.

Lemma primes_ref_NoDup (N : Z) : NoDup (primes_ref N).
Proof. apply NoDup_filter, Zseq_NoDup. Qed.

(** A sorted list is determined by its elements. *)
Lemma sorted_perm_eq (l1 l2 : list Z) :
  StronglySorted Z.lt l1 -> StronglySorted Z.lt l2 -> Permutation l1 l2 -> l1 = l2.
Proof.
  revert l2. induction l1 as [|x l1 IH]; intros l2 H1 H2 Hp.
  - apply Permutation_nil in Hp. now subst.
  - destruct l2 as [|y l2]; [apply Permutation_sym, Permutation_nil in Hp; discriminate|].
    inversion H1 as [|? ? Hs1 Hx]; subst. inversion H2 as [|? ? Hs2 Hy]; subst.
    assert (x = y).
    { assert (Hin1 : In x (y :: l2)) by (eapply Permutation_in; [exact Hp | now left]).
      assert (Hin2 : In y (x :: l1))
        by (eapply Permutation_in; [symmetry; exact Hp | now left]).
      destruct Hin1 as [->|Hin1]; [reflexivity|].
      destruct Hin2 as [->|Hin2]; [reflexivity|].
      pose proof (proj1 (Forall_forall _ _) Hy x Hin1).
      pose proof (proj1 (Forall_forall _ _) Hx y Hin2). lia. }
    subst y. f_equal. apply IH; auto. eapply Permutation_cons_inv; eauto.
Qed.

Lemma std_sort_sorted (v : list Z) : StronglySorted Z.le (std_sort v).
Proof.
  unfold std_sort.
  assert (Ht : Relations_1.Transitive (fun x y => is_true (ZLeb.leb x y))).
  { intros x y z Hxy Hyz. unfold is_true, ZLeb.leb in *.
    apply Z.leb_le in Hxy, Hyz. apply Z.leb_le. lia. }
  pose proof (ZSort.StronglySorted_sort v Ht) as Hs.
  induction Hs as [|x l Hl IH Hx]; constructor; [exact IH|].
  eapply Forall_impl; [|exact Hx]. intros y Hy. apply Z.leb_le. exact Hy.
Qed.

Lemma std_sort_perm (v : list Z) : Permutation v (std_sort v).
Proof. apply ZSort.Permuted_sort. Qed.

Lemma sorted_strict (l : list Z) : StronglySorted Z.le l -> NoDup l ->
  StronglySorted Z.lt l.
Proof.
  induction 1 as [|x l Hl IH Hx]; intros Hnd; [constructor|].
  inversion Hnd as [|? ? Hnotin Hnd']; subst. constructor; [auto|].
  apply Forall_forall. intros y Hy.
  pose proof (proj1 (Forall_forall _ _) Hx y Hy).
  assert (x <> y) by (intros ->; contradiction). lia.
Qed.

(** Sorting a permutation of the primes of [[1, N]] gives their ascending
    list. *)
Lemma std_sort_primes (N : Z) (v : list Z) :
  Permutation v (primes_ref N) -> std_sort v = primes_ref N.
Proof.
  intros Hp. apply sorted_perm_eq.
  - apply sorted_strict; [apply std_sort_sorted|].
    eapply Permutation_NoDup; [|apply primes_ref_NoDup].
    rewrite <- std_sort_perm. symmetry. exact Hp.
  - apply primes_ref_sorted.
  - rewrite <- std_sort_perm. exact Hp.
Qed.

(** The run after a valid configuration, with a worker count that
    [threadsA.reserve] accepts, and a valid choice [c]: it ends with
    status 0; in immediate mode the [Found prime] lines carry a permutation
    of the primes of [[1, N]]; in deferred mode the only primes printed are
    those of the final list, which is their ascending list. *)
Lemma orchestrate_run (W N : Z) (input : list Z) (sc : schedulers) (c : Z) :
  1 <= W <= max_size -> 1 < N < Long.LONG_MAX -> selected input = Some c ->
  exists out err k,
    orchestrate W N input sc = Ret (Exited 0 out err k) /\
    if (c =? 1) || (c =? 3)
    then Permutation (flat_map primes_of_line out) (primes_ref N)
    else exists pre,
           out = pre ++ [PrimesFound (primes_ref N); RunEnded; Elapsed] /\
           flat_map primes_of_line pre = [].
Proof.
  intros [HW HWmax] HN Hsel. unfold orchestrate.
  destruct (read_choice_selected input [ConfigSays W N] [])
    as (out0 & err & -> & Hout0).
  rewrite Hsel. cbn [flat_map primes_of_line app] in Hout0.
  rewrite reserve_accepts by lia. cbn [bind].
  set (p := (c =? 1) || (c =? 3)).
  set (s0 := {| stdout := out0 ++ [RunStarted]; g_collectedPrimes := [];
                spawned := 0 |}).
  assert (Hs0 : sink_primes p s0 = []).
  { unfold sink_primes, s0. destruct p; cbn [stdout g_collectedPrimes]; [|reflexivity].
    rewrite flat_map_app, Hout0. reflexivity. }
  assert (Hrun : exists s',
             (if (c =? 1) || (c =? 2)
              then runSchemeA (schedA sc) N W p s0
              else runSchemeB (schedB sc) N W p s0) = Ret s' /\
             Permutation (sink_primes p s') (primes_ref N) /\
             (if p then True else stdout s' = stdout s0)).
  { destruct ((c =? 1) || (c =? 2)).
    - destruct (runSchemeA_primes (schedA sc) N W p s0 HW HN)
        as (s' & Hr & Hperm & Hframe & _).
      exists s'. split; [exact Hr|]. split.
      + rewrite Hperm, Hs0, oracle_filter_ref by lia. reflexivity.
      + destruct p; [exact I | exact Hframe].
    - pose proof long_bounds.
      destruct (runSchemeB_from_primes (schedB sc) N W p HW ltac:(lia) 2 s0 ltac:(lia))
        as (s' & Hr & Hperm & Hframe).
      exists s'. split; [exact Hr|]. split.
      + rewrite Hperm, Hs0, oracle_filter_from_two, oracle_filter_ref by lia.
        reflexivity.
      + destruct p; [exact I | exact Hframe]. }
  destruct Hrun as (s' & Hr & Hperm & Hframe).
  assert (Hfinish : exists out k,
             finish p err s' = Exited 0 out err k /\
             if p then Permutation (flat_map primes_of_line out) (primes_ref N)
             else exists pre,
                    out = pre ++ [PrimesFound (primes_ref N); RunEnded; Elapsed] /\
                    flat_map primes_of_line pre = []).
  { unfold finish. destruct p eqn:Hp.
    - eexists _, _. split; [reflexivity|].
      rewrite flat_map_app. cbn [flat_map primes_of_line app].
      rewrite app_nil_r. exact Hperm.
    - eexists _, _. split; [reflexivity|].
      exists (stdout s'). unfold sink_primes in Hperm.
      cbn [print stdout]. rewrite (std_sort_primes N _ Hperm), <- app_assoc.
      split; [reflexivity|].
      rewrite Hframe. unfold s0. cbn [stdout].
      rewrite flat_map_app, Hout0. reflexivity. }
  destruct Hfinish as (out & k & Hfin & Hprop).
  exists out, err, k. split; [|exact Hprop].
  destruct (selected_valid input c Hsel) as [-> | [-> | [-> | ->]]];
    cbn [Z.eqb Pos.eqb orb] in *; rewrite Hr; cbn [bind]; rewrite <- Hfin; reflexivity.
Qed.

(** A worker count above [max_size]: [threadsA.reserve] throws, after the
    start of the run is printed and before any thread is created, whatever
    the choice. *)
Lemma orchestrate_too_many_threads (W N : Z) (input : list Z) (sc : schedulers)
  (c : Z) :
  max_size < W -> selected input = Some c ->
  orchestrate W N input sc = Fault LengthError.
Proof.
  intros HW Hsel. unfold orchestrate.
  destruct (read_choice_selected input [ConfigSays W N] []) as (out0 & err & -> & _).
  rewrite Hsel. rewrite reserve_refuses by lia. reflexivity.
Qed.

(** C1, as stated, fails: the worker count [2 ^ 60], which [readConfig]
    accepts, is above [max_size]; [threadsA.reserve] throws
    [std::length_error] and the run ends without reporting any of the primes
    of [[1, 30]]. *)
Lemma too_many_threads_abort :
  readConfig "config.txt" (Some config_with_too_many_threads) 0 0
  = Configured (max_size + 1) 30 /\
  main (Some config_with_too_many_threads) [1] round_robin = Fault LengthError /\
  main (Some config_with_too_many_threads) [4] round_robin = Fault LengthError /\
  primes_ref 30 <> [].
Proof.
  split; [vm_compute; reflexivity|]. split; [vm_compute; reflexivity|].
  split; [vm_compute; reflexivity | vm_compute; discriminate].
Qed.

(** C1, amended.  For every bound [N >= 2] (below [LONG_MAX], so that the
    loop counters stay in [long]) and every worker count [W] with
    [1 <= W <= max_size], under either partition scheme and either sink
    mode (any valid choice [c] of the menu), and whatever the interleaving
    of the threads, the run ends with status 0 and the primes it reports are
    those of the trial-division reference for [[1, N]]: each of them once,
    no other number.  For a worker count above [max_size] the run ends in
    the [std::length_error] of [threadsA.reserve] and reports nothing. *)
Theorem reported_primes_exact (W N : Z) (input : list Z) (sc : schedulers) (c : Z) :
  1 <= W -> 2 <= N < Long.LONG_MAX -> selected input = Some c ->
  (W <= max_size ->
   exists proc out err k,
    proc = Exited 0 out err k /\
    orchestrate W N input sc = Ret proc /\
    (forall file, readConfig "config.txt" file 0 0 = Configured W N ->
       main file input sc = Ret proc) /\
    Permutation (reported proc) (primes_ref N) /\
    NoDup (reported proc) /\
    (forall x, In x (reported proc) <-> 1 <= x <= N /\ Z.prime x)) /\
  (max_size < W ->
   orchestrate W N input sc = Fault LengthError /\
   (forall file, readConfig "config.txt" file 0 0 = Configured W N ->
      main file input sc = Fault LengthError)).
Proof.
  intros HW HN Hsel. split.
  - intros HWmax.
    destruct (orchestrate_run W N input sc c ltac:(lia) ltac:(lia) Hsel)
      as (out & err & k & Hrun & Hout).
    assert (Hperm : Permutation (flat_map primes_of_line out) (primes_ref N)).
    { destruct ((c =? 1) || (c =? 3)); [exact Hout|].
      destruct Hout as (pre & -> & Hpre).
      rewrite flat_map_app, Hpre. cbn [flat_map primes_of_line app].
      rewrite !app_nil_r. reflexivity. }
    exists (Exited 0 out err k), out, err, k.
    split; [reflexivity|]. split; [exact Hrun|]. split; [|split; [|split]].
    + intros file Hcfg. unfold main. rewrite Hcfg. exact Hrun.
    + exact Hperm.
    + eapply Permutation_NoDup; [symmetry; exact Hperm | apply primes_ref_NoDup].
    + intros x. rewrite <- primes_ref_spec. cbn [reported].
      split; apply Permutation_in; [exact Hperm | symmetry; exact Hperm].
  - intros HWbig.
    pose proof (orchestrate_too_many_threads W N input sc c HWbig Hsel) as Hf.
    split; [exact Hf|].
    intros file Hcfg. unfold main. rewrite Hcfg. exact Hf.
Qed.

Lemma reported_primes_exact_witness :
  exists proc out err k,
    proc = Exited 0 out err k /\
    orchestrate 4 30 [7; 1] round_robin = Ret proc /\
    Permutation (reported proc) (primes_ref 30).
Proof.
  assert (H1 : 1 <= 4) by lia.
  assert (H2 : 2 <= 30 < Long.LONG_MAX) by (vm_compute; split; [discriminate | reflexivity]).
  assert (H3 : selected [7; 1] = Some 1) by reflexivity.
  assert (H4 : 4 <= max_size) by (vm_compute; discriminate).
  destruct (proj1 (reported_primes_exact 4 30 [7; 1] round_robin 1 H1 H2 H3) H4)
    as (proc & out & err & k & Hp & Hrun & _ & Hperm & _).
  exists proc, out, err, k. auto.
Defined.

(** C6.  In deferred mode the run prints the primes once, as one list, and
    that list is sorted ascending, holds no value twice, and has the same
    elements as the primes that immediate mode prints for the same scheme,
    [N] and [W], whatever the interleavings of the two runs.  This covers
    every worker count [W >= 1]: up to [max_size] both runs complete and the
    list is as said; above it both runs end in the [std::length_error] of
    [threadsA.reserve], and neither mode prints a prime. *)
Theorem deferred_output_sorted (W N : Z) (schemeA : bool)
  (input_now input_later : list Z) (sc_now sc_later : schedulers) :
  1 <= W -> 2 <= N < Long.LONG_MAX ->
  selected input_now = Some (if schemeA then 1 else 3) ->
  selected input_later = Some (if schemeA then 2 else 4) ->
  (W <= max_size ->
   exists out_now err_now k_now pre ps err_later k_later,
    orchestrate W N input_now sc_now = Ret (Exited 0 out_now err_now k_now) /\
    orchestrate W N input_later sc_later
    = Ret (Exited 0 (pre ++ [PrimesFound ps; RunEnded; Elapsed]) err_later k_later) /\
    flat_map primes_of_line pre = [] /\
    StronglySorted Z.lt ps /\
    NoDup ps /\
    (forall x, In x ps <-> In x (flat_map primes_of_line out_now))) /\
  (max_size < W ->
   orchestrate W N input_now sc_now = Fault LengthError /\
   orchestrate W N input_later sc_later = Fault LengthError).
Proof.
  intros HW HN Hnow Hlater. split.
  - intros HWmax.
    destruct (orchestrate_run W N input_now sc_now _ ltac:(lia) ltac:(lia) Hnow)
      as (out1 & err1 & k1 & Hrun1 & Hout1).
    destruct (orchestrate_run W N input_later sc_later _ ltac:(lia) ltac:(lia) Hlater)
      as (out2 & err2 & k2 & Hrun2 & Hout2).
    assert (Hp1 : Permutation (flat_map primes_of_line out1) (primes_ref N))
      by (destruct schemeA; exact Hout1).
    assert (Hp2 : exists pre,
              out2 = pre ++ [PrimesFound (primes_ref N); RunEnded; Elapsed] /\
              flat_map primes_of_line pre = [])
      by (destruct schemeA; exact Hout2).
    destruct Hp2 as (pre & -> & Hpre).
    exists out1, err1, k1, pre, (primes_ref N), err2, k2.
    split; [exact Hrun1|]. split; [exact Hrun2|]. split; [exact Hpre|].
    split; [apply primes_ref_sorted|]. split; [apply primes_ref_NoDup|].
    intros x. split; apply Permutation_in; [symmetry; exact Hp1 | exact Hp1].
  - intros HWbig. split; eapply orchestrate_too_many_threads; eauto.
Qed.

Lemma deferred_output_sorted_witness :
  exists out_now err_now k_now pre ps err_later k_later,
    orchestrate 4 30 [1] round_robin = Ret (Exited 0 out_now err_now k_now) /\
    orchestrate 4 30 [2] round_robin
    = Ret (Exited 0 (pre ++ [PrimesFound ps; RunEnded; Elapsed]) err_later k_later) /\
    StronglySorted Z.lt ps.
Proof.
  assert (H1 : 1 <= 4) by lia.
  assert (H2 : 2 <= 30 < Long.LONG_MAX) by (vm_compute; split; [discriminate | reflexivity]).
  assert (H4 : 4 <= max_size) by (vm_compute; discriminate).
  destruct (proj1 (deferred_output_sorted 4 30 true [1] [2] round_robin round_robin
                     H1 H2 eq_refl eq_refl) H4)
    as (o & e & k & pre & ps & e' & k' & Ha & Hb & _ & Hs & _).
  exists o, e, k, pre, ps, e', k'. auto.
Defined.

(** * Further properties of the code *)

(** ** [readConfig]: when it exits, what it reports, what it returns *)

Lemma read_lines_exit_cause (lines : list string) :
  forall threads maxNumber threadsSet maxNumberSet status diagnostic,
  read_lines lines threads maxNumber threadsSet maxNumberSet
  = ConfigExit status diagnostic ->
  status = 1 /\
  (Exists bad_line lines \/
   (threadsSet = false /\ ~ has_key "threads=" lines) \/
   (maxNumberSet = false /\ ~ has_key "maxNumber=" lines)).
Proof.
  induction lines as [|line rest IH]; intros t m ts ms st d; cbn [read_lines].
  - destruct ts, ms; cbn [negb orb]; intros H; inversion H; subst;
      (split; [reflexivity|]); unfold has_key;
      try (right; left; split; [reflexivity | intros E; inversion E]);
      right; right; (split; [reflexivity | intros E; inversion E]).
  - unfold has_key in *.
    destruct (String.prefix "threads=" line) eqn:Pt.
    + pose proof (bad_line_threads line Pt) as Hbad. unfold refused in Hbad.
      destruct (stol (substr 8 line)) as [v|f]; cbn [bind].
      * destruct (Z.leb_spec v 0) as [Hle|Hgt].
        -- intros H; inversion H; subst. split; [reflexivity|].
           left. constructor. apply Hbad. exact Hle.
        -- intros H. apply IH in H as [Hst H]. split; [exact Hst|].
           destruct H as [H | [[Hf _] | [Hms H]]]; [| discriminate |].
           ++ left. apply Exists_cons_tl. exact H.
           ++ right. right. split; [exact Hms|]. intros E. apply H.
              inversion E as [? ? Hl | ? ? Hr]; subst; [|exact Hr].
              rewrite (keys_exclusive line Pt) in Hl. discriminate.
      * intros H; inversion H; subst. split; [reflexivity|].
        left. constructor. apply Hbad. exact I.
    + destruct (String.prefix "maxNumber=" line) eqn:Pm.
      * pose proof (bad_line_maxNumber line Pt Pm) as Hbad. unfold refused in Hbad.
        destruct (stol (substr 10 line)) as [v|f]; cbn [bind].
        -- destruct (Z.leb_spec v 1) as [Hle|Hgt].
           ++ intros H; inversion H; subst. split; [reflexivity|].
              left. constructor. apply Hbad. exact Hle.
           ++ intros H. apply IH in H as [Hst H]. split; [exact Hst|].
              destruct H as [H | [[Hts H] | [Hf _]]]; [| | discriminate].
              ** left. apply Exists_cons_tl. exact H.
              ** right. left. split; [exact Hts|]. intros E. apply H.
                 inversion E as [? ? Hl | ? ? Hr]; subst; [|exact Hr].
                 rewrite Pt in Hl. discriminate.
        -- intros H; inversion H; subst. split; [reflexivity|].
           left. constructor. apply Hbad. exact I.
      * intros H. apply IH in H as [Hst H]. split; [exact Hst|].
        destruct H as [H | [[Hts H] | [Hms H]]].
        -- left. apply Exists_cons_tl. exact H.
        -- right. left. split; [exact Hts|]. intros E. apply H.
           inversion E as [? ? Hl | ? ? Hr]; subst; [|exact Hr].
           rewrite Pt in Hl. discriminate.
        -- right. right. split; [exact Hms|]. intros E. apply H.
           inversion E as [? ? Hl | ? ? Hr]; subst; [|exact Hr].
           rewrite Pm in Hl. discriminate.
Qed.

(** X1.  [readConfig] never exits with a status other than 1, and it exits
    exactly when the file cannot be opened, or some line that starts with a
    key carries a value it refuses, or no line starts with [threads=], or
    none starts with [maxNumber=]. *)
Theorem readConfig_exits_exactly (file : option string) :
  (forall status diagnostic,
     readConfig "config.txt" file 0 0 = ConfigExit status diagnostic -> status = 1) /\
  ((exists diagnostic, readConfig "config.txt" file 0 0 = ConfigExit 1 diagnostic) <->
   (file = None \/
    exists content, file = Some content /\
      (Exists bad_line (getlines content) \/
       ~ has_key "threads=" (getlines content) \/
       ~ has_key "maxNumber=" (getlines content)))).
Proof.
  split.
  - intros st d. destruct file as [content|]; cbn [readConfig].
    + intros H. apply read_lines_exit_cause in H. tauto.
    + intros H; inversion H; reflexivity.
  - split.
    + intros [d Hd]. destruct file as [content|]; [|now left].
      right. exists content. split; [reflexivity|].
      cbn [readConfig] in Hd. apply read_lines_exit_cause in Hd. tauto.
    + intros [-> | (content & -> & H)]; cbn [readConfig]; [eauto|].
      apply read_lines_exits. tauto.
Qed.

Lemma has_key_cons (key line : string) (rest : list string) :
  has_key key (line :: rest) <-> String.prefix key line = true \/ has_key key rest.
Proof. unfold has_key. apply Exists_cons. Qed.

Lemma last_with_key_cons (key line x : string) (rest : list string) :
  last_with_key key rest x -> last_with_key key (line :: rest) x.
Proof.
  intros (pre & post & -> & Hk & Hpost).
  exists (line :: pre), post. auto.
Qed.

Lemma last_with_key_head (key line : string) (rest : list string) :
  String.prefix key line = true -> ~ has_key key rest ->
  last_with_key key (line :: rest) line.
Proof. intros Hk Hr. exists [], rest. auto. Qed.

(** The values [readConfig] returns are those of the last line of each key;
    a value set before the loop survives only when no line has the key. *)
Lemma read_lines_values (lines : list string) :
  forall threads maxNumber threadsSet maxNumberSet W N,
  read_lines lines threads maxNumber threadsSet maxNumberSet = Configured W N ->
  ((exists line, last_with_key "threads=" lines line /\ stol (substr 8 line) = Ret W)
   \/ (~ has_key "threads=" lines /\ threadsSet = true /\ W = threads)) /\
  ((exists line, last_with_key "maxNumber=" lines line /\ stol (substr 10 line) = Ret N)
   \/ (~ has_key "maxNumber=" lines /\ maxNumberSet = true /\ N = maxNumber)).
Proof.
  induction lines as [|line rest IH]; intros t m ts ms W N; cbn [read_lines].
  - destruct ts, ms; cbn [negb orb]; try discriminate.
    intros H; inversion H; subst.
    split; right; (split; [intros E; inversion E | auto]).
  - destruct (String.prefix "threads=" line) eqn:Pt.
    + destruct (stol (substr 8 line)) as [v|f] eqn:Hv; cbn [bind]; [|discriminate].
      destruct (Z.leb_spec v 0) as [Hle|Hgt]; [discriminate|].
      intros H. apply IH in H as [HW HN]. split.
      * left. destruct HW as [(x & Hx & Hs) | (Hno & _ & ->)].
        -- exists x. split; [apply last_with_key_cons; exact Hx | exact Hs].
        -- exists line. split; [apply last_with_key_head; assumption | exact Hv].
      * destruct HN as [(x & Hx & Hs) | (Hno & Hms & ->)].
        -- left. exists x. split; [apply last_with_key_cons; exact Hx | exact Hs].
        -- right. split; [|auto]. rewrite has_key_cons.
           rewrite (keys_exclusive line Pt). intros [E|E]; [discriminate | auto].
    + destruct (String.prefix "maxNumber=" line) eqn:Pm.
      * destruct (stol (substr 10 line)) as [v|f] eqn:Hv; cbn [bind]; [|discriminate].
        destruct (Z.leb_spec v 1) as [Hle|Hgt]; [discriminate|].
        intros H. apply IH in H as [HW HN]. split.
        -- destruct HW as [(x & Hx & Hs) | (Hno & Hts & ->)].
           ++ left. exists x. split; [apply last_with_key_cons; exact Hx | exact Hs].
           ++ right. split; [|auto]. rewrite has_key_cons, Pt.
              intros [E|E]; [discriminate | auto].
        -- left. destruct HN as [(x & Hx & Hs) | (Hno & _ & ->)].
           ++ exists x. split; [apply last_with_key_cons; exact Hx | exact Hs].
           ++ exists line. split; [apply last_with_key_head; assumption | exact Hv].
      * intros H. apply IH in H as [HW HN]. split.
        -- destruct HW as [(x & Hx & Hs) | (Hno & Hts & ->)].
           ++ left. exists x. split; [apply last_with_key_cons; exact Hx | exact Hs].
           ++ right. split; [|auto]. rewrite has_key_cons, Pt.
              intros [E|E]; [discriminate | auto].
        -- destruct HN as [(x & Hx & Hs) | (Hno & Hms & ->)].
           ++ left. exists x. split; [apply last_with_key_cons; exact Hx | exact Hs].
           ++ right. split; [|auto]. rewrite has_key_cons, Pm.
              intros [E|E]; [discriminate | auto].
Qed.

Lemma read_lines_settings_only (lines : list string) :
  forall threads maxNumber threadsSet maxNumberSet,
  read_lines (filter is_setting lines) threads maxNumber threadsSet maxNumberSet
  = read_lines lines threads maxNumber threadsSet maxNumberSet.
Proof.
  induction lines as [|line rest IH]; intros t m ts ms; [reflexivity|].
  cbn [filter]. unfold is_setting at 1.
  destruct (String.prefix "threads=" line) eqn:Pt; cbn [orb].
  - cbn [read_lines]. rewrite Pt.
    destruct (v <- stol (substr 8 line) ;; (if v <=? 0 then Fault InvalidArgument else Ret v));
      [apply IH | reflexivity].
  - destruct (String.prefix "maxNumber=" line) eqn:Pm.
    + cbn [read_lines]. rewrite Pt, Pm.
      destruct (v <- stol (substr 10 line) ;; (if v <=? 1 then Fault InvalidArgument else Ret v));
        [apply IH | reflexivity].
    + cbn [read_lines]. rewrite Pt, Pm. apply IH.
Qed.

(** X2.  When [readConfig] returns, the worker count is the integer
    [std::stol] reads on the last line that starts with [threads=] and the
    bound the one it reads on the last line that starts with [maxNumber=]:
    a later line of a key overrides the earlier ones.  The lines that start
    with neither key (blank lines, comments, other keys) have no effect on
    the result, wherever they stand. *)
Theorem readConfig_last_setting_wins (content : string) :
  (forall W N,
     readConfig "config.txt" (Some content) 0 0 = Configured W N ->
     (exists line, last_with_key "threads=" (getlines content) line /\
                   stol (substr 8 line) = Ret W) /\
     (exists line, last_with_key "maxNumber=" (getlines content) line /\
                   stol (substr 10 line) = Ret N)) /\
  read_lines (filter is_setting (getlines content)) 0 0 false false
  = readConfig "config.txt" (Some content) 0 0.
Proof.
  split; [|apply read_lines_settings_only].
  intros W N H. cbn [readConfig] in H.
  apply read_lines_values in H as [HW HN]. split.
  - destruct HW as [HW | (_ & Hf & _)]; [exact HW | discriminate].
  - destruct HN as [HN | (_ & Hf & _)]; [exact HN | discriminate].
Qed.

(** The loop passes over lines it does not refuse, and exits on the first
    line it refuses with the message of that line. *)
Lemma read_lines_first_refused (pre : list string) (line : string) (post : list string) :
  ~ Exists bad_line pre -> bad_line line ->
  forall threads maxNumber threadsSet maxNumberSet,
  read_lines (pre ++ line :: post) threads maxNumber threadsSet maxNumberSet
  = ConfigExit 1 (diagnostic_of line).
Proof.
  intros Hpre Hbad. induction pre as [|l pre IH]; intros t m ts ms.
  - cbn [app read_lines]. unfold diagnostic_of.
    destruct (String.prefix "threads=" line) eqn:Pt.
    + apply (bad_line_threads line Pt) in Hbad. unfold refused in Hbad.
      destruct (stol (substr 8 line)) as [v|f]; cbn [bind]; [|reflexivity].
      destruct (Z.leb_spec v 0); [reflexivity | lia].
    + destruct (String.prefix "maxNumber=" line) eqn:Pm.
      * apply (bad_line_maxNumber line Pt Pm) in Hbad. unfold refused in Hbad.
        destruct (stol (substr 10 line)) as [v|f]; cbn [bind]; [|reflexivity].
        destruct (Z.leb_spec v 1); [reflexivity | lia].
      * exfalso. eapply bad_line_other; eauto.
  - assert (Hl : ~ bad_line l) by (intros E; apply Hpre; now constructor).
    assert (Hp : ~ Exists bad_line pre) by (intros E; apply Hpre; now apply Exists_cons_tl).
    specialize (IH Hp). cbn [app read_lines].
    destruct (String.prefix "threads=" l) eqn:Pt.
    + rewrite (bad_line_threads l Pt) in Hl. unfold refused in Hl.
      destruct (stol (substr 8 l)) as [v|f]; cbn [bind]; [|tauto].
      destruct (Z.leb_spec v 0); [lia | apply IH].
    + destruct (String.prefix "maxNumber=" l) eqn:Pm.
      * rewrite (bad_line_maxNumber l Pt Pm) in Hl. unfold refused in Hl.
        destruct (stol (substr 10 l)) as [v|f]; cbn [bind]; [|tauto].
        destruct (Z.leb_spec v 1); [lia | apply IH].
      * apply IH.
Qed.

Lemma read_lines_none_refused (lines : list string) :
  ~ Exists bad_line lines ->
  forall threads maxNumber threadsSet maxNumberSet,
  read_lines lines threads maxNumber threadsSet maxNumberSet
  = ConfigExit 1 "Config file is missing 'threads=' or 'maxNumber=' entries." \/
  exists W N,
    read_lines lines threads maxNumber threadsSet maxNumberSet = Configured W N.
Proof.
  induction lines as [|l rest IH]; intros Hno t m ts ms; cbn [read_lines].
  - destruct (negb ts || negb ms); eauto.
  - assert (Hl : ~ bad_line l) by (intros E; apply Hno; now constructor).
    assert (Hr : ~ Exists bad_line rest) by (intros E; apply Hno; now apply Exists_cons_tl).
    destruct (String.prefix "threads=" l) eqn:Pt.
    + rewrite (bad_line_threads l Pt) in Hl. unfold refused in Hl.
      destruct (stol (substr 8 l)) as [v|f]; cbn [bind]; [|tauto].
      destruct (Z.leb_spec v 0); [lia | apply IH, Hr].
    + destruct (String.prefix "maxNumber=" l) eqn:Pm.
      * rewrite (bad_line_maxNumber l Pt Pm) in Hl. unfold refused in Hl.
        destruct (stol (substr 10 l)) as [v|f]; cbn [bind]; [|tauto].
        destruct (Z.leb_spec v 1); [lia | apply IH, Hr].
      * apply IH, Hr.
Qed.

(** X3.  The diagnostic of [readConfig] is that of the first line it
    refuses: [Invalid thread count in config: ] or [Invalid max number in
    config: ] followed by the value of that line, whatever comes after it
    and whether or not a key is missing.  The message about missing entries
    is printed only when no line is refused and a key is missing. *)
Theorem readConfig_reports_first_refused (content : string) :
  (forall pre line post,
     getlines content = pre ++ line :: post ->
     ~ Exists bad_line pre -> bad_line line ->
     readConfig "config.txt" (Some content) 0 0
     = ConfigExit 1 (diagnostic_of line)) /\
  (~ Exists bad_line (getlines content) ->
   ~ has_key "threads=" (getlines content) \/
   ~ has_key "maxNumber=" (getlines content) ->
   readConfig "config.txt" (Some content) 0 0
   = ConfigExit 1 "Config file is missing 'threads=' or 'maxNumber=' entries.").
Proof.
  split.
  - intros pre line post Hl Hpre Hbad. cbn [readConfig]. rewrite Hl.
    apply read_lines_first_refused; assumption.
  - intros Hno Hmiss. cbn [readConfig].
    destruct (read_lines_none_refused _ Hno 0 0 false false) as [H | (W & N & H)];
      [exact H|].
    exfalso.
    destruct (read_lines_exits (getlines content) 0 0 false false ltac:(tauto))
      as [d Hd].
    congruence.
Qed.

(** ** [readConfig]: the values it reads *)

Lemma digit_char_facts (d : nat) : (d < 10)%nat ->
  digit_of (digit_char d) = Some (Z.of_nat d) /\
  Ascii.eqb (digit_char d) newline = false.
Proof.
  intros H. do 10 (destruct d as [|d]; [split; reflexivity|]). lia.
Qed.

Lemma stol_digit_start (d : nat) (s : string) : (d < 10)%nat ->
  stol (String (digit_char d) s) =
  match read_digits (String (digit_char d) s) None with
  | None => Fault InvalidArgument
  | Some v => if Long.in_rangeb v then Ret v else Fault OutOfRange
  end.
Proof.
  intros H. do 10 (destruct d as [|d]; [reflexivity|]). lia.
Qed.

Lemma read_digits_numeral (ds : list nat) (tail : string) :
  Forall (fun d => (d < 10)%nat) ds -> no_leading_digit tail = true ->
  forall acc,
  read_digits (String.append (numeral ds) tail) acc =
  match ds with
  | [] => acc
  | _ => Some (fold_left (fun a d => 10 * a + Z.of_nat d) ds
                 (match acc with Some a => a | None => 0 end))
  end.
Proof.
  intros Hds Htail. induction Hds as [|d ds Hd Hds IH]; intros acc.
  - cbn [numeral String.append]. destruct tail as [|c tail]; [reflexivity|].
    cbn [read_digits]. cbn [no_leading_digit] in Htail.
    destruct (digit_of c); [discriminate | reflexivity].
  - cbn [numeral String.append read_digits].
    rewrite (proj1 (digit_char_facts d Hd)), IH.
    cbn [fold_left]. destruct ds; reflexivity.
Qed.

Lemma numeral_value_nonneg (ds : list nat) : 0 <= numeral_value ds.
Proof.
  unfold numeral_value.
  assert (G : forall a, 0 <= a ->
            0 <= fold_left (fun a d => 10 * a + Z.of_nat d) ds a).
  { induction ds as [|d ds IH]; intros a Ha; cbn [fold_left]; [exact Ha|].
    apply IH. lia. }
  apply G. lia.
Qed.

(** [std::stol] on a decimal numeral followed by text that does not start
    with a digit: the value of the numeral. *)
Lemma stol_numeral (ds : list nat) (tail : string) :
  ds <> [] -> Forall (fun d => (d < 10)%nat) ds -> no_leading_digit tail = true ->
  numeral_value ds <= Long.LONG_MAX ->
  stol (String.append (numeral ds) tail) = Ret (numeral_value ds).
Proof.
  intros Hne Hds Htail Hmax.
  destruct ds as [|d ds]; [contradiction|].
  pose proof (read_digits_numeral (d :: ds) tail Hds Htail None) as Hr.
  cbn [numeral String.append] in *.
  rewrite stol_digit_start by (inversion Hds; assumption).
  rewrite Hr. fold (numeral_value (d :: ds)).
  pose proof (numeral_value_nonneg (d :: ds)). pose proof long_bounds.
  unfold Long.in_rangeb.
  destruct (Z.leb_spec Long.LONG_MIN (numeral_value (d :: ds))); [|lia].
  destruct (Z.leb_spec (numeral_value (d :: ds)) Long.LONG_MAX); [|lia].
  reflexivity.
Qed.

Lemma substring_all (s : string) : String.substring 0 (String.length s) s = s.
Proof. induction s as [|c s IH]; cbn; [reflexivity | now rewrite IH]. Qed.

Lemma value_after_threads (x : string) :
  String.prefix "threads=" (String.append "threads=" x) = true /\
  substr 8 (String.append "threads=" x) = x.
Proof.
  split; [cbn; destruct x; reflexivity|]. unfold substr. cbn. rewrite Nat.sub_0_r. apply substring_all.
Qed.

Lemma value_after_maxNumber (x : string) :
  String.prefix "threads=" (String.append "maxNumber=" x) = false /\
  String.prefix "maxNumber=" (String.append "maxNumber=" x) = true /\
  substr 10 (String.append "maxNumber=" x) = x.
Proof.
  split; [reflexivity|]. split; [cbn; destruct x; reflexivity|].
  unfold substr. cbn. rewrite Nat.sub_0_r. apply substring_all.
Qed.

Lemma getlines_line (l s : string) : one_line l = true ->
  getlines (String.append l (String newline s)) = l :: getlines s.
Proof.
  induction l as [|c l IH]; intros H.
  - reflexivity.
  - cbn [one_line] in H. apply andb_true_iff in H as [Hc Hl].
    apply negb_true_iff in Hc.
    cbn [String.append getlines]. rewrite Hc, (IH Hl). reflexivity.
Qed.

(** Reading back the lines of a file written line by line. *)
Lemma getlines_unlines (ls : list string) :
  Forall (fun l => one_line l = true) ls -> getlines (unlines ls) = ls.
Proof.
  induction 1 as [|l ls Hl Hls IH]; [reflexivity|].
  cbn [unlines]. rewrite getlines_line by exact Hl. now rewrite IH.
Qed.

Lemma one_line_append (a b : string) :
  one_line (String.append a b) = one_line a && one_line b.
Proof.
  induction a as [|c a IH]; [reflexivity|].
  cbn [String.append one_line]. rewrite IH. now rewrite andb_assoc.
Qed.

Lemma one_line_numeral (ds : list nat) :
  Forall (fun d => (d < 10)%nat) ds -> one_line (numeral ds) = true.
Proof.
  induction 1 as [|d ds Hd Hds IH]; [reflexivity|].
  cbn [numeral one_line]. rewrite (proj2 (digit_char_facts d Hd)), IH. reflexivity.
Qed.

(** The file of two lines that gives the two keys the numerals [dsW] and
    [dsN], each followed by some text. *)
Lemma read_two_numerals (dsW dsN : list nat) (tailW tailN : string) :
  dsW <> [] -> dsN <> [] ->
  Forall (fun d => (d < 10)%nat) dsW -> Forall (fun d => (d < 10)%nat) dsN ->
  no_leading_digit tailW = true -> no_leading_digit tailN = true ->
  one_line tailW = true -> one_line tailN = true ->
  1 <= numeral_value dsW <= Long.LONG_MAX ->
  2 <= numeral_value dsN <= Long.LONG_MAX ->
  readConfig "config.txt"
    (Some (unlines [String.append "threads=" (String.append (numeral dsW) tailW);
                    String.append "maxNumber=" (String.append (numeral dsN) tailN)]))
    0 0
  = Configured (numeral_value dsW) (numeral_value dsN).
Proof.
  intros HneW HneN HdW HdN HtW HtN HoW HoN HW HN. cbn [readConfig].
  rewrite getlines_unlines.
  2:{ repeat constructor.
      - change (one_line (String.append "threads=" (String.append (numeral dsW) tailW)))
          with (one_line (String.append (numeral dsW) tailW)).
        now rewrite one_line_append, one_line_numeral, HoW.
      - change (one_line (String.append "maxNumber=" (String.append (numeral dsN) tailN)))
          with (one_line (String.append (numeral dsN) tailN)).
        now rewrite one_line_append, one_line_numeral, HoN. }
  cbn [read_lines].
  destruct (value_after_threads (String.append (numeral dsW) tailW)) as [-> ->].
  rewrite stol_numeral by (assumption || lia). cbn [bind].
  destruct (Z.leb_spec (numeral_value dsW) 0); [lia|].
  destruct (value_after_maxNumber (String.append (numeral dsN) tailN)) as (-> & -> & ->).
  rewrite stol_numeral by (assumption || lia). cbn [bind].
  destruct (Z.leb_spec (numeral_value dsN) 1); [lia|].
  reflexivity.
Qed.

(** X4.  On a line [threads=] or [maxNumber=] the value read is the decimal
    value of the digits that follow the key; whatever text follows the
    digits (not starting with a digit) is ignored.  So for numerals whose
    values are at least 1 and 2 and fit a [long], the file made of the two
    lines is accepted with exactly these values. *)
Theorem readConfig_reads_leading_digits (dsW dsN : list nat) (tailW tailN : string) :
  dsW <> [] -> dsN <> [] ->
  Forall (fun d => (d < 10)%nat) dsW -> Forall (fun d => (d < 10)%nat) dsN ->
  no_leading_digit tailW = true -> no_leading_digit tailN = true ->
  one_line tailW = true -> one_line tailN = true ->
  1 <= numeral_value dsW <= Long.LONG_MAX ->
  2 <= numeral_value dsN <= Long.LONG_MAX ->
  stol (String.append (numeral dsW) tailW) = Ret (numeral_value dsW) /\
  stol (String.append (numeral dsN) tailN) = Ret (numeral_value dsN) /\
  readConfig "config.txt"
    (Some (unlines [String.append "threads=" (String.append (numeral dsW) tailW);
                    String.append "maxNumber=" (String.append (numeral dsN) tailN)]))
    0 0
  = Configured (numeral_value dsW) (numeral_value dsN).
Proof.
  intros HneW HneN HdW HdN HtW HtN HoW HoN HW HN.
  split; [apply stol_numeral; (assumption || lia)|].
  split; [apply stol_numeral; (assumption || lia)|].
  apply read_two_numerals; assumption.
Qed.

Lemma readConfig_reads_leading_digits_witness :
  readConfig "config.txt"
    (Some (unlines [String.append "threads=" (String.append (numeral [4%nat]) " workers");
                    String.append "maxNumber=" (String.append (numeral [3%nat; 0%nat]) "")]))
    0 0
  = Configured 4 30.
Proof.
  refine (proj2 (proj2 (readConfig_reads_leading_digits [4%nat] [3%nat; 0%nat]
                          " workers" "" _ _ _ _ _ _ _ _ _ _)));
    try discriminate; try reflexivity;
    try (repeat constructor; lia);
    vm_compute; split; discriminate.
Defined.

Lemma numeral_value_snoc (ds : list nat) (d : nat) :
  numeral_value (ds ++ [d]) = 10 * numeral_value ds + Z.of_nat d.
Proof. unfold numeral_value. now rewrite fold_left_app. Qed.

(** Every natural number has a decimal numeral. *)
Lemma numeral_exists (v : Z) : 0 <= v ->
  exists ds, ds <> [] /\ Forall (fun d => (d < 10)%nat) ds /\ numeral_value ds = v.
Proof.
  intros Hv. remember (Z.to_nat v) as k eqn:Hk. revert v Hv Hk.
  induction k as [k IH] using lt_wf_ind. intros v Hv Hk.
  destruct (Z.lt_ge_cases v 10) as [Hlt|Hge].
  - exists [Z.to_nat v]. split; [discriminate|]. split.
    + constructor; [lia | constructor].
    + unfold numeral_value. cbn [fold_left]. lia.
  - pose proof (Z.div_mod v 10 ltac:(lia)) as Hdm.
    pose proof (Z.mod_pos_bound v 10 ltac:(lia)) as Hmod.
    assert (Hq : 0 <= v / 10 < v).
    { split; [apply Z.div_pos; lia | apply Z.div_lt; lia]. }
    destruct (IH (Z.to_nat (v / 10)) ltac:(lia) (v / 10) ltac:(lia) eq_refl)
      as (ds & Hne & Hds & Hval).
    exists (ds ++ [Z.to_nat (v mod 10)]). split; [|split].
    + destruct ds; discriminate.
    + apply Forall_app. split; [exact Hds|]. constructor; [lia | constructor].
    + rewrite numeral_value_snoc, Hval. lia.
Qed.

(** X5.  Every configuration that [readConfig] can return is reachable:
    for every worker count [W >= 1] and bound [N >= 2] that fit a [long]
    there is a file (the two keys with the decimal numerals of [W] and [N])
    on which [readConfig] returns exactly [W] and [N], and [main] then runs
    the orchestration with these values. *)
Theorem every_valid_configuration_readable (W N : Z) :
  1 <= W <= Long.LONG_MAX -> 2 <= N <= Long.LONG_MAX ->
  exists content,
    readConfig "config.txt" (Some content) 0 0 = Configured W N /\
    forall input sc, main (Some content) input sc = orchestrate W N input sc.
Proof.
  intros HW HN.
  destruct (numeral_exists W ltac:(lia)) as (dsW & HneW & HdW & HvW).
  destruct (numeral_exists N ltac:(lia)) as (dsN & HneN & HdN & HvN).
  eexists. split.
  - rewrite <- HvW, <- HvN.
    apply (read_two_numerals dsW dsN "" ""); try assumption; try reflexivity; lia.
  - intros input sc. unfold main.
    rewrite <- HvW, <- HvN.
    rewrite (read_two_numerals dsW dsN "" ""); try assumption; try reflexivity; lia.
Qed.

Lemma every_valid_configuration_readable_witness :
  exists content, readConfig "config.txt" (Some content) 0 0 = Configured 4 30.
Proof.
  assert (H1 : 1 <= 4 <= Long.LONG_MAX) by (vm_compute; split; discriminate).
  assert (H2 : 2 <= 30 <= Long.LONG_MAX) by (vm_compute; split; discriminate).
  destruct (every_valid_configuration_readable 4 30 H1 H2) as (content & Hc & _).
  exists content. exact Hc.
Defined.

(** ** [main]: the prompt and the exit status *)

Lemma read_choice_invalid (invalid : list Z) :
  Forall (fun x => x < 1 \/ 4 < x) invalid ->
  forall tail out err,
  read_choice (invalid ++ tail) out err =
  read_choice tail (out ++ repeat Menu (length invalid))
                   (err ++ repeat invalid_choice (length invalid)).
Proof.
  induction 1 as [|x invalid Hx Hinv IH]; intros tail out err.
  - cbn. now rewrite !app_nil_r.
  - cbn [app read_choice length repeat].
    assert (Hb : (x <? 1) || (x >? 4) = true).
    { apply orb_true_iff. rewrite Z.gtb_ltb. rewrite !Z.ltb_lt. exact Hx. }
    rewrite Hb, IH, <- !app_assoc. reflexivity.
Qed.

(** X6.  A choice outside [1..4] is never fatal: each one costs a new menu
    and one line on the standard error, and the first choice within [1..4]
    is the one taken; what is typed after it is not read.  When no valid
    choice is ever typed the process stays in the prompt loop: it prints
    nothing but the menus and creates no thread. *)
Theorem invalid_choices_are_reprompted (invalid : list Z) (W N : Z) (sc : schedulers) :
  Forall (fun x => x < 1 \/ 4 < x) invalid ->
  (forall c rest out err, 1 <= c <= 4 ->
     read_choice (invalid ++ c :: rest) out err =
     (out ++ repeat Menu (S (length invalid)),
      err ++ repeat invalid_choice (length invalid), Some c)) /\
  (forall c rest, 1 <= c <= 4 ->
     orchestrate W N (invalid ++ c :: rest) sc = orchestrate W N (invalid ++ [c]) sc) /\
  orchestrate W N invalid sc
  = Ret (Prompting (ConfigSays W N :: repeat Menu (S (length invalid)))
                   (repeat invalid_choice (length invalid))).
Proof.
  intros Hinv.
  assert (Hvalid : forall c rest out err, 1 <= c <= 4 ->
            read_choice (invalid ++ c :: rest) out err =
            (out ++ repeat Menu (S (length invalid)),
             err ++ repeat invalid_choice (length invalid), Some c)).
  { intros c rest out err Hc. rewrite read_choice_invalid by exact Hinv.
    cbn [read_choice].
    destruct (Z.ltb_spec c 1); [lia|]. rewrite Z.gtb_ltb.
    destruct (Z.ltb_spec 4 c); [lia|]. cbn [orb].
    rewrite <- app_assoc. do 2 f_equal.
    change (S (length invalid)) with (1 + length invalid)%nat.
    rewrite Nat.add_comm, repeat_app. reflexivity. }
  split; [exact Hvalid|]. split.
  - intros c rest Hc. unfold orchestrate.
    rewrite (Hvalid c rest), (Hvalid c []) by exact Hc. reflexivity.
  - unfold orchestrate.
    rewrite <- (app_nil_r invalid) at 1.
    rewrite read_choice_invalid by exact Hinv. cbn [read_choice app].
    change (repeat Menu (length invalid) ++ [Menu])
      with (repeat Menu (length invalid) ++ repeat Menu 1).
    rewrite <- repeat_app, Nat.add_1_r. reflexivity.
Qed.

Lemma invalid_choices_are_reprompted_witness :
  orchestrate 4 30 [0; 7] round_robin
  = Ret (Prompting [ConfigSays 4 30; Menu; Menu; Menu] [invalid_choice; invalid_choice]).
Proof.
  refine (proj2 (proj2 (invalid_choices_are_reprompted [0; 7] 4 30 round_robin _))).
  repeat constructor; lia.
Defined.




(** ** Scheme B: the output does not depend on the scheduling *)

Lemma runSchemeB_from_any_scheduler (sched sched' : Z -> nat -> nat) (N W : Z)
  (p : bool) : 1 <= W -> N <= Long.LONG_MAX ->
  forall n s,
  runSchemeB_from sched N W p n s = runSchemeB_from sched' N W p n s.
Proof.
  intros HW HN n. remember (Z.to_nat (N + 1 - n)) as m eqn:Hm.
  revert n Hm. induction m as [|m IH]; intros n Hm s;
    rewrite (runSchemeB_from_eq sched), (runSchemeB_from_eq sched').
  - destruct (Z.leb_spec n N); [lia | reflexivity].
  - destruct (Z.leb_spec n N); [|reflexivity].
    rewrite !isPrimeByDivisorThreads_oracle by lia. cbn [bind]. cbv zeta.
    destruct (Long.in_rangeb (n + 1)); [|reflexivity].
    apply IH. lia.
Qed.

Lemma runSchemeB_from_stdout (sched : Z -> nat -> nat) (N W : Z) :
  1 <= W -> N < Long.LONG_MAX ->
  forall n s, Long.LONG_MIN <= n ->
  exists s',
    runSchemeB_from sched N W true n s = Ret s' /\
    stdout s' = stdout s ++ map FoundByB (filter isPrimeSingleThread (Zrange n N)).
Proof.
  intros HW HN n. remember (Z.to_nat (N + 1 - n)) as m eqn:Hm.
  revert n Hm. induction m as [|m IH]; intros n Hm s Hn; rewrite runSchemeB_from_eq.
  - destruct (Z.leb_spec n N); [lia|]. exists s. rewrite Zrange_empty by lia.
    cbn [filter map]. now rewrite app_nil_r.
  - destruct (Z.leb_spec n N) as [Hle|]; [|lia].
    rewrite isPrimeByDivisorThreads_oracle by lia. cbn [bind]. cbv zeta.
    unfold Long.in_rangeb.
    destruct (Z.leb_spec Long.LONG_MIN (n + 1)); [|lia].
    destruct (Z.leb_spec (n + 1) Long.LONG_MAX); [|lia]. cbn [andb].
    match goal with |- context [runSchemeB_from _ _ _ _ _ ?x] => set (s2 := x) end.
    destruct (IH (n + 1) ltac:(lia) s2 ltac:(lia)) as (s' & -> & Hout).
    exists s'. split; [reflexivity|]. rewrite Hout.
    rewrite (Zrange_cons n N) by lia. cbn [filter]. unfold s2.
    destruct (isPrimeSingleThread n);
      cbn [print count_spawned stdout map]; [|reflexivity].
    now rewrite <- app_assoc.
Qed.

Lemma read_choice_menus (input : list Z) :
  forall out err, exists k err',
    fst (read_choice input out err) = (out ++ repeat Menu k, err').
Proof.
  induction input as [|x input IH]; intros out err; cbn [read_choice].
  - exists 1%nat, err. reflexivity.
  - destruct ((x <? 1) || (x >? 4)).
    + destruct (IH (out ++ [Menu]) (err ++ [invalid_choice])) as (k & err' & Hk).
      exists (S k), err'. unfold invalid_choice in Hk. rewrite Hk.
      now rewrite <- app_assoc.
    + exists 1%nat, err. reflexivity.
Qed.

(** X8.  A run of Scheme B is deterministic: the whole result of the
    process is the same under every scheduling of the worker threads.  For
    a worker count up to [max_size], in immediate mode its [Found prime]
    lines are exactly the primes of [[1, N]] in ascending order, one line
    each, between the start and the end of the run; for a worker count above
    [max_size] the run ends in the [std::length_error] of
    [threadsA.reserve]. *)
Theorem scheme_B_is_deterministic (W N : Z) (input : list Z) (sc sc' : schedulers)
  (c : Z) :
  1 <= W -> 2 <= N < Long.LONG_MAX -> selected input = Some c -> c = 3 \/ c = 4 ->
  orchestrate W N input sc = orchestrate W N input sc' /\
  (c = 3 -> W <= max_size ->
   exists k err threads,
     orchestrate W N input sc
     = Ret (Exited 0
              ((ConfigSays W N :: repeat Menu k) ++ [RunStarted]
               ++ map FoundByB (primes_ref N) ++ [RunEnded; Elapsed])
              err threads)) /\
  (max_size < W -> orchestrate W N input sc = Fault LengthError).
Proof.
  intros HW HN Hsel Hc. split; [|split].
  - unfold orchestrate.
    destruct (read_choice_selected input [ConfigSays W N] []) as (out0 & err & -> & _).
    rewrite Hsel. destruct (reserve W); cbn [bind]; [|reflexivity].
    unfold runSchemeB.
    destruct Hc as [-> | ->]; cbn [Z.eqb Pos.eqb orb];
      rewrite (runSchemeB_from_any_scheduler (schedB sc) (schedB sc')) by lia;
      reflexivity.
  - intros -> HWmax. unfold orchestrate.
    destruct (read_choice_menus input [ConfigSays W N] []) as (k & err & Hk).
    destruct (read_choice_selected input [ConfigSays W N] []) as (out0 & err0 & Hr & _).
    rewrite Hr in *. cbn [fst] in Hk. inversion Hk; subst out0 err0.
    rewrite Hsel. rewrite reserve_accepts by lia. cbn [bind].
    cbn [Z.eqb Pos.eqb orb]. unfold runSchemeB. pose proof long_bounds.
    match goal with |- context [runSchemeB_from _ _ _ _ _ ?x] => set (s0 := x) end.
    destruct (runSchemeB_from_stdout (schedB sc) N W HW ltac:(lia) 2 s0 ltac:(lia))
      as (s' & -> & Hout).
    cbn [bind]. unfold finish. exists k, err, (spawned s').
    rewrite Hout. unfold s0. cbn [stdout].
    rewrite oracle_filter_from_two, oracle_filter_ref by lia.
    cbn [app]. rewrite <- !app_assoc. reflexivity.
  - intros HWbig. eapply orchestrate_too_many_threads; eauto.
Qed.

Lemma scheme_B_is_deterministic_witness :
  orchestrate 4 30 [3] round_robin
  = orchestrate 4 30 [3] {| schedA := fun _ => 0%nat; schedB := fun _ t => (3 * t + 1)%nat |}.
Proof.
  assert (H1 : 1 <= 4) by lia.
  assert (H2 : 2 <= 30 < Long.LONG_MAX) by (vm_compute; split; [discriminate | reflexivity]).
  exact (proj1 (scheme_B_is_deterministic 4 30 [3] round_robin _ 3 H1 H2 eq_refl
                  (or_introl eq_refl))).
Defined.

(** ** Scheme B: what the divisor workers touch *)

Lemma div_trace_steps (n : Z) (schedule : list nat) :
  forall p, pool_steps div_enabled (workerCheckDivRange n) p (div_trace n schedule p).
Proof.
  induction schedule as [|i rest IH]; intros [flag ws]; cbn [div_trace fst snd].
  - constructor.
  - destruct (nth_error ws i) as [w|] eqn:Hi; [|apply IH].
    destruct (div_enabled w) eqn:He; [|apply IH].
    destruct (workerCheckDivRange n flag w) as [[flag' w']|f] eqn:Hs; [|constructor].
    eapply pool_steps_cons; [|apply IH]. econstructor; eauto.
Qed.

Lemma within_chunk_step (n : Z) (flag : bool) (c : chunk) (w : div_worker)
  (flag' : bool) (w' : div_worker) :
  within_chunk c w -> workerCheckDivRange n flag w = Ret (flag', w') ->
  within_chunk c w'.
Proof.
  destruct w as [d e pc]. unfold within_chunk, workerCheckDivRange.
  cbn [dw_d dw_end dw_pc]. intros (He & Hd & Hpc) Hs. subst e.
  destruct pc.
  - destruct (Z.leb_spec d (endDiv c)); inversion Hs; subst;
      cbn [dw_d dw_end dw_pc]; repeat split; lia.
  - destruct flag; inversion Hs; subst; cbn [dw_d dw_end dw_pc]; repeat split; lia.
  - destruct (Z.rem n d =? 0); inversion Hs; subst; cbn [dw_d dw_end dw_pc];
      repeat split; lia.
  - inversion Hs; subst; cbn [dw_d dw_end dw_pc]; repeat split; lia.
  - inversion Hs; subst; cbn [dw_d dw_end dw_pc]; repeat split; lia.
Qed.

Lemma within_chunk_pool (n : Z) (chunks : list chunk) :
  (forall c, In c chunks -> startDiv c <= endDiv c) ->
  forall flag ws,
    pool_steps div_enabled (workerCheckDivRange n)
      (false, map spawn_div_worker chunks) (flag, ws) ->
    Forall2 within_chunk chunks ws.
Proof.
  intros Hne flag ws Hsteps.
  refine (pool_steps_invariant div_enabled (workerCheckDivRange n)
            (fun p => Forall2 within_chunk chunks (snd p)) _ _ (flag, ws) Hsteps _).
  - intros p q Hp Hstep. destruct Hstep as [s ws0 i w s' w' Hi He Hs].
    cbn [snd] in *.
    destruct (Forall2_lookup_r _ _ _ _ _ Hp Hi) as (c & Hc & Hok).
    eapply Forall2_set_nth; eauto. eapply within_chunk_step; eauto.
  - cbn [snd]. clear Hsteps. induction chunks as [|c cs IH]; cbn [map]; constructor.
    + pose proof (Hne c (or_introl eq_refl)).
      unfold within_chunk, spawn_div_worker. cbn [dw_d dw_end dw_pc].
      repeat split; lia.
    + apply IH. intros c' Hc'. apply Hne. now right.
Qed.

Lemma chunks_not_empty (limit : Z) (chunks : list chunk) :
  tiles chunks 0 (total_divs limit - 1) ->
  (forall c, In c chunks ->
     startDiv c = 3 + 2 * startIndex c /\ endDiv c = 3 + 2 * endIndex c) ->
  forall c, In c chunks -> startDiv c <= endDiv c.
Proof.
  intros Ht Hdiv c Hc. destruct (Hdiv c Hc) as [-> ->].
  apply In_nth_error in Hc as [k Hk].
  pose proof (tiles_bounds _ _ _ _ _ Ht Hk). lia.
Qed.

(** X9.  While an odd [n >= 9] is tested with a worker budget [W >= 1],
    in every state the threads of the call can reach, whatever the
    interleaving, each worker is inside the chunk it was given: its divisor
    lies between the first divisor of the chunk and one past the last, so
    that it is at least 3 and its [++d] stays far inside [long]; and a
    worker that stands at the division [n % d] holds a divisor [d] with
    [3 <= d <= limit] and [d * d <= n]: no division by zero, none beyond the
    square root. *)
Theorem divisor_workers_stay_in_chunk (n W : Z) (chunks : list chunk) (flag : bool)
  (ws : list div_worker) :
  9 <= n <= Long.LONG_MAX -> 1 <= W ->
  partition_divisors (build_divisors (sqrt_limit n) 3) W = Ret chunks ->
  pool_steps div_enabled (workerCheckDivRange n)
    (false, map spawn_div_worker chunks) (flag, ws) ->
  Forall2 within_chunk chunks ws /\
  Forall (fun w => 3 <= dw_d w < Long.LONG_MAX /\
                   (dw_pc w = AtTest ->
                    dw_d w <= sqrt_limit n /\ dw_d w * dw_d w <= n)) ws.
Proof.
  intros Hn HW Hpart Hsteps.
  pose proof (sqrt_limit_bounds n ltac:(lia)) as (H0 & Hsq & Hlt).
  assert (Hl3 : 3 <= sqrt_limit n) by nia.
  pose proof (sqrt_limit_small n ltac:(lia)) as [_ Hlmax].
  destruct (partition_facts (sqrt_limit n) W ltac:(lia) HW
              ltac:(apply sqrt_budget_fits; lia))
    as (chunks' & Hpart' & _ & Ht & Hdiv).
  rewrite Hpart in Hpart'. inversion Hpart'; subst chunks'. clear Hpart'.
  pose proof (chunk_bounds _ _ Ht Hdiv) as Hb.
  pose proof (chunks_not_empty _ _ Ht Hdiv) as Hne.
  pose proof (within_chunk_pool n chunks Hne flag ws Hsteps) as Hin.
  split; [exact Hin|].
  apply Forall_forall. intros w Hw. apply In_nth_error in Hw as [i Hi].
  destruct (Forall2_lookup_r _ _ _ _ _ Hin Hi) as (c & Hc & (He & Hd & Hpc)).
  destruct (Hb c (nth_error_In _ _ Hc)) as [Hc3 Hcl].
  assert (H3l : 3 * sqrt_limit n <= sqrt_limit n * sqrt_limit n) by nia.
  split; [lia|]. intros Hat. rewrite Hat in Hpc. split; [lia | nia].
Qed.

Lemma divisor_workers_stay_in_chunk_witness :
  exists chunks,
    partition_divisors (build_divisors (sqrt_limit 169) 3) 2 = Ret chunks /\
    let p := div_trace 169 [0; 1; 0; 1; 0; 1; 1; 1; 1; 0]%nat
               (false, map spawn_div_worker chunks) in
    Forall2 within_chunk chunks (snd p) /\
    Forall (fun w => 3 <= dw_d w < Long.LONG_MAX /\
                     (dw_pc w = AtTest ->
                      dw_d w <= sqrt_limit 169 /\ dw_d w * dw_d w <= 169)) (snd p).
Proof.
  assert (H1 : 9 <= 169 <= Long.LONG_MAX) by (vm_compute; split; discriminate).
  assert (H2 : 1 <= 2) by lia.
  eexists. split; [vm_compute; reflexivity|]. cbv zeta.
  match goal with
  | |- Forall2 _ ?cs (snd ?p) /\ _ =>
      apply (divisor_workers_stay_in_chunk 169 2 cs (fst p) (snd p) H1 H2
               ltac:(vm_compute; reflexivity));
      rewrite <- surjective_pairing; apply div_trace_steps
  end.
Defined.

(** ** Scheme B: after the flag is set *)

Lemma div_step_advance (n : Z) (flag : bool) (w : div_worker) (flag' : bool)
  (w' : div_worker) :
  workerCheckDivRange n flag w = Ret (flag', w') ->
  dw_d w <= dw_d w' /\
  (flag = true -> dw_d w' + in_flight w' <= dw_d w + in_flight w).
Proof.
  destruct w as [d e pc]. unfold workerCheckDivRange, in_flight.
  cbn [dw_d dw_end dw_pc]. destruct pc.
  - destruct (d <=? e); intros H; inversion H; subst; cbn [dw_d dw_pc]; lia.
  - destruct flag; intros H; inversion H; subst; cbn [dw_d dw_pc];
      (split; [lia | intros; try discriminate; lia]).
  - destruct (Z.rem n d =? 0); intros H; inversion H; subst; cbn [dw_d dw_pc]; lia.
  - intros H; inversion H; subst; cbn [dw_d dw_pc]; lia.
  - intros H; inversion H; subst; cbn [dw_d dw_pc]; lia.
Qed.

(** X10.  Once [compositeFound] is set, along every execution of the
    threads of the call, the flag stays set and each worker moves on by at
    most one divisor, and only if it had already read the flag unset and
    stood at its division; a worker anywhere else never reaches another
    divisor. *)
Theorem one_division_after_flag (n : Z) (ws ws' : list div_worker) (flag' : bool) :
  pool_steps div_enabled (workerCheckDivRange n) (true, ws) (flag', ws') ->
  flag' = true /\
  length ws' = length ws /\
  forall i w w', nth_error ws i = Some w -> nth_error ws' i = Some w' ->
    dw_d w <= dw_d w' <= dw_d w + in_flight w /\
    (dw_pc w' = AtTest -> w' = w).
Proof.
  intros Hsteps.
  assert (Hinv : fst (flag', ws') = true /\ length (snd (flag', ws')) = length ws /\
            forall i w w', nth_error ws i = Some w ->
              nth_error (snd (flag', ws')) i = Some w' ->
              (dw_d w <= dw_d w' /\
               dw_d w' + in_flight w' <= dw_d w + in_flight w) /\
              (dw_pc w' = AtTest -> w' = w)).
  { refine (pool_steps_invariant div_enabled (workerCheckDivRange n)
              (fun p => fst p = true /\ length (snd p) = length ws /\
                 forall i w w', nth_error ws i = Some w ->
                   nth_error (snd p) i = Some w' ->
                   (dw_d w <= dw_d w' /\
                    dw_d w' + in_flight w' <= dw_d w + in_flight w) /\
                   (dw_pc w' = AtTest -> w' = w))
              _ _ (flag', ws') Hsteps _).
    - intros p q (Hflag & Hlen & Hall) Hstep.
      destruct Hstep as [s ws0 j v s' v' Hj He Hs]. cbn [fst snd] in *. subst s.
      pose proof (div_step_flag _ _ _ _ _ Hs) as (Hkeep & _ & Htest & _).
      pose proof (div_step_advance _ _ _ _ _ Hs) as (Hmono & Hadv).
      split; [auto|]. split.
      + rewrite <- Hlen. clear. revert j. induction ws0 as [|y l IH]; intros [|j];
          cbn [set_nth length]; auto.
      + intros i w w' Hi Hi'. rewrite set_nth_lookup in Hi'.
        destruct (Nat.eqb_spec j i) as [->|]; [|eauto].
        rewrite Hj in Hi'. inversion Hi'; subst v'. clear Hi'.
        destruct (Hall i w v Hi Hj) as ((Ha & Hb) & _).
        specialize (Hadv eq_refl). split; [lia|].
        intros Hat. destruct (Htest Hat) as (_ & Hf & _). discriminate.
    - cbn [fst snd]. split; [reflexivity|]. split; [reflexivity|].
      intros i w w' Hi Hi'. rewrite Hi in Hi'. inversion Hi'; subst w'.
      split; [lia | reflexivity]. }
  cbn [fst snd] in Hinv. destruct Hinv as (Hflag & Hlen & Hall).
  split; [exact Hflag|]. split; [exact Hlen|].
  intros i w w' Hi Hi'. destruct (Hall i w w' Hi Hi') as ((Ha & Hb) & Hc).
  split; [|exact Hc]. unfold in_flight in *. destruct (dw_pc w'); lia.
Qed.

Lemma one_division_after_flag_witness :
  let ws := [mk_div_worker 3 7 AtTest; mk_div_worker 9 13 AtLoop] in
  let p := div_trace 105 [0; 1; 1; 0; 0; 1]%nat (true, ws) in
  fst p = true /\
  length (snd p) = length ws /\
  forall i w w', nth_error ws i = Some w -> nth_error (snd p) i = Some w' ->
    dw_d w <= dw_d w' <= dw_d w + in_flight w /\
    (dw_pc w' = AtTest -> w' = w).
Proof.
  cbv zeta.
  match goal with
  | |- fst ?p = true /\ _ =>
      apply (one_division_after_flag 105 _ (snd p) (fst p));
      rewrite <- surjective_pairing; apply div_trace_steps
  end.
Defined.

(** ** A negative worker budget *)

Lemma isPrimeByDivisorThreads_budget (sched : nat -> nat) (n W W' : Z) :
  partition_divisors (build_divisors (sqrt_limit n) 3) W
  = partition_divisors (build_divisors (sqrt_limit n) 3) W' ->
  isPrimeByDivisorThreads sched n W = isPrimeByDivisorThreads sched n W'.
Proof.
  intros H. unfold isPrimeByDivisorThreads.
  destruct (n <? 2); [reflexivity|].
  destruct (n =? 2); [reflexivity|].
  destruct (Z.rem n 2 =? 0); [reflexivity|].
  destruct (sqrt_limit n <=? 2); [reflexivity|].
  destruct (build_divisors (sqrt_limit n) 3) as [|d0 ds]; [reflexivity|].
  now rewrite H.
Qed.

Lemma zero_in_range : Long.in_rangeb 0 = true.
Proof. reflexivity. Qed.

Lemma partition_divisors_collapse (divisors : list Z) (W W' : Z) :
  W <> 0 -> W' <> 0 ->
  Z.quot (Z.of_nat (length divisors)) W = 0 ->
  Z.quot (Z.of_nat (length divisors)) W' = 0 ->
  partition_divisors divisors W = partition_divisors divisors W'.
Proof.
  intros HW HW' Hq Hq'. unfold partition_divisors, ldiv.
  destruct (Z.eqb_spec W 0); [contradiction|].
  destruct (Z.eqb_spec W' 0); [contradiction|].
  rewrite Hq, Hq', zero_in_range. reflexivity.
Qed.

Lemma partition_divisors_negative (divisors : list Z) (W : Z) :
  W < 0 -> - W <= Z.of_nat (length divisors) <= Long.LONG_MAX ->
  partition_divisors divisors W = Fault LengthError.
Proof.
  intros HW HT. unfold partition_divisors, ldiv.
  set (T := Z.of_nat (length divisors)) in *.
  destruct (Z.eqb_spec W 0); [lia|].
  assert (Hq : Z.quot T W = - (T / - W)).
  { replace W with (- - W) at 1 by lia.
    rewrite Z.quot_opp_r by lia. rewrite Z.quot_div_nonneg by lia. reflexivity. }
  assert (H1 : 1 <= T / - W) by (apply Z.div_le_lower_bound; lia).
  assert (H2 : T / - W <= T) by (apply Z.div_le_upper_bound; nia).
  pose proof long_bounds. unfold Long.in_rangeb.
  assert (Long.LONG_MIN = - Long.LONG_MAX - 1) by reflexivity.
  destruct (Z.leb_spec Long.LONG_MIN (Z.quot T W)); [|lia].
  destruct (Z.leb_spec (Z.quot T W) Long.LONG_MAX); [|lia].
  cbn [andb bind].
  destruct (Z.eqb_spec (Z.quot T W) 0); [lia|].
  unfold reserve. destruct (Z.ltb_spec W 0); [|lia]. reflexivity.
Qed.

(** X11.  [isPrimeByDivisorThreads] with a negative worker budget [W], on
    an odd [n >= 9]: when [-W] exceeds the number of odd divisors to try,
    the truncating division [totalDivs / numThreads] is 0, the call
    collapses to one worker and returns the verdict of the oracle; otherwise
    the chunk size is negative, the collapse does not happen and
    [threads.reserve] is asked for a negative number of threads, which ends
    the call with a length error. *)
Theorem negative_worker_budget (sched : nat -> nat) (n W : Z) :
  W < 0 -> 9 <= n <= Long.LONG_MAX -> Z.rem n 2 <> 0 ->
  (total_divs (sqrt_limit n) < - W ->
     isPrimeByDivisorThreads sched n W = Ret (isPrimeSingleThread n)) /\
  (- W <= total_divs (sqrt_limit n) ->
     isPrimeByDivisorThreads sched n W = Fault LengthError).
Proof.
  intros HW Hn Hodd.
  pose proof (sqrt_limit_bounds n ltac:(lia)) as (H0 & Hsq & Hlt).
  assert (Hl3 : 3 <= sqrt_limit n) by nia.
  pose proof (sqrt_limit_small n ltac:(lia)) as [_ Hlmax].
  destruct (build_divisors_length (sqrt_limit n) Hl3) as [Hlen Hpos].
  set (T := total_divs (sqrt_limit n)) in *.
  split; intros HT.
  - rewrite (isPrimeByDivisorThreads_budget sched n W (T + 1)).
    + apply isPrimeByDivisorThreads_oracle; lia.
    + apply partition_divisors_collapse; try lia; rewrite Hlen.
      * replace W with (- - W) by lia. rewrite Z.quot_opp_r by lia.
        rewrite Z.quot_small by lia. reflexivity.
      * apply Z.quot_small. lia.
  - unfold isPrimeByDivisorThreads.
    destruct (Z.ltb_spec n 2); [lia|].
    destruct (Z.eqb_spec n 2); [lia|].
    destruct (Z.eqb_spec (Z.rem n 2) 0); [contradiction|].
    destruct (Z.leb_spec (sqrt_limit n) 2); [lia|].
    assert (HTmax : T <= Long.LONG_MAX).
    { unfold T, total_divs. apply Z.lt_succ_r. apply Z.div_lt_upper_bound; lia. }
    pose proof (partition_divisors_negative (build_divisors (sqrt_limit n) 3) W HW
                  ltac:(lia)) as Hp.
    destruct (build_divisors (sqrt_limit n) 3) as [|d0 ds].
    { cbn [length Z.of_nat] in Hlen. lia. }
    rewrite Hp. reflexivity.
Qed.

Lemma negative_worker_budget_witness :
  isPrimeByDivisorThreads (fun t => t) 225 (- 10) = Ret (isPrimeSingleThread 225) /\
  isPrimeByDivisorThreads (fun t => t) 225 (- 3) = Fault LengthError.
Proof.
  assert (H2 : 9 <= 225 <= Long.LONG_MAX) by (vm_compute; split; discriminate).
  assert (H3 : Z.rem 225 2 <> 0) by (vm_compute; discriminate).
  split.
  - apply (negative_worker_budget (fun t => t) 225 (- 10) ltac:(lia) H2 H3).
    vm_compute. reflexivity.
  - apply (negative_worker_budget (fun t => t) 225 (- 3) ltac:(lia) H2 H3).
    vm_compute. discriminate.
Defined.

(** ** The largest bound *)

Lemma assign_ranges_overflow (W : Z) : 1 <= W ->
  forall i start, 0 <= i < W -> start = 1 + i * (Long.LONG_MAX / W) ->
  assign_ranges Long.LONG_MAX W (Long.LONG_MAX / W) i start = Fault SignedOverflow.
Proof.
  intros HW i. pose proof long_bounds.
  assert (Hrs : 0 <= Long.LONG_MAX / W) by (apply Z.div_pos; lia).
  pose proof (Z.mul_div_le Long.LONG_MAX W ltac:(lia)) as Hfit.
  set (rs := Long.LONG_MAX / W) in *.
  remember (Z.to_nat (W - i)) as m eqn:Hm.
  revert i Hm. induction m as [|m IH]; intros i Hm start Hi ->; [lia|].
  rewrite assign_ranges_eq. destruct (Z.ltb_spec i W); [|lia]. cbv zeta.
  destruct (Z.eqb_spec i (W - 1)) as [E|E].
  - unfold ladd, Long.in_rangeb.
    destruct (Z.leb_spec (Long.LONG_MAX + 1) Long.LONG_MAX); [lia|].
    rewrite andb_false_r. reflexivity.
  - rewrite ladd_in_range by (unfold Long.in_range; nia). cbn [bind].
    rewrite (IH (i + 1)) by lia. reflexivity.
Qed.

Lemma runSchemeB_from_overflow (sched : Z -> nat -> nat) (W : Z) (p : bool) :
  1 <= W ->
  forall n s, 2 <= n <= Long.LONG_MAX ->
  runSchemeB_from sched Long.LONG_MAX W p n s = Fault SignedOverflow.
Proof.
  intros HW n. remember (Z.to_nat (Long.LONG_MAX + 1 - n)) as m eqn:Hm.
  revert n Hm. induction m as [|m IH]; intros n Hm s Hn; [lia|].
  rewrite runSchemeB_from_eq. destruct (Z.leb_spec n Long.LONG_MAX); [|lia].
  rewrite isPrimeByDivisorThreads_oracle by lia. cbn [bind]. cbv zeta.
  pose proof long_bounds. unfold Long.in_rangeb.
  destruct (Z.leb_spec Long.LONG_MIN (n + 1)); [|lia].
  destruct (Z.leb_spec (n + 1) Long.LONG_MAX); cbn [andb]; [|reflexivity].
  apply IH; lia.
Qed.

(** X12.  With [maxNumber = LONG_MAX], a value [readConfig] accepts, no run
    completes.  For a worker count up to [max_size], after any valid choice
    the run executes an addition that leaves the range of [long]: in
    Scheme A the [start = end + 1] that closes the last iteration of the
    assignment loop of [main], in Scheme B the [++n] that follows the last
    candidate.  For a worker count above [max_size] the run ends earlier, in
    the [std::length_error] of [threadsA.reserve]. *)
Theorem run_at_long_max_overflows (W : Z) (input : list Z) (sc : schedulers) (c : Z) :
  1 <= W -> selected input = Some c ->
  stol "9223372036854775807" = Ret Long.LONG_MAX /\
  assignments Long.LONG_MAX W = Fault SignedOverflow /\
  (W <= max_size -> orchestrate W Long.LONG_MAX input sc = Fault SignedOverflow) /\
  (max_size < W -> orchestrate W Long.LONG_MAX input sc = Fault LengthError).
Proof.
  intros HW Hsel. pose proof long_bounds.
  assert (Hbig : 2 <= Long.LONG_MAX) by (vm_compute; discriminate).
  assert (Ha : assignments Long.LONG_MAX W = Fault SignedOverflow).
  { unfold assignments, ldiv. destruct (Z.eqb_spec W 0); [lia|].
    rewrite Z.quot_div_nonneg by lia.
    assert (0 <= Long.LONG_MAX / W) by (apply Z.div_pos; lia).
    assert (Long.LONG_MAX / W <= Long.LONG_MAX) by (apply Z.div_le_upper_bound; nia).
    unfold Long.in_rangeb.
    destruct (Z.leb_spec Long.LONG_MIN (Long.LONG_MAX / W)); [|lia].
    destruct (Z.leb_spec (Long.LONG_MAX / W) Long.LONG_MAX); [|lia].
    cbn [andb bind]. apply assign_ranges_overflow; lia. }
  split; [vm_compute; reflexivity|]. split; [exact Ha|]. split.
  - intros HWmax. unfold orchestrate.
    destruct (read_choice_selected input [ConfigSays W Long.LONG_MAX] [])
      as (out0 & err & -> & _).
    rewrite Hsel. rewrite reserve_accepts by lia. cbn [bind].
    destruct (selected_valid input c Hsel) as [-> | [-> | [-> | ->]]];
      cbn [Z.eqb Pos.eqb orb].
    + unfold runSchemeA. rewrite Ha. reflexivity.
    + unfold runSchemeA. rewrite Ha. reflexivity.
    + unfold runSchemeB. rewrite runSchemeB_from_overflow by lia. reflexivity.
    + unfold runSchemeB. rewrite runSchemeB_from_overflow by lia. reflexivity.
  - intros HWbig. eapply orchestrate_too_many_threads; eauto.
Qed.

Lemma run_at_long_max_overflows_witness :
  orchestrate 4 Long.LONG_MAX [7; 2] round_robin = Fault SignedOverflow.
Proof.
  assert (H1 : 1 <= 4) by lia.
  assert (H4 : 4 <= max_size) by (vm_compute; discriminate).
  exact (proj1 (proj2 (proj2 (run_at_long_max_overflows 4 [7; 2] round_robin 2 H1
                                eq_refl))) H4).
Defined.

(** ** Scheme A: which thread prints which prime *)

Lemma set_nth_length {A : Type} (l : list A) (i : nat) (x : A) :
  length (set_nth i x l) = length l.
Proof.
  revert i. induction l as [|y l IH]; intros [|i]; cbn [set_nth length]; auto.
Qed.

Lemma found_by_app (i : Z) (a b : list out_line) :
  found_by i (a ++ b) = found_by i a ++ found_by i b.
Proof. unfold found_by. apply flat_map_app. Qed.

Lemma attributed_step (ws0 : list range_worker) (s0 : sink) :
  forall a b, attributed ws0 s0 a ->
  pool_step range_enabled (workerRangeSchemeA true) a b -> attributed ws0 s0 b.
Proof.
  intros a b (Hall & Hsp & Hlen & added & Hout & Hshape & Hat) Hstep.
  destruct Hstep as [s ws j w s' w' Hj He Hs]. cbn [fst snd] in *.
  pose proof (proj1 (Forall_forall _ _) Hall w (nth_error_In _ _ Hj)) as [Hn Hend].
  unfold range_enabled in He. apply Z.leb_le in He.
  rewrite range_step_eq in Hs by lia. inversion Hs; subst s' w'; clear Hs.
  assert (Hjlt : (j < length ws0)%nat).
  { rewrite <- Hlen. apply nth_error_Some. congruence. }
  destruct (nth_error ws0 j) as [w0|] eqn:Hw0;
    [|apply nth_error_None in Hw0; lia].
  destruct (Hat j w0 w Hw0 Hj) as (Hid & He0 & Hfound).
  set (line := if isPrimeSingleThread (rw_n w)
               then [FoundByThread (rw_id w) (rw_n w)] else []).
  assert (Hemit : stdout (emit true (rw_id w) (rw_n w) s) = stdout s ++ line
                  /\ spawned (emit true (rw_id w) (rw_n w) s) = spawned s).
  { unfold emit, line. destruct (isPrimeSingleThread (rw_n w));
      cbn [print stdout spawned]; rewrite ?app_nil_r; auto. }
  destruct Hemit as [Hemit Hspawn].
  unfold attributed. cbn [fst snd].
  split; [apply Forall_set_nth; [exact Hall | cbn [rw_n rw_end]; lia]|].
  split; [congruence|].
  split; [rewrite set_nth_length; exact Hlen|].
  exists (added ++ line).
  split; [rewrite Hemit, Hout, app_assoc; reflexivity|].
  split.
  { apply Forall_app. split; [exact Hshape|]. unfold line.
    destruct (isPrimeSingleThread (rw_n w)); constructor; [|constructor].
    exists j, (rw_n w). split; [now rewrite Hid | exact Hjlt]. }
  intros i wi0 wi Hi0 Hi. rewrite set_nth_lookup in Hi.
  assert (Hfb : found_by (Z.of_nat i) line =
                if Nat.eqb j i
                then (if isPrimeSingleThread (rw_n w) then [rw_n w] else [])
                else []).
  { unfold line, found_by. rewrite Hid.
    destruct (isPrimeSingleThread (rw_n w)); cbn [flat_map];
      [|destruct (Nat.eqb j i); reflexivity].
    destruct (Nat.eqb_spec j i), (Z.eqb_spec (Z.of_nat j) (Z.of_nat i));
      try lia; reflexivity. }
  rewrite found_by_app, Hfb.
  destruct (Nat.eqb_spec j i) as [->|Hne].
  - rewrite Hj in Hi. inversion Hi; subst wi.
    rewrite Hw0 in Hi0. inversion Hi0; subst wi0. cbn [rw_id rw_end].
    split; [exact Hid|]. split; [exact He0|].
    rewrite <- app_assoc, <- Hfound. f_equal.
    unfold pending, span. cbn [rw_n rw_end].
    rewrite (Zrange_cons (rw_n w)) by lia. cbn [filter].
    destruct (isPrimeSingleThread (rw_n w)); reflexivity.
  - destruct (Hat i wi0 wi Hi0 Hi) as (A & B & C).
    split; [exact A|]. split; [exact B|]. rewrite app_nil_r. exact C.
Qed.

Lemma attributed_safe (ws0 : list range_worker) (s0 : sink) :
  forall s ws i w, attributed ws0 s0 (s, ws) -> nth_error ws i = Some w ->
  range_enabled w = true -> exists r, workerRangeSchemeA true s w = Ret r.
Proof.
  intros s ws i w (Hall & _) Hi He. cbn [snd] in Hall.
  pose proof (proj1 (Forall_forall _ _) Hall w (nth_error_In _ _ Hi)) as [Hn Hend].
  unfold range_enabled in He. apply Z.leb_le in He.
  eexists. apply range_step_eq; lia.
Qed.

Lemma found_by_menus (i : Z) (k : nat) : found_by i (repeat Menu k) = [].
Proof. induction k as [|k IH]; [reflexivity | exact IH]. Qed.

(** X13.  Scheme A with immediate printing, for every worker count [W]
    with [1 <= W <= max_size] (one that [threadsA.reserve] accepts), every
    bound [N >= 2] below [LONG_MAX] and every interleaving of the threads: the run creates [W] threads and, between the start and
    the end of the run, prints only [Found prime] lines of the threads
    [0 .. W - 1]; the lines of thread [i], in the order of the output, are
    the primes of its range [[1 + i * (N / W), (i + 1) * (N / W)]] (up to
    [N] for the last thread) in ascending order.  When there are more
    threads than numbers every thread but the last prints nothing. *)
Theorem scheme_A_lines_by_thread (W N : Z) (input : list Z) (sc : schedulers) :
  1 <= W <= max_size -> 2 <= N < Long.LONG_MAX -> selected input = Some 1 ->
  exists k found err,
    orchestrate W N input sc
    = Ret (Exited 0
             ((ConfigSays W N :: repeat Menu k) ++ [RunStarted]
              ++ found ++ [RunEnded; Elapsed])
             err (Z.to_nat W)) /\
    Forall (fun l => exists i n, l = FoundByThread i n /\ 0 <= i < W) found /\
    (forall i, 0 <= i < W ->
       found_by i found
       = filter prime_ref
           (Zrange (1 + i * (N / W)) (if i =? W - 1 then N else (i + 1) * (N / W)))) /\
    (N < W -> forall i, 0 <= i < W - 1 -> found_by i found = []).
Proof.
  intros [HW HWmax] HN Hsel.
  assert (Hrun : exists k found err,
    orchestrate W N input sc
    = Ret (Exited 0
             ((ConfigSays W N :: repeat Menu k) ++ [RunStarted]
              ++ found ++ [RunEnded; Elapsed])
             err (Z.to_nat W)) /\
    Forall (fun l => exists i n, l = FoundByThread i n /\ 0 <= i < W) found /\
    (forall i, 0 <= i < W ->
       found_by i found
       = filter prime_ref
           (Zrange (1 + i * (N / W)) (if i =? W - 1 then N else (i + 1) * (N / W))))).
  { unfold orchestrate.
    destruct (read_choice_menus input [ConfigSays W N] []) as (k & err & Hk).
    destruct (read_choice_selected input [ConfigSays W N] [])
      as (out0 & err0 & Hr & _).
    rewrite Hr in *. cbn [fst] in Hk. inversion Hk; subst out0 err0. clear Hk Hr.
    rewrite Hsel. rewrite reserve_accepts by lia. cbn [bind].
    cbn [Z.eqb Pos.eqb orb].
    destruct (assignments_spans N W HW ltac:(lia)) as (ws0 & Hws & Hlen & Hat & _).
    unfold runSchemeA. rewrite Hws. cbn [bind].
    match goal with |- context [join_range_workers _ _ ?x _] => set (s1 := x) end.
    assert (Hq0 : 0 <= N / W) by (apply Z.div_pos; lia).
    pose proof (Z.mul_div_le N W ltac:(lia)) as Hfit.
    assert (Hends : forall i w0, nth_error ws0 i = Some w0 ->
                      Z.of_nat i < W /\ 1 <= rw_n w0 /\ rw_end w0 <= N).
    { intros i w0 Hi. destruct (Hat i w0 Hi) as (_ & -> & ->).
      assert (i < length ws0)%nat by (apply nth_error_Some; congruence).
      split; [lia|]. destruct (Z.eqb_spec (Z.of_nat i) (W - 1)); nia. }
    assert (Hinit : attributed ws0 s1 (s1, ws0)).
    { split; [|split; [reflexivity|split; [reflexivity|]]]; cbn [fst snd].
      - apply Forall_forall. intros w Hw. apply In_nth_error in Hw as [i Hi].
        destruct (Hends i w Hi). lia.
      - exists []. split; [now rewrite app_nil_r|]. split; [constructor|].
        intros i w0 w Hi0 Hi. rewrite Hi0 in Hi. inversion Hi; subst w.
        destruct (Hat i w0 Hi0) as (Hid & _). auto. }
    unfold join_range_workers.
    destruct (run_returns range_enabled (workerRangeSchemeA true) range_size
                (range_step_decreases true) (attributed ws0 s1)
                (attributed_step ws0 s1) (attributed_safe ws0 s1)
                (schedA sc) 0%nat s1 ws0 Hinit)
      as (s' & ws' & -> & _ & Hret & (_ & Hsp & Hlen' & found & Hout & Hshape & Hfound)).
    cbn [bind fst snd] in *. unfold finish.
    exists k, found, err. split; [|split].
    - rewrite Hout, Hsp. unfold s1. cbn [count_spawned stdout spawned].
      replace (0 + length ws0)%nat with (Z.to_nat W) by lia.
      rewrite <- !app_assoc. reflexivity.
    - eapply Forall_impl; [|exact Hshape]. intros l (i & n & -> & Hi).
      exists (Z.of_nat i), n. split; [reflexivity | lia].
    - intros i Hi.
      destruct (nth_error ws0 (Z.to_nat i)) as [w0|] eqn:Hw0;
        [|apply nth_error_None in Hw0; lia].
      destruct (nth_error ws' (Z.to_nat i)) as [w|] eqn:Hw;
        [|apply nth_error_None in Hw; lia].
      destruct (Hfound _ _ _ Hw0 Hw) as (_ & _ & Hf).
      pose proof (proj1 (Forall_forall _ _) Hret w (nth_error_In _ _ Hw)) as Hdone.
      unfold range_enabled in Hdone. apply Z.leb_gt in Hdone.
      assert (Hp : pending w = []).
      { unfold pending, span. now rewrite Zrange_empty by lia. }
      rewrite Hp, app_nil_r, Z2Nat.id in Hf by lia. rewrite Hf.
      destruct (Hends _ _ Hw0) as (_ & _ & Hend).
      destruct (Hat _ _ Hw0) as (_ & Hn0 & He0). rewrite Z2Nat.id in Hn0, He0 by lia.
      unfold pending, span. rewrite <- Hn0, <- He0.
      apply filter_ext_in. intros x Hx. apply In_Zrange in Hx.
      apply isPrimeSingleThread_ref. lia. }
  destruct Hrun as (k & found & err & Hr & Hshape & Hby).
  exists k, found, err. split; [exact Hr|]. split; [exact Hshape|].
  split; [exact Hby|].
  intros Hlt i Hi. rewrite Hby by lia.
  rewrite Z.div_small by lia.
  destruct (Z.eqb_spec i (W - 1)); [lia|].
  rewrite Zrange_empty by lia. reflexivity.
Qed.

Lemma scheme_A_lines_by_thread_witness :
  exists k found err,
    orchestrate 3 20 [1] round_robin
    = Ret (Exited 0
             ((ConfigSays 3 20 :: repeat Menu k) ++ [RunStarted]
              ++ found ++ [RunEnded; Elapsed])
             err (Z.to_nat 3)) /\
    Forall (fun l => exists i n, l = FoundByThread i n /\ 0 <= i < 3) found /\
    (forall i, 0 <= i < 3 ->
       found_by i found
       = filter prime_ref
           (Zrange (1 + i * (20 / 3)) (if i =? 3 - 1 then 20 else (i + 1) * (20 / 3)))) /\
    (20 < 3 -> forall i, 0 <= i < 3 - 1 -> found_by i found = []).
Proof.
  assert (H1 : 1 <= 3 <= max_size) by (vm_compute; split; discriminate).
  assert (H2 : 2 <= 20 < Long.LONG_MAX) by (vm_compute; split; [discriminate | reflexivity]).
  exact (scheme_A_lines_by_thread 3 20 [1] round_robin H1 H2 eq_refl).
Defined.

(** ** Scheme B: the scan of a prime candidate *)

Lemma Forall2_and_right {A B : Type} (P Q : A -> B -> Prop) (R : B -> Prop)
  (l1 : list A) (l2 : list B) :
  Forall2 P l1 l2 -> Forall2 Q l1 l2 -> Forall R l2 ->
  Forall2 (fun a b => P a b /\ Q a b /\ R b) l1 l2.
Proof.
  induction 1 as [|a b l1 l2 Hab H IH]; intros HQ HR; [constructor|].
  inversion HQ; subst. inversion HR; subst. constructor; auto.
Qed.

(** X14.  On an odd [n >= 9] with a worker budget [W >= 1], under every
    scheduler, the joins return the flag that is the negation of the
    oracle's verdict; and when [n] is prime no worker leaves early: each has
    returned with its divisor one past the last of its chunk, after dividing
    [n] by every integer of the chunk, the even ones between two odd
    divisors included. *)
Theorem prime_candidate_full_scan (sched : nat -> nat) (n W : Z) (chunks : list chunk) :
  9 <= n <= Long.LONG_MAX -> Z.rem n 2 <> 0 -> 1 <= W ->
  partition_divisors (build_divisors (sqrt_limit n) 3) W = Ret chunks ->
  exists flag ws',
    join_div_workers sched n (map spawn_div_worker chunks) = Ret (flag, ws') /\
    flag = negb (isPrimeSingleThread n) /\
    (isPrimeSingleThread n = true ->
     Forall2 (fun c w => dw_pc w = AtReturn /\ dw_d w = endDiv c + 1 /\
                         forall d, startDiv c <= d <= endDiv c -> Z.rem n d <> 0)
             chunks ws').
Proof.
  intros Hn Hodd HW Hpart.
  pose proof (sqrt_limit_bounds n ltac:(lia)) as (H0 & Hsq & Hlt).
  assert (Hl3 : 3 <= sqrt_limit n) by nia.
  pose proof (sqrt_limit_small n ltac:(lia)) as [_ Hlmax].
  destruct (partition_facts (sqrt_limit n) W ltac:(lia) HW
              ltac:(apply sqrt_budget_fits; lia))
    as (chunks' & Hpart' & _ & Ht & Hdiv).
  rewrite Hpart in Hpart'. inversion Hpart'; subst chunks'. clear Hpart'.
  destruct (join_div_workers_returns sched n (map spawn_div_worker chunks))
    as (flag & ws' & Hrun & Hsteps & Hret).
  exists flag, ws'. split; [exact Hrun|].
  pose proof (div_workers_verdict n (sqrt_limit n) chunks ltac:(lia) Hodd Ht Hdiv
                flag ws' Hsteps Hret) as Hverdict.
  assert (Horacle : isPrimeSingleThread n = trial_loop n (sqrt_limit n) 3).
  { unfold isPrimeSingleThread.
    destruct (Z.ltb_spec n 2); [lia|].
    destruct (Z.eqb_spec n 2); [lia|].
    destruct (Z.eqb_spec (Z.rem n 2) 0); [contradiction | reflexivity]. }
  rewrite <- Horacle in Hverdict.
  split; [rewrite <- Hverdict; now rewrite negb_involutive|].
  intros Hprime. rewrite Hprime in Hverdict.
  assert (Hflag : flag = false) by (destruct flag; [discriminate | reflexivity]).
  subst flag.
  pose proof (chunk_bounds _ _ Ht Hdiv) as Hb.
  pose proof (chunks_not_empty _ _ Ht Hdiv) as Hne.
  pose proof (within_chunk_pool n chunks Hne false ws' Hsteps) as Hin.
  assert (Hinv : div_inv n (sqrt_limit n) chunks (false, ws')).
  { eapply (pool_steps_invariant div_enabled (workerCheckDivRange n)
              (div_inv n (sqrt_limit n) chunks)); eauto.
    - intros p q. apply div_inv_step. exact Hb.
    - apply div_inv_init. }
  destruct Hinv as [Hok _]. cbn [fst snd] in Hok.
  eapply Forall2_impl; [|exact (Forall2_and_right _ _ _ _ _ Hok Hin Hret)].
  intros c w ((He & Hs & Hno & Hpc) & (_ & Hd & _) & Hdone).
  unfold div_enabled in Hdone. destruct (dw_pc w); try discriminate.
  destruct Hpc as [Hf|Hpast]; [discriminate|].
  split; [reflexivity|]. split; [lia|].
  intros d Hd'. apply Hno. lia.
Qed.

Lemma prime_candidate_full_scan_witness :
  exists chunks flag ws',
    partition_divisors (build_divisors (sqrt_limit 101) 3) 2 = Ret chunks /\
    join_div_workers (fun t => (t + 1)%nat) 101 (map spawn_div_worker chunks)
    = Ret (flag, ws') /\
    flag = negb (isPrimeSingleThread 101) /\
    (isPrimeSingleThread 101 = true ->
     Forall2 (fun c w => dw_pc w = AtReturn /\ dw_d w = endDiv c + 1 /\
                         forall d, startDiv c <= d <= endDiv c -> Z.rem 101 d <> 0)
             chunks ws').
Proof.
  assert (H1 : 9 <= 101 <= Long.LONG_MAX) by (vm_compute; split; discriminate).
  assert (H2 : Z.rem 101 2 <> 0) by (vm_compute; discriminate).
  assert (H3 : 1 <= 2) by lia.
  eexists.
  assert (Hp : partition_divisors (build_divisors (sqrt_limit 101) 3) 2 = Ret _)
    by (vm_compute; reflexivity).
  destruct (prime_candidate_full_scan (fun t => (t + 1)%nat) 101 2 _ H1 H2 H3 Hp)
    as (flag & ws' & Hrun & Hflag & Hscan).
  exists flag, ws'. split; [exact Hp|]. split; [exact Hrun|].
  split; [exact Hflag | exact Hscan].
Defined.

(** ** Scheme B: the deferred list before the sort *)

(** X15.  Scheme B in deferred mode, under every scheduling: the loop ends,
    prints nothing, and has appended to [g_collectedPrimes] the primes of
    [[1, N]] in ascending order; on the vector [main] has cleared, the
    [std::sort] that follows changes nothing. *)
Theorem scheme_B_collects_in_order (sched : Z -> nat -> nat) (W N : Z) (s : sink) :
  1 <= W -> 2 <= N < Long.LONG_MAX ->
  exists s',
    runSchemeB sched N W false s = Ret s' /\
    stdout s' = stdout s /\
    g_collectedPrimes s' = g_collectedPrimes s ++ primes_ref N /\
    (g_collectedPrimes s = [] ->
     std_sort (g_collectedPrimes s') = g_collectedPrimes s').
Proof.
  intros HW HN. pose proof long_bounds. unfold runSchemeB.
  destruct (runSchemeB_from_primes sched N W false HW ltac:(lia) 2 s ltac:(lia))
    as (s' & Hr & Hp & Hout).
  unfold sink_primes in Hp.
  rewrite oracle_filter_from_two, oracle_filter_ref in Hp by lia.
  exists s'. split; [exact Hr|]. split; [exact Hout|]. split; [exact Hp|].
  intros Hnil. rewrite Hp, Hnil. cbn [app]. now apply std_sort_primes.
Qed.

Lemma scheme_B_collects_in_order_witness :
  exists s',
    runSchemeB (fun _ t => (2 * t)%nat) 40 3 false (mk_sink [RunStarted] [] 0) = Ret s' /\
    stdout s' = [RunStarted] /\
    g_collectedPrimes s' = [] ++ primes_ref 40 /\
    (@nil Z = [] -> std_sort (g_collectedPrimes s') = g_collectedPrimes s').
Proof.
  assert (H1 : 1 <= 3) by lia.
  assert (H2 : 2 <= 40 < Long.LONG_MAX) by (vm_compute; split; [discriminate | reflexivity]).
  exact (scheme_B_collects_in_order (fun _ t => (2 * t)%nat) 3 40
           (mk_sink [RunStarted] [] 0) H1 H2).
Defined.
